(** * Grid partitioning and grid projection operators

    A shallow embedding of two modules of the repository:

    - [grids/partition.py]: [partition_metis], [partition_structured] and
      [determine_coarse_dimensions];
    - [porepy/numerics/ad/grid_operators.py]: [_subgrid_projections],
      [SubdomainProjections] and [MortarProjections].

    Python exceptions become values of an error monad, numpy arrays become
    lists, scipy sparse matrices become coordinate lists with a shape, and
    dictionaries become finite maps.  Integer-valued floating point arrays
    ([np.ones], [np.floor], ...) are read as integers, and products of
    [int64] arrays wrap around.  The while loop of
    [determine_coarse_dimensions] is defined for any floor and ceiling of the
    floating point root [np.power] ([determine_coarse_dimensions_with]);
    [determine_coarse_dimensions] itself takes the root in exact
    arithmetic. *)

From stdpp Require Import gmap strings list fin_maps.
From Stdlib Require Import ZArith Lia.

Open Scope Z_scope.

(** ** Python results *)

Module Py.

Inductive exn :=
  | NameError (name : string)
  | UnboundLocalError (name : string)
  | AttributeError (name : string)
  | ValueError
  | TypeError
  | IndexError
  | KeyError
  | ZeroDivisionError
  | NotImplementedError.

Inductive result (A : Type) :=
  | Ok (a : A)
  | Raise (e : exn).
Arguments Ok {A} a.
Arguments Raise {A} e.

Definition bind {A B} (m : result A) (k : A → result B) : result B :=
  match m with
  | Ok a => k a
  | Raise e => Raise e
  end.

#[export] Instance result_ret : MRet result := @Ok.
#[export] Instance result_bind : MBind result := λ A B k m, bind m k.

(** [mapM]-like traversal: evaluates left to right, stops at the first
    exception, as a list comprehension does. *)
Fixpoint traverse {A B} (f : A → result B) (l : list A) : result (list B) :=
  match l with
  | [] => Ok []
  | a :: l' => b ← f a; bs ← traverse f l'; Ok (b :: bs)
  end.

(** [seq[i]] for a non-negative index. *)
Definition getitem {A} (l : list A) (i : nat) : result A :=
  match l !! i with
  | Some a => Ok a
  | None => Raise IndexError
  end.

(** [seq[-1]]. *)
Definition getitem_last {A} (l : list A) : result A :=
  match last l with
  | Some a => Ok a
  | None => Raise IndexError
  end.

End Py.
Export Py.

(** ** scipy.sparse *)

Module Sparse.

(** A sparse matrix: its shape and its stored entries (row, column, value). *)
Record spmatrix := SpMatrix {
  nrows : nat;
  ncols : nat;
  triples : list (nat * nat * Z)
}.

Definition t_row (t : nat * nat * Z) : nat := t.1.1.
Definition t_col (t : nat * nat * Z) : nat := t.1.2.
Definition t_val (t : nat * nat * Z) : Z := t.2.

Definition sumZ (l : list Z) : Z := foldr Z.add 0 l.

(** The values stored at position [(r, c)]. *)
Definition stored (M : spmatrix) (r c : nat) : list Z :=
  t_val <$> List.filter (λ t, (t_row t =? r)%nat && (t_col t =? c)%nat) (triples M).

(** The matrix entry at [(r, c)]: stored duplicates add up. *)
Definition entry (M : spmatrix) (r c : nat) : Z := sumZ (stored M r c).

(** [sps.coo_matrix((data, (row, col)), shape=(n, m))]: the three arrays must
    have one length and the indices must fit the shape. *)
Definition coo_matrix (data : list Z) (row col : list nat) (n m : nat)
  : result spmatrix :=
  if negb ((length data =? length row)%nat && (length row =? length col)%nat)
  then Raise ValueError
  else if negb (forallb (λ r, (r <? n)%nat) row && forallb (λ c, (c <? m)%nat) col)
  then Raise ValueError
  else Ok (SpMatrix n m (zip (zip row col) data)).

(** [.tocsr()] changes the storage scheme, not the matrix. *)
Definition tocsr (M : spmatrix) : spmatrix := M.

(** [.copy()]. *)
Definition copy (M : spmatrix) : spmatrix := M.

(** [M.T] and [M.transpose()]. *)
Definition transpose (M : spmatrix) : spmatrix :=
  SpMatrix (ncols M) (nrows M) ((λ t, (t_col t, t_row t, t_val t)) <$> triples M).

(** The products [a * b] that contribute to entry [(i, k)] of [A * B]. *)
Definition terms (A B : spmatrix) (i k : nat) : list Z :=
  ta ← List.filter (λ t, (t_row t =? i)%nat) (triples A);
  tb ← List.filter (λ t, (t_row t =? t_col ta)%nat && (t_col t =? k)%nat) (triples B);
  [t_val ta * t_val tb].

Definition cell (A B : spmatrix) (i k : nat) : list (nat * nat * Z) :=
  match terms A B i k with
  | [] => []
  | ts => [(i, k, sumZ ts)]
  end.

(** [A * B] on sparse matrices is the matrix product; the result has one
    stored entry for each position reached by some pair of stored entries. *)
Definition matmul (A B : spmatrix) : result spmatrix :=
  if negb (ncols A =? nrows B)%nat then Raise ValueError
  else Ok (SpMatrix (nrows A) (ncols B)
             (i ← seq 0 (nrows A); k ← seq 0 (ncols B); cell A B i k)).

(** [M.data = f(M.data)]. *)
Definition map_data (f : Z → Z) (M : spmatrix) : spmatrix :=
  SpMatrix (nrows M) (ncols M) ((λ t, (t_row t, t_col t, f (t_val t))) <$> triples M).

(** [sps.bmat([[B1, B2, ...]])]: one row of blocks, side by side.  With no
    block at all, the look-up of the first block fails. *)
Fixpoint hstack_from (n off : nat) (blocks : list spmatrix)
  : result (list (nat * nat * Z) * nat) :=
  match blocks with
  | [] => Ok ([], off)
  | B :: rest =>
      if negb (nrows B =? n)%nat then Raise ValueError
      else
        r ← hstack_from n (off + ncols B) rest;
        Ok (((λ t, (t_row t, (off + t_col t)%nat, t_val t)) <$> triples B) ++ r.1, r.2)
  end.

Definition bmat_row (blocks : list spmatrix) : result spmatrix :=
  match blocks with
  | [] => Raise IndexError
  | B :: _ =>
      r ← hstack_from (nrows B) 0 blocks;
      Ok (SpMatrix (nrows B) r.2 r.1)
  end.

(** [sps.bmat([[B1], [B2], ...])]: one column of blocks, on top of each
    other.  An empty list is not a two-dimensional array of blocks. *)
Definition bmat_col (blocks : list spmatrix) : result spmatrix :=
  match blocks with
  | [] => Raise ValueError
  | _ => M ← bmat_row (transpose <$> blocks); Ok (transpose M)
  end.

(** [sps.block_diag(mats)]. *)
Fixpoint block_diag_from (roff coff : nat) (mats : list spmatrix)
  : list (nat * nat * Z) * (nat * nat) :=
  match mats with
  | [] => ([], (roff, coff))
  | B :: rest =>
      let r := block_diag_from (roff + nrows B) (coff + ncols B) rest in
      (((λ t, ((roff + t_row t)%nat, (coff + t_col t)%nat, t_val t)) <$> triples B) ++ r.1,
       r.2)
  end.

Definition block_diag (mats : list spmatrix) : result spmatrix :=
  match mats with
  | [] => Raise ValueError
  | _ => let r := block_diag_from 0 0 mats in Ok (SpMatrix r.2.1 r.2.2 r.1)
  end.

(** The identity matrix of size [n], entry by entry. *)
Definition identity_entry (i k : nat) : Z := if (i =? k)%nat then 1 else 0.

End Sparse.
Export Sparse.

(** ** numpy helpers shared by both modules *)

Module Numpy.

(** [a.prod()]. *)
Definition prod (a : list Z) : Z := foldr Z.mul 1 a.

(** The value of dtype [int64] that an integer leaves after the wrap-around
    modulo [2 ^ 64]. *)
Definition int64 (z : Z) : Z := (z + 2 ^ 63) `mod` 2 ^ 64 - 2 ^ 63.

(** [np.arange(n)]. *)
Definition arange (n : nat) : list nat := seq 0 n.

(** [np.arange(0, stop, step, dtype='i')] for an integer-valued step: the
    array [0, step, 2*step, ...] with [ceil(stop / step)] entries. *)
Definition arange_step (stop step : Z) : result (list Z) :=
  if step =? 0 then Raise ValueError
  else Ok ((λ j, Z.of_nat j * step) <$> seq 0 (Z.to_nat (- ((- stop) `div` step)))).

(** [np.zeros(n)]. *)
Definition zeros (n : Z) : result (list Z) :=
  if n <? 0 then Raise ValueError else Ok (replicate (Z.to_nat n) 0).

(** [np.cumsum(a)]. *)
Fixpoint cumsum_from (acc : Z) (a : list Z) : list Z :=
  match a with
  | [] => []
  | x :: a' => (acc + x) :: cumsum_from (acc + x) a'
  end.
Definition cumsum (a : list Z) : list Z := cumsum_from 0 a.

(** Elementwise binary operation with numpy broadcasting of one-dimensional
    arrays: equal lengths, or one operand of length one. *)
Definition broadcast2 {A B C} (f : A → B → C) (a : list A) (b : list B)
  : result (list C) :=
  if (length a =? length b)%nat then Ok (zip_with f a b)
  else match a, b with
       | [x], _ => Ok (f x <$> b)
       | _, [y] => Ok ((λ x, f x y) <$> a)
       | _, _ => Raise ValueError
       end.

(** [a[idx] = src[idx]] for an array of indices. *)
Definition assign_at {A} `{Inhabited A} (a src : list A) (idx : list nat) : list A :=
  imap (λ i x, if bool_decide (i ∈ idx) then src !!! i else x) a.

(** [a[idx] = v] for an array of indices and a scalar. *)
Definition fill_at {A} (a : list A) (idx : list nat) (v : A) : list A :=
  imap (λ i x, if bool_decide (i ∈ idx) then v else x) a.

(** [a[mask] = src[mask]] for a boolean mask. *)
Definition assign_mask {A} (a src : list A) (mask : list bool) : list A :=
  zip_with (λ (m : bool) (p : A * A), if m then p.2 else p.1) mask (zip a src).

(** [np.squeeze(np.argwhere(mask))]: the indices at which [mask] holds. *)
Fixpoint argwhere_from (i : nat) (mask : list bool) : list nat :=
  match mask with
  | [] => []
  | b :: mask' => (if b then [i] else []) ++ argwhere_from (S i) mask'
  end.
Definition argwhere (mask : list bool) : list nat := argwhere_from 0 mask.

(** [np.any(a)] on an integer array: some entry is non-zero. *)
Definition any_nonzero (a : list nat) : bool := existsb (λ i, negb (i =? 0)%nat) a.

(** [np.all(a)] on a boolean array. *)
Definition all_true (a : list bool) : bool := forallb id a.

(** [a.sum()] on a boolean array. *)
Definition count_true (a : list bool) : nat := length (List.filter id a).

(** Rows and columns of a nested list exchanged. *)
Definition transpose2 {A} (rows : list (list A)) : list (list A) :=
  match rows with
  | [] => []
  | r0 :: _ => (λ j, omap (λ r : list A, r !! j) rows) <$> seq 0 (length r0)
  end.

End Numpy.
Export Numpy.

(** ** grids/partition.py *)

Module Partition.

(** The attributes of a grid that this module reads. *)
Record Grid := {
  cell_faces : spmatrix;
  dim : nat;
  cart_dims : list Z
}.

(** *** Names

    A function body reads a name from its local variables, then from the
    module's globals, then from the builtins. *)

Inductive pyobj :=
  | PyMatrix (M : spmatrix)
  | PyInt (z : Z)
  | PyGrid (g : Grid)
  | PyModule (name : string)
  | PyFunction (name : string).

(** The names bound at the top level of [partition.py]. *)
Definition module_globals : gmap string pyobj :=
  list_to_map
    [("pymetis", PyModule "pymetis"); ("np", PyModule "numpy");
     ("structured", PyModule "core.grids.structured");
     ("permutations", PyModule "utils.permutations");
     ("partition_metis", PyFunction "partition_metis");
     ("partition_structured", PyFunction "partition_structured");
     ("determine_coarse_dimensions", PyFunction "determine_coarse_dimensions")].

(** The builtins the module uses. *)
Definition builtins : gmap string pyobj :=
  list_to_map
    [("range", PyFunction "range"); ("enumerate", PyFunction "enumerate");
     ("ValueError", PyFunction "ValueError")].

Definition load_name (locals : gmap string pyobj) (name : string) : result pyobj :=
  match locals !! name with
  | Some v => Ok v
  | None =>
      match module_globals !! name with
      | Some v => Ok v
      | None =>
          match builtins !! name with
          | Some v => Ok v
          | None => Raise (NameError name)
          end
      end
  end.

(** *** partition_metis *)

(** One call of [pymetis.part_graph]: the number of parts and the adjacency
    lists it was given. *)
Definition oracle_call : Type := Z * list (list nat).

Section metis.

(** The external partitioner: returns a pair whose second component is the
    label vector. *)
Variable part_graph : Z → list (list nat) → result (Z * list Z).

(** [M.getrow(i).indices]: the columns of the entries stored in row [i] of
    [M], in the order in which the storage scheme of [M] holds them.  The
    matrices of this development do not record a storage scheme, so the
    function is taken as it comes. *)
Variable getrow_indices : spmatrix → nat → list nat.

(** Lines 41 to 55, for the matrix that the name [cell_faces] refers to.
    The result is the list of calls made to the partitioner and the outcome. *)
Definition partition_metis_from_line_41 (cell_faces : spmatrix)
  : list oracle_call * result (list Z) :=
  let cell_faces := map_data Z.abs cell_faces in
  match matmul (transpose cell_faces) cell_faces with
  | Raise e => ([], Raise e)
  | Ok c2c =>
      let c2c := map_data (λ v, Z.max 0 (Z.min v 1)) c2c in
      let adjacency_list := getrow_indices c2c <$> seq 0 (nrows c2c) in
      ([(10, adjacency_list)],
       part ← part_graph 10 adjacency_list; Ok part.2)
  end.

Definition partition_metis (g : Grid) (num_part : Z)
  : list oracle_call * result (list Z) :=
  let locals : gmap string pyobj :=
    {[ "g" := PyGrid g; "num_part" := PyInt num_part ]} in
  (* cell_face = g.cell_faces.copy() *)
  let locals := <[ "cell_face" := PyMatrix (copy (cell_faces g)) ]> locals in
  (* cell_faces.data = np.abs(cell_faces.data) *)
  match load_name locals "cell_faces" with
  | Raise e => ([], Raise e)
  | Ok (PyMatrix M) => partition_metis_from_line_41 M
  | Ok _ => ([], Raise (AttributeError "data"))
  end.

End metis.

(** *** partition_structured *)

(** [np.floor(fine_dims / coarse_dims)].  Division by a zero entry gives an
    infinite float under numpy; the model stops there. *)
Definition floor_divide (fine_dims coarse_dims : list Z) : result (list Z) :=
  if existsb (λ c, c =? 0) coarse_dims then Raise ZeroDivisionError
  else broadcast2 Z.div fine_dims coarse_dims.

(** The body of the loop over the dimensions, lines 99 to 113. *)
Definition coarse_index (fine_dims coarse_dims fine_per_coarse : list Z) (i : nat)
  : result (list Z) :=
  fine_i ← getitem fine_dims i;
  step ← getitem fine_per_coarse i;
  incr_ind ← arange_step fine_i step;
  coarse_i ← getitem coarse_dims i;
  let incr_ind :=
    if coarse_i <? Z.of_nat (length incr_ind) then removelast incr_ind else incr_ind in
  loc_ind ← zeros fine_i;
  let loc_ind :=
    imap (λ j x, if bool_decide (Z.of_nat j ∈ incr_ind) then x + 1 else x) loc_ind in
  Ok ((λ x, x - 1) <$> cumsum loc_ind).

(** [np.meshgrid(a, b)]: both results have one row for each entry of [b]. *)
Definition meshgrid2 (a b : list Z) : list (list Z) * list (list Z) :=
  (replicate (length b) a, (λ y, replicate (length a) y) <$> b).

(** [np.meshgrid(a, b, c)]: the results have shape (len b, len a, len c). *)
Definition meshgrid3 (a b c : list Z)
  : list (list (list Z)) * list (list (list Z)) * list (list (list Z)) :=
  (replicate (length b) ((λ x, replicate (length c) x) <$> a),
   (λ y, replicate (length a) (replicate (length c) y)) <$> b,
   replicate (length b) (replicate (length a) c)).

(** [np.swapaxes(t, 1, 2)] and [np.swapaxes(t, 0, 1)] on a 3-d array. *)
Definition swapaxes12 (t : list (list (list Z))) : list (list (list Z)) :=
  transpose2 <$> t.
Definition swapaxes01 (t : list (list (list Z))) : list (list (list Z)) :=
  transpose2 t.

Definition partition_structured (g : Grid) (coarse_dims : option (list Z))
    (num_part : option Z) : result (list Z) :=
  match coarse_dims, num_part with
  | None, None => Raise ValueError
  | _, _ =>
      let nd := dim g in
      let fine_dims := cart_dims g in
      (* fine_per_coarse = np.floor(fine_dims / coarse_dims) *)
      match coarse_dims with
      | None => Raise TypeError
      | Some coarse_dims =>
          fine_per_coarse ← floor_divide fine_dims coarse_dims;
          ind ← traverse (coarse_index fine_dims coarse_dims fine_per_coarse) (seq 0 nd);
          if (nd =? 2)%nat then
            ind0 ← getitem ind 0; ind1 ← getitem ind 1;
            c0 ← getitem coarse_dims 0;
            let '(xi, yi) := meshgrid2 ind0 ind1 in
            Ok (concat (zip_with (zip_with (λ x y, x + y * c0)) xi yi))
          else if (nd =? 3)%nat then
            ind0 ← getitem ind 0; ind1 ← getitem ind 1; ind2 ← getitem ind 2;
            c0 ← getitem coarse_dims 0;
            let '(xi, yi, zi) := meshgrid3 ind0 ind1 ind2 in
            let glob_dims :=
              zip_with (zip_with (zip_with (λ (xy : Z * Z) z,
                          xy.1 + xy.2 * c0 + z * prod (take 2 coarse_dims))))
                (zip_with (zip_with zip) xi yi) zi in
            Ok (concat (concat (swapaxes01 (swapaxes12 glob_dims))))
          else Raise (UnboundLocalError "glob_dims")
      end
  end.

(** *** The permutation enumerator

    Modelled from the spec: [utils.permutations.multinary_permutations] is not
    part of the sources.  It enumerates all [base ^ length] tuples over
    [0 .. base - 1] in a fixed order in which the most significant position
    varies slowest; position 0 is taken as the least significant one, so it
    varies fastest. *)
Fixpoint multinary_permutations (base length : nat) : list (list nat) :=
  match length with
  | O => [[]]
  | S n => rest ← multinary_permutations base n; (λ d, d :: rest) <$> seq 0 base
  end.

(** *** determine_coarse_dimensions *)

(** [np.floor(np.power(T / D, 1 / k))] in exact arithmetic: the largest
    [n >= 0] with [n ^ k * D <= T]. *)
Fixpoint root_floor_below (bound : nat) (T D : Z) (k : nat) : Z :=
  match bound with
  | O => 0
  | S b =>
      if Z.of_nat (S b) ^ Z.of_nat k * D <=? T then Z.of_nat (S b)
      else root_floor_below b T D k
  end.
Definition root_floor (T D : Z) (k : nat) : Z := root_floor_below (Z.to_nat T) T D k.

(** [np.ceil(np.power(T / D, 1 / k))]: the floor when the root is an integer,
    one more otherwise. *)
Definition root_ceil (T D : Z) (k : nat) : Z :=
  let f := root_floor T D k in
  if f ^ Z.of_nat k * D =? T then f else f + 1.

Record loop_state := LoopState {
  optimum : list Z;
  found : list bool;
  it_counter : nat
}.

(** The candidates and the dimensions that hit the ceiling. *)
Record ceiling_step := CeilingStep {
  cs_s_low : list Z;
  cs_s_high : list Z;
  cs_hit_ceil : list nat;
  cs_optimum : list Z;
  cs_found : list bool
}.

(** Lines 191 to 199, for the values [s_floor] and [s_ceil] that
    [np.floor(s_num)] and [np.ceil(s_num)] take. *)
Definition resolve_ceiling_from (s_floor s_ceil : Z) (fine_size : list Z)
    (st : loop_state) : ceiling_step :=
  let s_low := (λ _, Z.max 1 s_floor) <$> fine_size in
  let s_high := (λ f, Z.min f s_ceil) <$> fine_size in
  let hit_ceil :=
    argwhere (zip_with andb (zip_with Z.eqb s_high fine_size) (negb <$> found st)) in
  CeilingStep s_low s_high hit_ceil
    (assign_at (optimum st) s_high hit_ceil)
    (fill_at (found st) hit_ceil true).

(** Lines 219 to 224: one pass of the loop over the combinations.  [perm] has
    one bit per dimension, so every slot of [size_now] is assigned. *)
Definition size_now (coarse_size : list (list Z)) (perm : list nat) : list Z :=
  imap (λ i bit, (coarse_size !!! bit) !!! i) perm.

Definition try_combination (target : Z) (coarse_size : list (list Z))
    (acc : Z * list Z) (perm : list nat) : Z * list Z :=
  let size := size_now coarse_size perm in
  if Z.abs (target - prod size) <? acc.1 then (target - prod size, size) else acc.

(** Lines 207 to 224.  The first distance to beat is [fine_size.prod()], a
    product of dtype [int64]. *)
Definition combination_search (target : Z) (fine_size : list Z)
    (c : ceiling_step) : list Z :=
  let nd := length fine_size in
  let s_low := assign_mask (cs_s_low c) (cs_optimum c) (cs_found c) in
  let s_high := assign_mask (cs_s_high c) (cs_optimum c) (cs_found c) in
  let coarse_size := [s_low; s_high] in
  (foldl (try_combination target coarse_size) (int64 (prod fine_size), cs_optimum c)
     (multinary_permutations 2 nd)).2.

(** One iteration of the while loop, lines 179 to 228, for the values
    [s_floor] and [s_ceil] of the floor and the ceiling of [s_num]. *)
Definition loop_body_from (s_floor s_ceil target : Z) (fine_size : list Z)
    (st : loop_state) : loop_state :=
  let it := S (it_counter st) in
  let c := resolve_ceiling_from s_floor s_ceil fine_size st in
  if any_nonzero (cs_hit_ceil c) then LoopState (cs_optimum c) (cs_found c) it
  else LoopState (combination_search target fine_size c) ((λ _, true) <$> cs_found c) it.

Definition loop_guard (nd : nat) (st : loop_state) : bool :=
  negb (all_true (found st)) && (it_counter st <=? nd)%nat.

Section rounding.

(** Lines 182 and 190: [s_num T D k] is the pair of [np.floor] and [np.ceil]
    of the float [np.power(T / D, 1 / k)].  The loop is defined for any such
    function, so for any rounding of the root. *)
Variable s_num : Z → Z → nat → Z * Z.

(** One iteration of the while loop. *)
Definition loop_body_with (target : Z) (fine_size : list Z) (st : loop_state)
  : loop_state :=
  let nd := length fine_size in
  let s := s_num target (prod (optimum st)) (nd - count_true (found st)) in
  loop_body_from s.1 s.2 target fine_size st.

(** The while loop; [rounds] bounds the number of tests of the guard. *)
Fixpoint while_loop_with (rounds : nat) (target : Z) (fine_size : list Z)
    (st : loop_state) : loop_state :=
  match rounds with
  | O => st
  | S r =>
      if loop_guard (length fine_size) st
      then while_loop_with r target fine_size (loop_body_with target fine_size st)
      else st
  end.

(** The counter grows by one in each iteration and the guard fails once it
    exceeds [nd], so [nd + 2] tests of the guard are enough. *)
Definition determine_coarse_dimensions_with (target : Z) (fine_size : list Z)
  : result (list Z) :=
  let target := Z.max 1 (Z.min target (int64 (prod fine_size))) in
  let nd := length fine_size in
  let st0 := LoopState (replicate nd 1) (replicate nd false) 0 in
  let st := while_loop_with (nd + 2) target fine_size st0 in
  if (nd <? it_counter st)%nat then Raise ValueError else Ok (optimum st).

End rounding.

(** The root of line 190 in exact arithmetic, and the function with this
    root. *)
Definition exact_root (T D : Z) (k : nat) : Z * Z :=
  (root_floor T D k, root_ceil T D k).

(** Lines 182 to 199. *)
Definition resolve_ceiling (target : Z) (fine_size : list Z) (st : loop_state)
  : ceiling_step :=
  let nd := length fine_size in
  let s := exact_root target (prod (optimum st)) (nd - count_true (found st)) in
  resolve_ceiling_from s.1 s.2 fine_size st.

Definition loop_body (target : Z) (fine_size : list Z) (st : loop_state) : loop_state :=
  loop_body_with exact_root target fine_size st.

Definition while_loop (rounds : nat) (target : Z) (fine_size : list Z) (st : loop_state)
  : loop_state :=
  while_loop_with exact_root rounds target fine_size st.

Definition determine_coarse_dimensions (target : Z) (fine_size : list Z)
  : result (list Z) :=
  determine_coarse_dimensions_with exact_root target fine_size.

End Partition.

(** ** porepy/numerics/ad/grid_operators.py *)

Module GridOperators.

(** A grid object: its identity and the attributes this module reads.  Two
    objects are the same key of a dictionary exactly when they are the same
    object, so the identity is part of the record. *)
Record Grid := MkGrid {
  gid : nat;
  dim : nat;
  num_cells : nat;
  num_faces : nat
}.

#[export] Instance Grid_eq_dec : EqDecision Grid.
Proof. solve_decision. Defined.

#[export] Instance Grid_countable : Countable Grid.
Proof.
  refine (inj_countable' (λ g, (gid g, dim g, num_cells g, num_faces g))
            (λ t, MkGrid t.1.1.1 t.1.1.2 t.1.2 t.2) _).
  by intros [].
Defined.

(** A mortar grid: its dimension and the projections it provides, each as a
    function of the block size. *)
Record MortarGrid := {
  mg_dim : nat;
  mortar_to_primary_int : nat → spmatrix;
  mortar_to_primary_avg : nat → spmatrix;
  primary_to_mortar_int : nat → spmatrix;
  primary_to_mortar_avg : nat → spmatrix;
  mortar_to_secondary_int : nat → spmatrix;
  mortar_to_secondary_avg : nat → spmatrix;
  secondary_to_mortar_int : nat → spmatrix;
  secondary_to_mortar_avg : nat → spmatrix;
  sign_of_mortar_sides : nat → spmatrix
}.

Definition edge : Type := Grid * Grid.

(** A grid bucket: its nodes in iteration order and its edges, each with the
    mortar grid stored on it. *)
Record GridBucket := {
  gb_nodes : list Grid;
  gb_edges : list (edge * MortarGrid)
}.

(** [gb.edge_props(e, "mortar_grid")]. *)
Definition edge_props (gb : GridBucket) (e : edge) : result MortarGrid :=
  match List.find (λ p, bool_decide (p.1 = e)) (gb_edges gb) with
  | Some p => Ok p.2
  | None => Raise KeyError
  end.

(** [pp.ad.Matrix]: the Ad wrapper of a sparse matrix. *)
Record Matrix := AdMatrix { mat : spmatrix }.

(** [d[g]]. *)
Definition dict_get (d : gmap Grid spmatrix) (g : Grid) : result spmatrix :=
  match d !! g with
  | Some M => Ok M
  | None => Raise KeyError
  end.

(** Modelled from the spec: [pp.fvutils.expand_indices_nd] is not part of the
    sources.  The expansion is block-contiguous: the block of local index [j]
    occupies the positions [j * nd .. j * nd + nd - 1]. *)
Definition expand_indices_nd (ind : list nat) (nd : nat) : list nat :=
  j ← ind; (λ d, (j * nd + d)%nat) <$> seq 0 nd.

Definition _grid_list (grids : option (list Grid)) (gb : option GridBucket)
  : result (list Grid) :=
  match grids with
  | Some grids => Ok grids
  | None =>
      match gb with
      | None => Raise ValueError
      | Some gb => Ok (gb_nodes gb)
      end
  end.

(** *** _subgrid_projections *)

Record projections := Projections {
  cell_projection : gmap Grid spmatrix;
  face_projection : gmap Grid spmatrix
}.

Record offsets := Offsets {
  face_offset : nat;
  cell_offset : nat
}.

(** The body of the loop over the grids, lines 592 to 613. *)
Definition subgrid_step (nd tot_num_faces tot_num_cells : nat)
    (st : projections * offsets) (g : Grid) : result (projections * offsets) :=
  let '(proj, off) := st in
  let face_ind :=
    (λ i, (face_offset off + i)%nat) <$> expand_indices_nd (arange (num_faces g)) nd in
  let cell_ind :=
    (λ i, (cell_offset off + i)%nat) <$> expand_indices_nd (arange (num_cells g)) nd in
  let face_sz := (num_faces g * nd)%nat in
  let cell_sz := (num_cells g * nd)%nat in
  fp ← coo_matrix (replicate face_sz 1) face_ind (arange face_sz) tot_num_faces face_sz;
  cp ← coo_matrix (replicate cell_sz 1) cell_ind (arange cell_sz) tot_num_cells cell_sz;
  let proj :=
    Projections (<[g := tocsr cp]> (cell_projection proj))
                (<[g := tocsr fp]> (face_projection proj)) in
  face_offset' ←
    (if (0 <? dim g)%nat
     then l ← getitem_last face_ind; Ok (l + 1)%nat
     else Ok (face_offset off));
  l ← getitem_last cell_ind;
  Ok (proj, Offsets face_offset' (l + 1)%nat).

Fixpoint for_each {S A} (body : S → A → result S) (st : S) (l : list A) : result S :=
  match l with
  | [] => Ok st
  | a :: l' => st' ← body st a; for_each body st' l'
  end.

(** [np.sum([...])] over the grids. *)
Definition sum_nat (l : list nat) : nat := foldr Nat.add 0%nat l.

Definition _subgrid_projections (grids : list Grid) (nd : nat) : result projections :=
  let tot_num_faces := (sum_nat (num_faces <$> grids) * nd)%nat in
  let tot_num_cells := (sum_nat (num_cells <$> grids) * nd)%nat in
  st ← for_each (subgrid_step nd tot_num_faces tot_num_cells)
         (Projections ∅ ∅, Offsets 0 0) grids;
  Ok st.1.

(** *** SubdomainProjections *)

Record SubdomainProjections := {
  sp_nd : nat;
  sp_is_scalar : bool;
  sp_num_grids : nat;
  sp_cell_projection : gmap Grid spmatrix;
  sp_face_projection : gmap Grid spmatrix
}.

Definition SubdomainProjections_init (grids : option (list Grid))
    (gb : option GridBucket) (nd : nat) : result SubdomainProjections :=
  grids ← _grid_list grids gb;
  proj ← _subgrid_projections grids nd;
  Ok {| sp_nd := nd; sp_is_scalar := (nd =? 1)%nat; sp_num_grids := length grids;
        sp_cell_projection := cell_projection proj;
        sp_face_projection := face_projection proj |}.

(** The argument of the four methods: a grid, a list of grids, or anything
    else. *)
Inductive grids_arg :=
  | OneGrid (g : Grid)
  | GridList (l : list Grid)
  | OtherValue.

Definition restriction_of (d : gmap Grid spmatrix) (grids : grids_arg) : result Matrix :=
  match grids with
  | OneGrid g => M ← dict_get d g; Ok (AdMatrix (transpose M))
  | GridList l =>
      blocks ← traverse (λ g, M ← dict_get d g; Ok (transpose M)) l;
      B ← bmat_col blocks;
      Ok (AdMatrix (tocsr B))
  | OtherValue => Raise ValueError
  end.

Definition prolongation_of (d : gmap Grid spmatrix) (grids : grids_arg) : result Matrix :=
  match grids with
  | OneGrid g => M ← dict_get d g; Ok (AdMatrix M)
  | GridList l =>
      blocks ← traverse (dict_get d) l;
      B ← bmat_row blocks;
      Ok (AdMatrix (tocsr B))
  | OtherValue => Raise ValueError
  end.

Definition cell_restriction (self : SubdomainProjections) :=
  restriction_of (sp_cell_projection self).
Definition cell_prolongation (self : SubdomainProjections) :=
  prolongation_of (sp_cell_projection self).
Definition face_restriction (self : SubdomainProjections) :=
  restriction_of (sp_face_projection self).
Definition face_prolongation (self : SubdomainProjections) :=
  prolongation_of (sp_face_projection self).

(** *** MortarProjections *)

(** The eight lists filled by the loop over the edges. *)
Record mortar_blocks := {
  b_mortar_to_primary_int : list spmatrix;
  b_mortar_to_primary_avg : list spmatrix;
  b_primary_to_mortar_int : list spmatrix;
  b_primary_to_mortar_avg : list spmatrix;
  b_mortar_to_secondary_int : list spmatrix;
  b_mortar_to_secondary_avg : list spmatrix;
  b_secondary_to_mortar_int : list spmatrix;
  b_secondary_to_mortar_avg : list spmatrix
}.

Definition no_blocks : mortar_blocks := Build_mortar_blocks [] [] [] [] [] [] [] [].

(** The test of line 252. *)
Definition non_standard (e : edge) (mg : MortarGrid) : bool :=
  negb (dim e.1 =? mg_dim mg + 1)%nat || negb (dim e.2 =? mg_dim mg)%nat.

(** [gb.edge_props] on the [gb] argument, which may be [None]. *)
Definition mortar_grid_of (gb : option GridBucket) (e : edge) : result MortarGrid :=
  match gb with
  | None => Raise (AttributeError "edge_props")
  | Some gb => edge_props gb e
  end.

(** The body of the loop over the edges, lines 250 to 287. *)
Definition mortar_step (gb : option GridBucket) (proj : projections) (nd : nat)
    (acc : mortar_blocks) (e : edge) : result mortar_blocks :=
  let '(g_primary, g_secondary) := e in
  mg ← mortar_grid_of gb e;
  if non_standard e mg then Raise NotImplementedError
  else
    fp ← dict_get (face_projection proj) g_primary;
    m1 ← matmul fp (mortar_to_primary_int mg nd);
    fp ← dict_get (face_projection proj) g_primary;
    m2 ← matmul fp (mortar_to_primary_avg mg nd);
    fp ← dict_get (face_projection proj) g_primary;
    m3 ← matmul (primary_to_mortar_int mg nd) (transpose fp);
    fp ← dict_get (face_projection proj) g_primary;
    m4 ← matmul (primary_to_mortar_avg mg nd) (transpose fp);
    cp ← dict_get (cell_projection proj) g_secondary;
    m5 ← matmul cp (mortar_to_secondary_int mg nd);
    cp ← dict_get (cell_projection proj) g_secondary;
    m6 ← matmul cp (mortar_to_secondary_avg mg nd);
    cp ← dict_get (cell_projection proj) g_secondary;
    m7 ← matmul (secondary_to_mortar_int mg nd) (transpose cp);
    cp ← dict_get (cell_projection proj) g_secondary;
    m8 ← matmul (secondary_to_mortar_avg mg nd) (transpose cp);
    Ok {| b_mortar_to_primary_int := b_mortar_to_primary_int acc ++ [m1];
          b_mortar_to_primary_avg := b_mortar_to_primary_avg acc ++ [m2];
          b_primary_to_mortar_int := b_primary_to_mortar_int acc ++ [m3];
          b_primary_to_mortar_avg := b_primary_to_mortar_avg acc ++ [m4];
          b_mortar_to_secondary_int := b_mortar_to_secondary_int acc ++ [m5];
          b_mortar_to_secondary_avg := b_mortar_to_secondary_avg acc ++ [m6];
          b_secondary_to_mortar_int := b_secondary_to_mortar_int acc ++ [m7];
          b_secondary_to_mortar_avg := b_secondary_to_mortar_avg acc ++ [m8] |}.

Record MortarProjections := {
  mp_num_edges : nat;
  mp_nd : nat;
  mp_mortar_to_primary_int : Matrix;
  mp_mortar_to_primary_avg : Matrix;
  mp_mortar_to_secondary_int : Matrix;
  mp_mortar_to_secondary_avg : Matrix;
  mp_primary_to_mortar_int : Matrix;
  mp_primary_to_mortar_avg : Matrix;
  mp_secondary_to_mortar_int : Matrix;
  mp_secondary_to_mortar_avg : Matrix;
  mp_sign_of_mortar_sides : Matrix
}.

Definition MortarProjections_init (grids : option (list Grid)) (gb : option GridBucket)
    (edges : option (list edge)) (nd : nat) : result MortarProjections :=
  grids ← _grid_list grids gb;
  edges ←
    match edges with
    | Some edges => Ok edges
    | None =>
        match gb with
        | Some gb => Ok (fst <$> gb_edges gb)
        | None => Raise (AttributeError "edges")
        end
    end;
  proj ← _subgrid_projections grids nd;
  blocks ← for_each (mortar_step gb proj nd) no_blocks edges;
  a1 ← bmat_row (b_mortar_to_primary_int blocks);
  a2 ← bmat_row (b_mortar_to_primary_avg blocks);
  a3 ← bmat_row (b_mortar_to_secondary_int blocks);
  a4 ← bmat_row (b_mortar_to_secondary_avg blocks);
  a5 ← bmat_col (b_primary_to_mortar_int blocks);
  a6 ← bmat_col (b_primary_to_mortar_avg blocks);
  a7 ← bmat_col (b_secondary_to_mortar_int blocks);
  a8 ← bmat_col (b_secondary_to_mortar_avg blocks);
  mats ← traverse (λ e, mg ← mortar_grid_of gb e; Ok (sign_of_mortar_sides mg nd)) edges;
  s ← block_diag mats;
  Ok {| mp_num_edges := length edges; mp_nd := nd;
        mp_mortar_to_primary_int := AdMatrix (tocsr a1);
        mp_mortar_to_primary_avg := AdMatrix (tocsr a2);
        mp_mortar_to_secondary_int := AdMatrix (tocsr a3);
        mp_mortar_to_secondary_avg := AdMatrix (tocsr a4);
        mp_primary_to_mortar_int := AdMatrix (tocsr a5);
        mp_primary_to_mortar_avg := AdMatrix (tocsr a6);
        mp_secondary_to_mortar_int := AdMatrix (tocsr a7);
        mp_secondary_to_mortar_avg := AdMatrix (tocsr a8);
        mp_sign_of_mortar_sides := AdMatrix s |}.

End GridOperators.


(** ** porepy/numerics/ad/grid_operators.py: Trace and Divergence *)

Module GridOperatorsMerged.
Import GridOperators.

Section fvutils.

(** [pp.fvutils.scalar_divergence] and [pp.fvutils.vector_divergence] are
    defined outside this module; the operators are built for any two such
    functions from grids to sparse matrices. *)
Variable scalar_divergence : Grid → spmatrix.
Variable vector_divergence : Grid → spmatrix.

(** *** Trace *)

Record Trace := {
  tr_nd : nat;
  tr_is_scalar : bool;
  tr_num_grids : nat;
  trace : Matrix;
  inv_trace : Matrix
}.

(** The body of the loop over the grids, lines 383 to 397: the two lists
    [trace] and [inv_trace] grow by one block each. *)
Definition trace_step (proj : projections) (is_scalar : bool)
    (acc : list spmatrix * list spmatrix) (g : Grid)
  : result (list spmatrix * list spmatrix) :=
  if is_scalar then
    let div := map_data Z.abs (scalar_divergence g) in
    cp ← dict_get (cell_projection proj) g;
    t ← matmul (transpose div) (transpose cp);
    fp ← dict_get (face_projection proj) g;
    it ← matmul div (transpose fp);
    Ok (acc.1 ++ [t], acc.2 ++ [it])
  else Raise NotImplementedError.

Definition Trace_init (grids : option (list Grid)) (gb : option GridBucket) (nd : nat)
  : result Trace :=
  grids ← _grid_list grids gb;
  proj ← _subgrid_projections grids nd;
  blocks ← for_each (trace_step proj (nd =? 1)%nat) ([], []) grids;
  t ← bmat_col blocks.1;
  it ← bmat_col blocks.2;
  Ok {| tr_nd := nd; tr_is_scalar := (nd =? 1)%nat; tr_num_grids := length grids;
        trace := AdMatrix (tocsr t); inv_trace := AdMatrix (tocsr it) |}.

(** *** Divergence *)

Record Divergence := {
  dv_g : list Grid;
  dv_scalar : bool
}.

Definition Divergence_init (grids : option (list Grid)) (gb : option GridBucket)
    (is_scalar : bool) : result Divergence :=
  g ← _grid_list grids gb;
  Ok {| dv_g := g; dv_scalar := is_scalar |}.

(** [parse]: the bucket argument is not used. *)
Definition Divergence_parse (self : Divergence) : result spmatrix :=
  let mat :=
    if dv_scalar self then scalar_divergence <$> dv_g self
    else vector_divergence <$> dv_g self in
  block_diag mat.

End fvutils.

(** *** BoundaryCondition *)

Section boundary.

(** The type of the boundary values. *)
Context {A : Type}.

(** The data dictionary of a node: [data[pp.PARAMETERS][keyword][name]]. *)
Definition node_data : Type := gmap string (gmap string (gmap string (list A))).

(** [pp.PARAMETERS], a string constant defined outside this module, and
    [gb.node_props], the data dictionary of each node of the bucket. *)
Variable PARAMETERS : string.
Variable node_props : Grid → result node_data.

(** [d[key]] on a dictionary with string keys. *)
Definition item {V} (d : gmap string V) (key : string) : result V :=
  match d !! key with
  | Some v => Ok v
  | None => Raise KeyError
  end.

(** [np.hstack] on one-dimensional arrays. *)
Definition hstack (arrays : list (list A)) : result (list A) :=
  match arrays with
  | [] => Raise ValueError
  | _ => Ok (concat arrays)
  end.

Record BoundaryCondition := {
  bc_keyword : string;
  bc_g : list Grid
}.

Definition BoundaryCondition_init (keyword : string) (grids : option (list Grid))
    (gb : option GridBucket) : result BoundaryCondition :=
  g ← _grid_list grids gb;
  Ok {| bc_keyword := keyword; bc_g := g |}.

(** The body of the loop of [parse], lines 551 and 552. *)
Definition bc_values (self : BoundaryCondition) (g : Grid) : result (list A) :=
  data ← node_props g;
  parameters ← item data PARAMETERS;
  of_keyword ← item parameters (bc_keyword self);
  item of_keyword "bc_values".

Definition BoundaryCondition_parse (self : BoundaryCondition) : result (list A) :=
  val ← traverse (bc_values self) (bc_g self);
  hstack val.

End boundary.

End GridOperatorsMerged.
(** * Statements about grids/partition.py: auxiliary definitions *)

Module PartitionSpec.
Import Partition.

(** Four cells in a row: five faces, cell [i] lies between the faces [i] and
    [i + 1].  The cell adjacency graph is a simple path. *)
Definition path4 : Grid :=
  {| cell_faces :=
       SpMatrix 5 4
         [(0%nat, 0%nat, -1); (1%nat, 0%nat, 1); (1%nat, 1%nat, -1); (2%nat, 1%nat, 1);
          (2%nat, 2%nat, -1); (3%nat, 2%nat, 1); (3%nat, 3%nat, -1); (4%nat, 3%nat, 1)];
     dim := 1;
     cart_dims := [4] |}.

(** The number of dimensions not yet found. *)
Definition unresolved (found : list bool) : nat := length (List.filter negb found).

(** The invariant of the while loop: one flag per dimension, and every entry
    of the optimum lies between 1 and the fine extent. *)
Definition coarse_inv (fine_size : list Z) (st : loop_state) : Prop :=
  length (found st) = length fine_size ∧
  Forall2 (λ o f, 1 ≤ o ≤ f) (optimum st) fine_size.

(** Each iteration so far has resolved at least one dimension. *)
Definition progress_inv (fine_size : list Z) (st : loop_state) : Prop :=
  (it_counter st + unresolved (found st) ≤ length fine_size)%nat.

(** [s_num] gives the floor and the ceiling of a positive float: whenever
    the target and the product of the optimum are at least one and some
    dimension is unresolved, the floor is not above the ceiling and the
    ceiling is at least one. *)
Definition rounds_positive_root (s_num : Z → Z → nat → Z * Z) : Prop :=
  ∀ T D k, 1 ≤ T → 1 ≤ D → (1 ≤ k)%nat →
    (s_num T D k).1 ≤ (s_num T D k).2 ∧ 1 ≤ (s_num T D k).2.

(** The test of line 195 in one dimension: the ceiling candidate of an
    unresolved dimension equals the fine extent [f]. *)
Definition hit_at (f h : Z) (b : bool) : bool := (Z.min f h =? f) && negb b.

(** The two rows of [coarse_size]. *)
Definition coarse_rows (c : ceiling_step) : list Z * list Z :=
  (assign_mask (cs_s_low c) (cs_optimum c) (cs_found c),
   assign_mask (cs_s_high c) (cs_optimum c) (cs_found c)).

(** The combination selected by [perm] from the candidate pairs. *)
Definition pick (cands : list (Z * Z)) (perm : list nat) : list Z :=
  zip_with (λ (bit : nat) (c : Z * Z), if (bit =? 0)%nat then c.1 else c.2) perm cands.

(** The two values that each dimension may take in the combination search,
    when the floor of the root is [s_floor] and its ceiling is [s_ceil]: a
    dimension resolved in an earlier iteration keeps its optimum; a dimension
    whose fine extent does not exceed the ceiling is resolved to its fine
    extent; every other dimension takes the floor, or one if the floor is
    less, or else the ceiling. *)
Definition choices (s_floor s_ceil : Z) (fine_size : list Z) (st : loop_state)
  : list (Z * Z) :=
  zip_with
    (λ (f : Z) (ob : Z * bool),
       if ob.2 then (ob.1, ob.1)
       else if f <=? s_ceil then (f, f)
       else (Z.max 1 s_floor, s_ceil))
    fine_size (zip (optimum st) (found st)).

(** [r] is the value of the first element of [items] at the least distance
    from [target]. *)
Definition first_closest {A} (target : Z) (value : A → list Z) (items : list A)
    (r : list Z) : Prop :=
  ∃ pre p post,
    items = pre ++ p :: post ∧ r = value p ∧
    (∀ q, q ∈ pre → Z.abs (target - prod (value p)) < Z.abs (target - prod (value q))) ∧
    (∀ q, q ∈ post → Z.abs (target - prod (value p)) ≤ Z.abs (target - prod (value q))).

(** A candidate pair offers a choice when its two values differ. *)
Definition is_free (c : Z * Z) : bool := negb (c.1 =? c.2).

(** The number of dimensions in which [perm] takes the upper candidate of a
    pair that offers a choice. *)
Fixpoint ups (cands : list (Z * Z)) (perm : list nat) : nat :=
  match cands, perm with
  | c :: cands', bit :: perm' =>
      ((if negb (bit =? 0)%nat && is_free c then 1 else 0) + ups cands' perm')%nat
  | _, _ => 0%nat
  end.

(** The number of pairs that offer a choice, and the product of the others. *)
Definition free_count (cands : list (Z * Z)) : nat := length (List.filter is_free cands).

Definition fixed_prod (cands : list (Z * Z)) : Z :=
  prod (fst <$> List.filter (λ c, negb (is_free c)) cands).

(** Every pair that offers a choice is the pair [(l, h)]. *)
Definition uniform (l h : Z) (cands : list (Z * Z)) : Prop :=
  Forall (λ c, 1 ≤ c.1 ∧ (c.1 = c.2 ∨ (c.1 = l ∧ c.2 = h))) cands.

End PartitionSpec.

(** * Statements about grid_operators.py: auxiliary definitions *)

Module GridOperatorsSpec.
Import GridOperators.

(** The embedding of [sz] local indices at offset [o] into [tot] global ones. *)
Definition embedding (o sz tot : nat) : spmatrix :=
  SpMatrix tot sz ((λ j, ((o + j)%nat, j, 1)) <$> seq 0 sz).

(** The identity matrix of size [sz], as stored entries. *)
Definition identity (sz : nat) : spmatrix :=
  SpMatrix sz sz ((λ j, (j, j, 1)) <$> seq 0 sz).

(** The local sizes of a grid, and the amount by which the loop advances the
    face offset. *)
Definition cell_size (nd : nat) (g : Grid) : nat := (num_cells g * nd)%nat.
Definition face_size (nd : nat) (g : Grid) : nat := (num_faces g * nd)%nat.
Definition face_advance (nd : nat) (g : Grid) : nat :=
  if (0 <? dim g)%nat then face_size nd g else 0%nat.

(** The state after one iteration that does not raise. *)
Definition stepped (nd tot_num_faces tot_num_cells : nat)
    (st : projections * offsets) (g : Grid) : projections * offsets :=
  (Projections
     (<[g := embedding (cell_offset st.2) (cell_size nd g) tot_num_cells]>
        (cell_projection st.1))
     (<[g := embedding (face_offset st.2) (face_size nd g) tot_num_faces]>
        (face_projection st.1)),
   Offsets (face_offset st.2 + face_advance nd g) (cell_offset st.2 + cell_size nd g)).

(** Every key of the dictionaries holds an embedding of the right size. *)
Definition embeddings_of (sz : Grid → nat) (tot : nat) (d : gmap Grid spmatrix) : Prop :=
  ∀ g M, d !! g = Some M → ∃ o, M = embedding o (sz g) tot.

(** The offsets at which a loop that starts at [o] and advances by [adv]
    places the grids of [l]. *)
Fixpoint layout (adv : Grid → nat) (o : nat) (l : list Grid) : list (Grid * nat) :=
  match l with
  | [] => []
  | g :: l' => (g, o) :: layout adv (o + adv g) l'
  end.

(** The dictionary after the assignments [d[g] = embedding] of a layout. *)
Definition place (tot : nat) (sz : Grid → nat) (d : gmap Grid spmatrix)
    (lay : list (Grid * nat)) : gmap Grid spmatrix :=
  foldl (λ d p, <[p.1 := embedding p.2 (sz p.1) tot]> d) d lay.

(** The embeddings of [d] cover the rows [0 .. tot - 1] exactly once: each has
    [tot] rows, and every row holds exactly one non-zero entry over all of
    them, with value one. *)
Definition covers (d : gmap Grid spmatrix) (tot : nat) : Prop :=
  (∀ g M, d !! g = Some M → nrows M = tot) ∧
  ∀ r, (r < tot)%nat →
    ∃ g M c, d !! g = Some M ∧ (c < ncols M)%nat ∧ entry M r c = 1 ∧
      ∀ g' M' c', d !! g' = Some M' → entry M' r c' ≠ 0 → g' = g ∧ c' = c.

(** A grid with at least one cell and, when its dimension is positive, at
    least one face. *)
Definition populated (g : Grid) : Prop :=
  (1 ≤ num_cells g)%nat ∧ ((0 < dim g)%nat → (1 ≤ num_faces g)%nat).

(** Point grids have no faces. *)
Definition faceless_points (grids : list Grid) : Prop :=
  Forall (λ g, dim g = 0%nat → num_faces g = 0%nat) grids.

(** The embeddings that [_subgrid_projections] builds cover the global cell
    range and the global face range exactly once. *)
Definition covered_once (grids : list Grid) (nd : nat) : Prop :=
  ∀ proj,
    _subgrid_projections grids nd = Ok proj →
    covers (cell_projection proj) (sum_nat (num_cells <$> grids) * nd) ∧
    covers (face_projection proj) (sum_nat (num_faces <$> grids) * nd).

(** A grid of dimension one with one cell and two faces. *)
Definition segment : Grid := MkGrid 0 1 1 2.

(** A point grid: one cell, no faces. *)
Definition point : Grid := MkGrid 2 0 1 0.

(** The list of edges the constructor loops over, lines 220 and 221. *)
Definition edge_list_of (edges : option (list edge)) (gb : option GridBucket)
  : result (list edge) :=
  match edges with
  | Some edges => Ok edges
  | None =>
      match gb with
      | Some gb => Ok (fst <$> gb_edges gb)
      | None => Raise (AttributeError "edges")
      end
  end.

(** The computation does not end in [NotImplementedError]. *)
Definition implemented {A} (r : result A) : Prop := r ≠ Raise NotImplementedError.

(** A mortar grid of dimension [d] whose projections are empty matrices. *)
Definition bare_mortar (d : nat) : MortarGrid :=
  let z := λ _ : nat, SpMatrix 0 0 [] in
  Build_MortarGrid d z z z z z z z z z.

(** C3 as stated: a non-standard triple always ends the construction in
    [NotImplementedError]. *)
Definition dimension_check_as_stated (grids : option (list Grid))
    (gb : option GridBucket) (edges : option (list edge)) (nd : nat) : Prop :=
  ∀ edge_list e mg,
    edge_list_of edges gb = Ok edge_list → e ∈ edge_list →
    mortar_grid_of gb e = Ok mg → non_standard e mg = true →
    MortarProjections_init grids gb edges nd = Raise NotImplementedError.

(** A grid of dimension two with four cells and twelve faces. *)
Definition plane : Grid := MkGrid 3 2 4 12.

(** A standard edge between [plane] and [segment], and a non-standard one in
    which the two grids are exchanged. *)
Definition standard_edge : edge := (plane, segment).
Definition exchanged_edge : edge := (segment, plane).

(** A grid bucket with both edges; each carries a mortar grid of dimension 1. *)
Definition bucket : GridBucket :=
  {| gb_nodes := [plane; segment];
     gb_edges := [(standard_edge, bare_mortar 1); (exchanged_edge, bare_mortar 1)] |}.

End GridOperatorsSpec.


(** * Further statements about grids/partition.py: auxiliary definitions *)

Module PartitionExtraSpec.
Import Partition.

(** The number of groups that the loop of [partition_structured] forms along
    a dimension with [f] fine cells, [c] requested coarse cells and a stride
    of [step] fine cells: one boundary every [step] cells, the last one
    dropped when there are more than [c]. *)
Definition group_count (f step c : Z) : Z :=
  let n := - ((- f) `div` step) in
  if c <? n then n - 1 else n.

(** The group of the fine cell [j]: a new group every [step] cells, and the
    last group takes all the cells that remain. *)
Definition group_label (f step c j : Z) : Z :=
  Z.min (j `div` step) (group_count f step c - 1).

(** The cells [0 .. f - 1] along one dimension. *)
Definition cells (f : Z) : list Z := Z.of_nat <$> seq 0 (Z.to_nat f).

(** All entries of the vector are one. *)
Definition all_ones (a : list Z) : Prop := Forall (λ x, x = 1) a.

(** The number of boundaries below the cell [j]. *)
Definition boundaries_below (step n' : Z) (j : nat) : Z :=
  match j with
  | O => 0
  | S j' => Z.min (Z.of_nat j' `div` step) (n' - 1) + 1
  end.

(** Every dimension that has been found holds [n] coarse cells, every other
    dimension still holds one. *)
Definition settled (n : Z) (st : loop_state) : Prop :=
  Forall2 (λ (o : Z) (b : bool), o = if b then n else 1) (optimum st) (found st).

(** The roots of a perfect power come out exactly: when [c] of the [nd]
    dimensions hold [n] cells and [k >= 1] dimensions remain, the floor and
    the ceiling of the root of order [k] of [n ^ nd / n ^ c] are both [n]. *)
Definition exact_at_power (s_num : Z → Z → nat → Z * Z) (n : Z) (nd : nat) : Prop :=
  ∀ c k, (c + k = nd)%nat → (1 ≤ k)%nat →
    s_num (n ^ Z.of_nat nd) (n ^ Z.of_nat c) k = (n, n).

(** A rounding as floating point arithmetic may give it: the fifth root of
    7776 comes out just above 6, so its floor is 6 and its ceiling is 7; every
    other root is exact. *)
Definition root_7776_above (T D : Z) (k : nat) : Z * Z :=
  if (T =? 7776) && (D =? 1) && (k =? 5)%nat then (6, 7) else exact_root T D k.

End PartitionExtraSpec.

(** * Further statements about grid_operators.py: auxiliary definitions *)

Module GridOperatorsExtraSpec.
Import GridOperators GridOperatorsSpec.

(** The index arrays of the grid are not empty where the loop of
    [_subgrid_projections] reads their last entry: the cell indices always,
    the face indices when the dimension is positive. *)
Definition indexable (nd : nat) (g : Grid) : Prop :=
  (1 ≤ cell_size nd g)%nat ∧ ((0 < dim g)%nat → (1 ≤ face_size nd g)%nat).

#[export] Instance indexable_dec nd g : Decision (indexable nd g).
Proof. unfold indexable. apply _. Defined.

(** A selection matrix with [n] columns: column [c] holds a single one, in
    row [sel c]. *)
Definition selection (sel : nat → nat) (tot n : nat) : spmatrix :=
  SpMatrix tot n ((λ c, (sel c, c, 1)) <$> seq 0 n).

(** Blocks given by their offset and size, stacked one after the other: the
    global index that belongs to the stacked local index [c]. *)
Fixpoint stacked (blocks : list (nat * nat)) (c : nat) : nat :=
  match blocks with
  | [] => 0%nat
  | (o, sz) :: rest => if (c <? sz)%nat then (o + c)%nat else stacked rest (c - sz)
  end.

(** No global index belongs to two of the blocks. *)
Fixpoint separated (blocks : list (nat * nat)) : Prop :=
  match blocks with
  | [] => True
  | (o, sz) :: rest =>
      Forall (λ p, ∀ r, ¬ ((o ≤ r < o + sz)%nat ∧ (p.1 ≤ r < p.1 + p.2)%nat)) rest ∧
      separated rest
  end.

(** The stored entries of the matrix lie inside its shape. *)
Definition in_shape (M : spmatrix) : Prop :=
  Forall (λ t, (t_row t < nrows M)%nat ∧ (t_col t < ncols M)%nat) (triples M).

(** The divergence matrix of a grid has one row for each cell and one column
    for each face. *)
Definition cells_by_faces (div : Grid → spmatrix) (g : Grid) : Prop :=
  nrows (div g) = num_cells g ∧ ncols (div g) = num_faces g.

(** The projections of the mortar grid of an edge fit the grids of the edge:
    those to and from the primary grid its faces, those to and from the
    secondary grid its cells. *)
Definition fits (nd : nat) (e : edge) (mg : MortarGrid) : Prop :=
  nrows (mortar_to_primary_int mg nd) = face_size nd e.1 ∧
  nrows (mortar_to_primary_avg mg nd) = face_size nd e.1 ∧
  ncols (primary_to_mortar_int mg nd) = face_size nd e.1 ∧
  ncols (primary_to_mortar_avg mg nd) = face_size nd e.1 ∧
  nrows (mortar_to_secondary_int mg nd) = cell_size nd e.2 ∧
  nrows (mortar_to_secondary_avg mg nd) = cell_size nd e.2 ∧
  ncols (secondary_to_mortar_int mg nd) = cell_size nd e.2 ∧
  ncols (secondary_to_mortar_avg mg nd) = cell_size nd e.2.

(** An edge the constructor of [MortarProjections] can handle: it has a mortar
    grid, the dimensions are the standard ones, both grids belong to the grid
    sequence, and the projections fit. *)
Definition admissible (gb : option GridBucket) (grid_list : list Grid) (nd : nat)
    (e : edge) : Prop :=
  ∃ mg, mortar_grid_of gb e = Ok mg ∧ non_standard e mg = false ∧
        e.1 ∈ grid_list ∧ e.2 ∈ grid_list ∧ fits nd e mg.

(** Each of the eight lists holds [n] blocks; the blocks towards the primary
    grids have [tf] rows, those from them [tf] columns, and likewise [tc] for
    the secondary grids. *)
Definition blocks_shaped (tf tc n : nat) (b : mortar_blocks) : Prop :=
  (length (b_mortar_to_primary_int b) = n ∧
   Forall (λ B, nrows B = tf) (b_mortar_to_primary_int b)) ∧
  (length (b_mortar_to_primary_avg b) = n ∧
   Forall (λ B, nrows B = tf) (b_mortar_to_primary_avg b)) ∧
  (length (b_primary_to_mortar_int b) = n ∧
   Forall (λ B, ncols B = tf) (b_primary_to_mortar_int b)) ∧
  (length (b_primary_to_mortar_avg b) = n ∧
   Forall (λ B, ncols B = tf) (b_primary_to_mortar_avg b)) ∧
  (length (b_mortar_to_secondary_int b) = n ∧
   Forall (λ B, nrows B = tc) (b_mortar_to_secondary_int b)) ∧
  (length (b_mortar_to_secondary_avg b) = n ∧
   Forall (λ B, nrows B = tc) (b_mortar_to_secondary_avg b)) ∧
  (length (b_secondary_to_mortar_int b) = n ∧
   Forall (λ B, ncols B = tc) (b_secondary_to_mortar_int b)) ∧
  (length (b_secondary_to_mortar_avg b) = n ∧
   Forall (λ B, ncols B = tc) (b_secondary_to_mortar_avg b)).

(** A mortar grid of dimension 1 with [nd] mortar indices, whose projections
    fit the twelve faces of [plane] and the cell of [segment]; no entries are
    stored. *)
Definition fitted_mortar : MortarGrid :=
  {| mg_dim := 1;
     mortar_to_primary_int := λ nd, SpMatrix (12 * nd) nd [];
     mortar_to_primary_avg := λ nd, SpMatrix (12 * nd) nd [];
     primary_to_mortar_int := λ nd, SpMatrix nd (12 * nd) [];
     primary_to_mortar_avg := λ nd, SpMatrix nd (12 * nd) [];
     mortar_to_secondary_int := λ nd, SpMatrix (1 * nd) nd [];
     mortar_to_secondary_avg := λ nd, SpMatrix (1 * nd) nd [];
     secondary_to_mortar_int := λ nd, SpMatrix nd (1 * nd) [];
     secondary_to_mortar_avg := λ nd, SpMatrix nd (1 * nd) [];
     sign_of_mortar_sides := λ nd, SpMatrix nd nd [] |}.

(** A bucket with [plane], [segment] and the standard edge between them. *)
Definition fitted_bucket : GridBucket :=
  {| gb_nodes := [plane; segment];
     gb_edges := [(standard_edge, fitted_mortar)] |}.

(** A mortar grid of dimension 1 with two mortar cells between [plane] and
    [segment]: the mortar cells meet the faces 3 and 7 of [plane] and the
    cell of [segment]; each of the eight projections stores a value of its
    own. *)
Definition plane_segment_mortar : MortarGrid :=
  {| mg_dim := 1;
     mortar_to_primary_int :=
       λ nd, SpMatrix (12 * nd) (2 * nd) [(3%nat, 0%nat, 1); (7%nat, 1%nat, 1)];
     mortar_to_primary_avg :=
       λ nd, SpMatrix (12 * nd) (2 * nd) [(3%nat, 0%nat, 2); (7%nat, 1%nat, 2)];
     primary_to_mortar_int :=
       λ nd, SpMatrix (2 * nd) (12 * nd) [(0%nat, 3%nat, 3); (1%nat, 7%nat, 3)];
     primary_to_mortar_avg :=
       λ nd, SpMatrix (2 * nd) (12 * nd) [(0%nat, 3%nat, 4); (1%nat, 7%nat, 4)];
     mortar_to_secondary_int :=
       λ nd, SpMatrix (1 * nd) (2 * nd) [(0%nat, 0%nat, 5); (0%nat, 1%nat, 5)];
     mortar_to_secondary_avg :=
       λ nd, SpMatrix (1 * nd) (2 * nd) [(0%nat, 0%nat, 6); (0%nat, 1%nat, 6)];
     secondary_to_mortar_int :=
       λ nd, SpMatrix (2 * nd) (1 * nd) [(0%nat, 0%nat, 7); (1%nat, 0%nat, 7)];
     secondary_to_mortar_avg :=
       λ nd, SpMatrix (2 * nd) (1 * nd) [(0%nat, 0%nat, 8); (1%nat, 0%nat, 8)];
     sign_of_mortar_sides :=
       λ nd, SpMatrix (2 * nd) (2 * nd) [(0%nat, 0%nat, 1); (1%nat, 1%nat, -1)] |}.

(** A mortar grid of dimension 0 with one mortar cell between [segment] and
    [point]: the mortar cell meets the face 1 of [segment] and the cell of
    [point]. *)
Definition segment_point_mortar : MortarGrid :=
  {| mg_dim := 0;
     mortar_to_primary_int := λ nd, SpMatrix (2 * nd) (1 * nd) [(1%nat, 0%nat, 11)];
     mortar_to_primary_avg := λ nd, SpMatrix (2 * nd) (1 * nd) [(1%nat, 0%nat, 12)];
     primary_to_mortar_int := λ nd, SpMatrix (1 * nd) (2 * nd) [(0%nat, 1%nat, 13)];
     primary_to_mortar_avg := λ nd, SpMatrix (1 * nd) (2 * nd) [(0%nat, 1%nat, 14)];
     mortar_to_secondary_int := λ nd, SpMatrix (1 * nd) (1 * nd) [(0%nat, 0%nat, 15)];
     mortar_to_secondary_avg := λ nd, SpMatrix (1 * nd) (1 * nd) [(0%nat, 0%nat, 16)];
     secondary_to_mortar_int := λ nd, SpMatrix (1 * nd) (1 * nd) [(0%nat, 0%nat, 17)];
     secondary_to_mortar_avg := λ nd, SpMatrix (1 * nd) (1 * nd) [(0%nat, 0%nat, 18)];
     sign_of_mortar_sides := λ nd, SpMatrix (1 * nd) (1 * nd) [(0%nat, 0%nat, 1)] |}.

(** A bucket with [plane], [segment] and [point], and the two edges between
    them in this order. *)
Definition chain_bucket : GridBucket :=
  {| gb_nodes := [plane; segment; point];
     gb_edges := [((plane, segment), plane_segment_mortar);
                  ((segment, point), segment_point_mortar)] |}.

(** A divergence with one row per cell and one column per face: the two
    faces of [segment] enter with opposite signs, the other grids store
    nothing. *)
Definition signed_divergence (g : Grid) : spmatrix :=
  SpMatrix (num_cells g) (num_faces g)
    (if decide (g = segment) then [(0%nat, 0%nat, -1); (0%nat, 1%nat, 1)] else []).

(** Boundary values that tell the faces apart: face [f] of the grid with
    identity [i] holds [100 * i + f]. *)
Definition numbered_values (g : Grid) : list Z :=
  (λ f, 100 * Z.of_nat (gid g) + Z.of_nat f) <$> seq 0 (num_faces g).

(** Node data with these values under the keyword [flow]. *)
Definition numbered_flow (g : Grid)
  : result (gmap string (gmap string (gmap string (list Z)))) :=
  Ok {[ "parameters" := {[ "flow" := {[ "bc_values" := numbered_values g ]} ]} ]}.

(** The matrix that [matmul] returns when the shapes fit. *)
Definition product (A B : spmatrix) : spmatrix :=
  SpMatrix (nrows A) (ncols B) (i ← seq 0 (nrows A); k ← seq 0 (ncols B); cell A B i k).

#[export] Instance spmatrix_inhabited : Inhabited spmatrix := populate (SpMatrix 0 0 []).

(** The blocks that the loop of [Trace] appends for a grid. *)
Definition trace_block (div : Grid → spmatrix) (proj : projections) (g : Grid) : spmatrix :=
  product (transpose (map_data Z.abs (div g))) (transpose (cell_projection proj !!! g)).
Definition inv_trace_block (div : Grid → spmatrix) (proj : projections) (g : Grid)
  : spmatrix :=
  product (map_data Z.abs (div g)) (transpose (face_projection proj !!! g)).

(** The mortar grid of an edge, when the bucket holds one. *)
Definition mg_of (gb : option GridBucket) (e : edge) : MortarGrid :=
  match mortar_grid_of gb e with
  | Ok mg => mg
  | Raise _ => bare_mortar 0
  end.

(** The block that the loop of [MortarProjections] appends for an edge: a
    projection [X] from the mortar grid, prolonged by the embedding of the
    grid on one side of the edge, or a projection onto the mortar grid after
    the restriction to that grid. *)
Definition from_block (d : gmap Grid spmatrix) (side : edge → Grid)
    (X : MortarGrid → nat → spmatrix) (gb : option GridBucket) (nd : nat) (e : edge)
  : spmatrix :=
  product (d !!! side e) (X (mg_of gb e) nd).
Definition to_block (d : gmap Grid spmatrix) (side : edge → Grid)
    (X : MortarGrid → nat → spmatrix) (gb : option GridBucket) (nd : nat) (e : edge)
  : spmatrix :=
  product (X (mg_of gb e) nd) (transpose (d !!! side e)).

(** The number of mortar columns (or rows) that the edges before position
    [i] take up in the stacked matrix of the projection [X]. *)
Definition mortar_offset (size : spmatrix → nat) (X : MortarGrid → nat → spmatrix)
    (gb : option GridBucket) (nd : nat) (edges : list edge) (i : nat) : nat :=
  sum_nat ((λ e, size (X (mg_of gb e) nd)) <$> take i edges).

(** [M] holds the projections [X] from the mortar grids of the edges, each
    in its own block of columns and in the rows of the grid on one side of
    its edge: if [R] is the global index of the local index [f] of a grid
    [g], as [prolong] places it, the entry in row [R] and in column [j] of
    the block of the edge at position [i] is the entry [(f, j)] of the
    projection when [g] is the grid of the edge, and zero otherwise. *)
Definition from_mortar_laid_out (gb : option GridBucket) (nd : nat)
    (prolong : grids_arg → result Matrix) (side : edge → Grid)
    (X : MortarGrid → nat → spmatrix) (edges : list edge) (M : spmatrix) : Prop :=
  ∀ i e g P R f j,
    edges !! i = Some e →
    prolong (OneGrid g) = Ok P → entry (mat P) R f = 1 →
    (j < ncols (X (mg_of gb e) nd))%nat →
    entry M R (mortar_offset ncols X gb nd edges i + j)
    = if decide (g = side e) then entry (X (mg_of gb e) nd) f j else 0.

(** The same for the projections onto the mortar grids, with rows and
    columns exchanged. *)
Definition to_mortar_laid_out (gb : option GridBucket) (nd : nat)
    (prolong : grids_arg → result Matrix) (side : edge → Grid)
    (X : MortarGrid → nat → spmatrix) (edges : list edge) (M : spmatrix) : Prop :=
  ∀ i e g P R f j,
    edges !! i = Some e →
    prolong (OneGrid g) = Ok P → entry (mat P) R f = 1 →
    (j < nrows (X (mg_of gb e) nd))%nat →
    entry M (mortar_offset nrows X gb nd edges i + j) R
    = if decide (g = side e) then entry (X (mg_of gb e) nd) j f else 0.

(** The eight lists of [b] are those of [acc] followed by the blocks of the
    edges [l]. *)
Definition appended (gb : option GridBucket) (proj : projections) (nd : nat)
    (l : list edge) (acc b : mortar_blocks) : Prop :=
  let fp := face_projection proj in
  let cp := cell_projection proj in
  b_mortar_to_primary_int b
    = b_mortar_to_primary_int acc ++ (from_block fp fst mortar_to_primary_int gb nd <$> l) ∧
  b_mortar_to_primary_avg b
    = b_mortar_to_primary_avg acc ++ (from_block fp fst mortar_to_primary_avg gb nd <$> l) ∧
  b_primary_to_mortar_int b
    = b_primary_to_mortar_int acc ++ (to_block fp fst primary_to_mortar_int gb nd <$> l) ∧
  b_primary_to_mortar_avg b
    = b_primary_to_mortar_avg acc ++ (to_block fp fst primary_to_mortar_avg gb nd <$> l) ∧
  b_mortar_to_secondary_int b
    = b_mortar_to_secondary_int acc
      ++ (from_block cp snd mortar_to_secondary_int gb nd <$> l) ∧
  b_mortar_to_secondary_avg b
    = b_mortar_to_secondary_avg acc
      ++ (from_block cp snd mortar_to_secondary_avg gb nd <$> l) ∧
  b_secondary_to_mortar_int b
    = b_secondary_to_mortar_int acc ++ (to_block cp snd secondary_to_mortar_int gb nd <$> l) ∧
  b_secondary_to_mortar_avg b
    = b_secondary_to_mortar_avg acc ++ (to_block cp snd secondary_to_mortar_avg gb nd <$> l).

End GridOperatorsExtraSpec.
(** * Properties of grids/partition.py *)

Module PartitionProofs.
Import Partition PartitionSpec.

(** ** partition_metis *)

(** Line 41 reads the name [cell_faces]; line 38 has bound [cell_face], and
    neither the module nor the builtins know the name. *)
Lemma load_cell_faces_fails (g : Grid) (num_part : Z) :
  load_name
    (<["cell_face" := PyMatrix (copy (cell_faces g))]>
       ({["g" := PyGrid g; "num_part" := PyInt num_part]} : gmap string pyobj))
    "cell_faces" = Raise (NameError "cell_faces").
Proof.
  unfold load_name.
  rewrite lookup_insert_ne by done.
  rewrite lookup_insert_ne by done.
  rewrite lookup_singleton_ne by done.
  reflexivity.
Qed.

(** C10: for every grid and every number of parts, [partition_metis] raises
    [NameError] for the name [cell_faces], which line 38 never binds (it binds
    [cell_face]); the partitioner has not been called at that point, so no
    call returns a partition vector. *)
Theorem partition_metis_raises_NameError part_graph getrow_indices g num_part :
  partition_metis part_graph getrow_indices g num_part
    = ([], Raise (NameError "cell_faces")).
Proof.
  unfold partition_metis. by rewrite load_cell_faces_fails.
Qed.

(** C4, at the path of four cells with two parts requested: the call raises
    [NameError] and never reaches the partitioner; and the lines that would
    call it ask for 10 parts, not for [num_part]: on the path of four cells
    they make one call, for 10 parts where 2 were requested, and for every
    matrix bound to [cell_faces] every call they make asks for 10 parts. *)
Theorem partition_metis_path4 part_graph getrow_indices :
  partition_metis part_graph getrow_indices path4 2
    = ([], Raise (NameError "cell_faces")) ∧
  fst <$> (partition_metis_from_line_41 part_graph getrow_indices (cell_faces path4)).1
    = [10] ∧
  ∀ M, Forall (λ call : oracle_call, call.1 = 10)
         (partition_metis_from_line_41 part_graph getrow_indices M).1.
Proof.
  split; [| split; [reflexivity |]].
  - unfold partition_metis. by rewrite load_cell_faces_fails.
  - intros M. unfold partition_metis_from_line_41.
    destruct (matmul _ _); cbn [fst]; repeat constructor.
Qed.

(** ** partition_structured *)

(** C7: with neither argument the call raises [ValueError].  With only
    [num_part] given it does not derive coarse dimensions: line 94 divides by
    [coarse_dims], which is [None], the call raises [TypeError], and
    [determine_coarse_dimensions] is never consulted. *)
Theorem partition_structured_without_coarse_dims g :
  partition_structured g None None = Raise ValueError ∧
  ∀ num_part, partition_structured g None (Some num_part) = Raise TypeError.
Proof. split; [reflexivity | intros; reflexivity]. Qed.

(** C9: for fine extents [4, 4] and coarse extents [2, 2] the 16 cells get the
    labels [x // 2 + (y // 2) * 2], where [x] runs fastest; exactly the four
    labels 0..3 occur, each four times. *)
Theorem partition_structured_4x4_by_2x2 cf :
  ∃ labels,
    partition_structured {| cell_faces := cf; dim := 2; cart_dims := [4; 4] |}
      (Some [2; 2]) None = Ok labels ∧
    labels = (y ← seq 0 4; x ← seq 0 4; [Z.of_nat (x / 2) + Z.of_nat (y / 2) * 2]) ∧
    length labels = 16%nat ∧
    (∀ l, l ∈ labels ↔ l ∈ [0; 1; 2; 3]) ∧
    Forall (λ l, count_occ Z.eq_dec labels l = 4%nat) [0; 1; 2; 3].
Proof.
  exists [0; 0; 1; 1; 0; 0; 1; 1; 2; 2; 3; 3; 2; 2; 3; 3].
  split; [reflexivity |].
  split; [reflexivity |]. split; [reflexivity |]. split.
  - intros l. rewrite !elem_of_cons, !elem_of_nil. tauto.
  - repeat constructor.
Qed.

(** ** determine_coarse_dimensions: the restart test *)

(** C6, at target 10 and fine extents [2, 100]: the first iteration resolves
    dimension 0 (and only it), the test of line 203 is nevertheless false, the
    combination search runs in the same iteration on the stale candidates
    [3] and [4], and the function returns [2, 4]. *)
Theorem restart_test_misses_dimension_0 :
  let st0 := LoopState [1; 1] [false; false] 0 in
  let c := resolve_ceiling 10 [2; 100] st0 in
  cs_hit_ceil c = [0%nat] ∧
  cs_optimum c = [2; 1] ∧
  cs_found c = [true; false] ∧
  any_nonzero (cs_hit_ceil c) = false ∧
  loop_body 10 [2; 100] st0 = LoopState [2; 4] [true; true] 1 ∧
  determine_coarse_dimensions 10 [2; 100] = Ok [2; 4].
Proof. repeat split; reflexivity. Qed.


(** ** Arrays and indices *)

Lemma elem_of_argwhere_from n mask i :
  i ∈ argwhere_from n mask ↔ ∃ j, i = (n + j)%nat ∧ mask !! j = Some true.
Proof.
  revert n. induction mask as [|b mask IH]; intros n; simpl.
  - rewrite elem_of_nil. split; [done | intros (j & _ & Hj); done].
  - rewrite elem_of_app, IH. split.
    + intros [Hb | (j & -> & Hj)].
      * destruct b; [|by apply elem_of_nil in Hb].
        apply list_elem_of_singleton in Hb as ->. exists 0%nat. split; [lia | done].
      * exists (S j). split; [lia | done].
    + intros ([|j] & -> & Hj); simpl in Hj.
      * left. injection Hj as ->. rewrite Nat.add_0_r. apply list_elem_of_singleton; done.
      * right. exists j. split; [lia | done].
Qed.

Lemma elem_of_argwhere mask i : i ∈ argwhere mask ↔ mask !! i = Some true.
Proof.
  unfold argwhere. rewrite elem_of_argwhere_from. split.
  - intros (j & -> & Hj). done.
  - intros Hi. exists i. done.
Qed.

Lemma any_nonzero_elem idx : any_nonzero idx = true → ∃ i, i ∈ idx.
Proof.
  destruct idx as [|i idx]; [done |]. intros _. exists i. left.
Qed.

Lemma prod_bounds (c f : list Z) :
  Forall2 (λ x y, 1 ≤ x ≤ y) c f → 1 ≤ prod c ≤ prod f.
Proof.
  induction 1 as [|x y c f Hxy _ IH]; simpl; [lia |]. nia.
Qed.

Lemma all_true_spec a : all_true a = true ↔ Forall (λ b, b = true) a.
Proof.
  unfold all_true. rewrite forallb_forall, Forall_forall.
  split; intros H x Hx; apply H; by apply list_elem_of_In.
Qed.

Lemma assign_mask_lookup {A} (a src : list A) (mask : list bool) i x y (m : bool) :
  a !! i = Some x → src !! i = Some y → mask !! i = Some m →
  assign_mask a src mask !! i = Some (if m then y else x).
Proof.
  intros Ha Hs Hm. unfold assign_mask.
  rewrite lookup_zip_with, Hm. simpl.
  assert (zip a src !! i = Some (x, y)) as -> by by apply lookup_zip_Some.
  done.
Qed.

Lemma assign_mask_length {A} (a src : list A) (mask : list bool) :
  length src = length a → length mask = length a →
  length (assign_mask a src mask) = length a.
Proof.
  intros H1 H2. unfold assign_mask.
  rewrite length_zip_with, length_zip. lia.
Qed.

Lemma multinary_permutations_elem base n p :
  p ∈ multinary_permutations base n →
  length p = n ∧ Forall (λ d, (d < base)%nat) p.
Proof.
  revert p. induction n as [|n IH]; intros p; simpl.
  - intros ->%list_elem_of_singleton. by split.
  - rewrite list_elem_of_bind. intros (rest & Hp & Hrest).
    apply list_elem_of_fmap in Hp as (d & -> & Hd).
    apply IH in Hrest as [Hlen Hall]. split; [simpl; lia |].
    constructor; [| done]. apply elem_of_seq in Hd. lia.
Qed.

Lemma size_now_pick lo hi perm :
  length lo = length perm → length hi = length perm →
  Forall (λ d, (d < 2)%nat) perm →
  size_now [lo; hi] perm = pick (zip lo hi) perm.
Proof.
  intros Hlo Hhi Hbits. apply list_eq. intros i.
  unfold size_now, pick. rewrite list_lookup_imap, lookup_zip_with.
  destruct (perm !! i) as [bit|] eqn:Hp; simpl; [| done].
  pose proof (lookup_lt_Some _ _ _ Hp) as Hi.
  destruct (lookup_lt_is_Some_2 lo i) as [a Ha]; [lia |].
  destruct (lookup_lt_is_Some_2 hi i) as [b Hb]; [lia |].
  assert (zip lo hi !! i = Some (a, b)) as -> by by apply lookup_zip_Some.
  simpl. f_equal.
  rewrite Forall_lookup in Hbits. specialize (Hbits _ _ Hp).
  destruct bit as [|[|bit]]; simpl; [| | lia].
  - by apply list_lookup_total_correct.
  - by apply list_lookup_total_correct.
Qed.

Lemma count_true_le a : (count_true a ≤ length a)%nat.
Proof. unfold count_true. induction a as [|[] a IH]; simpl; lia. Qed.

Lemma count_true_lt a : all_true a = false → (count_true a < length a)%nat.
Proof.
  unfold count_true, all_true. induction a as [|[] a IH]; simpl; [done | |].
  - intros H. apply IH in H. lia.
  - intros _. pose proof (count_true_le a) as H. unfold count_true in H. lia.
Qed.

Lemma unresolved_pos a : all_true a = false → (1 ≤ unresolved a)%nat.
Proof.
  unfold unresolved, all_true. induction a as [|[] a IH]; simpl; [done | done | lia].
Qed.

Lemma unresolved_all_true {A} (a : list A) : unresolved ((λ _, true) <$> a) = 0%nat.
Proof. unfold unresolved. by induction a. Qed.

(** Resolving more dimensions lowers the number of unresolved ones. *)
Lemma unresolved_mono a b :
  Forall2 (λ x y : bool, x = true → y = true) a b →
  (unresolved b ≤ unresolved a)%nat ∧
  ((∃ i, a !! i = Some false ∧ b !! i = Some true) → (unresolved b < unresolved a)%nat).
Proof.
  unfold unresolved. induction 1 as [|x y a b Hxy _ [IH1 IH2]]; simpl.
  - split; [done | intros (i & H & _); done].
  - destruct x, y; simpl; try (specialize (Hxy eq_refl); done).
    + split; [done |]. intros ([|i] & H1 & H2); simpl in *; [done |]. apply IH2. eauto.
    + split; [lia |]. intros _. lia.
    + split; [lia |]. intros ([|i] & H1 & H2); simpl in *; [done |].
      assert ((length (List.filter negb b) < length (List.filter negb a))%nat); [| lia].
      apply IH2. eauto.
Qed.

(** ** The combinations tried by the search *)

Lemma foldl_try_combination_cases target cs perms acc :
  foldl (try_combination target cs) acc perms = acc ∨
  ∃ p, p ∈ perms ∧ (foldl (try_combination target cs) acc perms).2 = size_now cs p.
Proof.
  revert acc. induction perms as [|p perms IH]; intros acc; simpl; [by left |].
  destruct (IH (try_combination target cs acc p)) as [-> | (q & Hq & ->)].
  - unfold try_combination. case_match; [| by left].
    right. exists p. split; [left | done].
  - right. exists q. split; [by right | done].
Qed.

(** ** The candidates of one iteration *)

Section ceiling_from.
Variables (s_floor s_ceil : Z) (fine_size : list Z) (st : loop_state).
Let c := resolve_ceiling_from s_floor s_ceil fine_size st.

Variables (i : nat) (f o : Z) (b : bool).
Hypothesis Hf : fine_size !! i = Some f.
Hypothesis Ho : optimum st !! i = Some o.
Hypothesis Hb : found st !! i = Some b.

Lemma from_s_low_lookup : cs_s_low c !! i = Some (Z.max 1 s_floor).
Proof. subst c; simpl. by rewrite list_lookup_fmap, Hf. Qed.

Lemma from_s_high_lookup : cs_s_high c !! i = Some (Z.min f s_ceil).
Proof. subst c; simpl. by rewrite list_lookup_fmap, Hf. Qed.

Lemma from_hit_ceil_elem : i ∈ cs_hit_ceil c ↔ hit_at f s_ceil b = true.
Proof.
  subst c; simpl. rewrite elem_of_argwhere.
  rewrite !lookup_zip_with, !list_lookup_fmap, Hf, Hb. simpl.
  unfold hit_at. split; congruence.
Qed.

Lemma from_optimum_lookup :
  cs_optimum c !! i = Some (if hit_at f s_ceil b then Z.min f s_ceil else o).
Proof.
  pose proof from_hit_ceil_elem as Hhit. pose proof from_s_high_lookup as Hh.
  subst c; simpl in *. unfold assign_at.
  rewrite list_lookup_imap, Ho. simpl. f_equal.
  case_bool_decide as Hin.
  - apply Hhit in Hin. rewrite Hin. by apply list_lookup_total_correct.
  - destruct (hit_at f s_ceil b); [| done]. exfalso. apply Hin, Hhit. done.
Qed.

Lemma from_found_lookup :
  cs_found c !! i = Some (if hit_at f s_ceil b then true else b).
Proof.
  pose proof from_hit_ceil_elem as Hhit.
  subst c; simpl in *. unfold fill_at.
  rewrite list_lookup_imap, Hb. simpl. f_equal.
  case_bool_decide as Hin.
  - apply Hhit in Hin. by rewrite Hin.
  - destruct (hit_at f s_ceil b); [| done]. exfalso. apply Hin, Hhit. done.
Qed.

(** The two rows of [coarse_size] hold the choices of the dimension. *)
Lemma from_rows_lookup :
  let choice :=
    if b then (o, o) else if f <=? s_ceil then (f, f) else (Z.max 1 s_floor, s_ceil) in
  (coarse_rows c).1 !! i = Some choice.1 ∧
  (coarse_rows c).2 !! i = Some choice.2 ∧
  choices s_floor s_ceil fine_size st !! i = Some choice.
Proof.
  intros choice.
  pose proof from_s_low_lookup as Hlo. pose proof from_s_high_lookup as Hhi.
  pose proof from_optimum_lookup as Hopt. pose proof from_found_lookup as Hfound.
  assert (choices s_floor s_ceil fine_size st !! i = Some choice) as Hch.
  { unfold choices. rewrite lookup_zip_with, Hf. simpl.
    assert (zip (optimum st) (found st) !! i = Some (o, b)) as ->
      by by apply lookup_zip_Some.
    done. }
  unfold coarse_rows. cbn [fst snd].
  rewrite (assign_mask_lookup _ _ _ i _ _ _ Hlo Hopt Hfound).
  rewrite (assign_mask_lookup _ _ _ i _ _ _ Hhi Hopt Hfound).
  split; [| split; [| done]]; f_equal; subst choice; unfold hit_at;
    destruct b; simpl; rewrite ?andb_false_r, ?andb_true_r; try done;
    destruct (Z.eqb_spec (Z.min f s_ceil) f), (Z.leb_spec f s_ceil); simpl; lia.
Qed.
End ceiling_from.

Lemma resolve_ceiling_from_lengths s_floor s_ceil fine_size st :
  length (cs_s_low (resolve_ceiling_from s_floor s_ceil fine_size st)) = length fine_size ∧
  length (cs_s_high (resolve_ceiling_from s_floor s_ceil fine_size st)) = length fine_size ∧
  length (cs_optimum (resolve_ceiling_from s_floor s_ceil fine_size st))
    = length (optimum st) ∧
  length (cs_found (resolve_ceiling_from s_floor s_ceil fine_size st)) = length (found st).
Proof.
  simpl. unfold assign_at, fill_at.
  by rewrite !length_fmap, !length_imap.
Qed.

Section search_from.
Variables (s_floor s_ceil : Z) (fine_size : list Z) (st : loop_state).
Hypothesis Hfc : s_floor ≤ s_ceil.
Hypothesis Hc1 : 1 ≤ s_ceil.
Hypothesis Hinv : coarse_inv fine_size st.

Local Abbreviation cf := (resolve_ceiling_from s_floor s_ceil fine_size st).
Local Abbreviation ch := (choices s_floor s_ceil fine_size st).

Lemma state_lookup i f :
  fine_size !! i = Some f →
  ∃ o b, optimum st !! i = Some o ∧ found st !! i = Some b ∧ 1 ≤ o ≤ f.
Proof.
  intros Hf. destruct Hinv as [Hlen Hopt].
  pose proof (lookup_lt_Some _ _ _ Hf) as Hi.
  destruct (lookup_lt_is_Some_2 (found st) i) as [b Hb]; [lia |].
  pose proof (Forall2_length _ _ _ Hopt) as Hlen'.
  destruct (lookup_lt_is_Some_2 (optimum st) i) as [o Ho]; [lia |].
  exists o, b. repeat split; try done;
    eapply (Forall2_lookup_lr _ _ _ _ _ _ Hopt Ho Hf).
Qed.

Lemma rows_length :
  length (coarse_rows cf).1 = length fine_size ∧
  length (coarse_rows cf).2 = length fine_size.
Proof.
  destruct Hinv as [Hlen Hopt]. apply Forall2_length in Hopt.
  destruct (resolve_ceiling_from_lengths s_floor s_ceil fine_size st)
    as (H1 & H2 & H3 & H4).
  unfold coarse_rows. cbn [fst snd].
  rewrite !assign_mask_length; lia.
Qed.

Lemma choices_length : length ch = length fine_size.
Proof.
  destruct Hinv as [Hlen Hopt]. apply Forall2_length in Hopt.
  unfold choices. rewrite length_zip_with, length_zip. lia.
Qed.

Lemma rows_choices : zip (coarse_rows cf).1 (coarse_rows cf).2 = ch.
Proof.
  destruct rows_length as [Hlo Hhi].
  apply (list_eq_same_length _ _ (length fine_size)).
  - apply choices_length.
  - rewrite length_zip. lia.
  - intros i [x y] z Hi [Hx Hy]%lookup_zip_Some Hz.
    destruct (lookup_lt_is_Some_2 fine_size i Hi) as [f Hf].
    destruct (state_lookup i f Hf) as (o & b & Ho & Hb & _).
    destruct (from_rows_lookup s_floor s_ceil fine_size st i f o b Hf Ho Hb)
      as (Hx' & Hy' & Hz').
    rewrite Hx in Hx'. rewrite Hy in Hy'. rewrite Hz in Hz'.
    injection Hx' as ->. injection Hy' as ->. injection Hz' as ->.
    by destruct (if b then _ else _).
Qed.

(** Each choice lies between one and the fine extent, and the dimensions
    that are left open all choose between the same two values. *)
Lemma choices_bounds i f x :
  fine_size !! i = Some f → ch !! i = Some x →
  1 ≤ x.1 ∧ x.1 ≤ x.2 ∧ x.2 ≤ f ∧
  (x.1 = x.2 ∨ (x.1 = Z.max 1 s_floor ∧ x.2 = s_ceil)).
Proof.
  intros Hf Hx.
  destruct (state_lookup i f Hf) as (o & b & Ho & Hb & Hof).
  destruct (from_rows_lookup s_floor s_ceil fine_size st i f o b Hf Ho Hb)
    as (_ & _ & Hx').
  rewrite Hx in Hx'. injection Hx' as ->.
  destruct b; simpl; [lia |].
  destruct (Z.leb_spec f s_ceil); simpl; lia.
Qed.

Lemma choices_uniform : uniform (Z.max 1 s_floor) s_ceil ch.
Proof.
  apply Forall_lookup. intros i x Hx.
  destruct (lookup_lt_is_Some_2 fine_size i) as [f Hf].
  { apply lookup_lt_Some in Hx. rewrite choices_length in Hx. done. }
  destruct (choices_bounds i f x Hf Hx) as (? & ? & ? & ?). done.
Qed.

Lemma pick_choices_bounds perm :
  length perm = length fine_size →
  Forall2 (λ o f, 1 ≤ o ≤ f) (pick ch perm) fine_size.
Proof.
  intros Hlen. pose proof choices_length as Hch.
  apply Forall2_same_length_lookup. split.
  { unfold pick. rewrite length_zip_with. lia. }
  intros i x f Hx Hf. unfold pick in Hx.
  apply lookup_zip_with_Some in Hx as (bit & y & -> & _ & Hy).
  destruct (choices_bounds i f y Hf Hy) as (? & ? & ? & _).
  case_match; lia.
Qed.
End search_from.

(** ** One iteration, for any floor and ceiling of the root *)

Section iteration.
Variables (s_floor s_ceil target : Z) (fine_size : list Z) (st : loop_state).
Hypothesis Hfc : s_floor ≤ s_ceil.
Hypothesis Hc1 : 1 ≤ s_ceil.
Hypothesis Hinv : coarse_inv fine_size st.

Local Abbreviation cf := (resolve_ceiling_from s_floor s_ceil fine_size st).

(** What line 198 and 199 leave in each dimension. *)
Lemma from_resolved_lookup i f :
  fine_size !! i = Some f →
  ∃ o' (b b' : bool),
    found st !! i = Some b ∧
    cs_optimum cf !! i = Some o' ∧ cs_found cf !! i = Some b' ∧
    1 ≤ o' ≤ f ∧ (b = true → b' = true) ∧
    (i ∈ cs_hit_ceil cf ↔ b = false ∧ b' = true) ∧
    (i ∈ cs_hit_ceil cf → o' = f) ∧
    (b' = false → s_ceil < f).
Proof.
  intros Hf.
  destruct (state_lookup fine_size st Hinv i f Hf) as (o & b & Ho & Hb & Hof).
  exists (if hit_at f s_ceil b then Z.min f s_ceil else o), b,
    (if hit_at f s_ceil b then true else b).
  split; [done |].
  split; [by apply from_optimum_lookup |].
  split; [by apply from_found_lookup |].
  rewrite (from_hit_ceil_elem s_floor s_ceil fine_size st i f b Hf Hb).
  unfold hit_at. destruct b; simpl; rewrite ?andb_false_r, ?andb_true_r.
  - intuition (try congruence; try lia).
  - destruct (Z.eqb_spec (Z.min f s_ceil) f) as [He | Hne];
      intuition (try congruence; try lia).
Qed.

Lemma from_optimum_bounds : Forall2 (λ o f, 1 ≤ o ≤ f) (cs_optimum cf) fine_size.
Proof.
  apply Forall2_same_length_lookup. split.
  - destruct (resolve_ceiling_from_lengths s_floor s_ceil fine_size st)
      as (_ & _ & -> & _).
    destruct Hinv as [_ H]. by apply Forall2_length in H.
  - intros i o' f Ho' Hf.
    destruct (from_resolved_lookup i f Hf) as (o'' & b & b' & _ & Ho'' & _ & Hof & _).
    congruence.
Qed.

Lemma from_found_mono :
  Forall2 (λ x y : bool, x = true → y = true) (found st) (cs_found cf).
Proof.
  apply Forall2_same_length_lookup. split.
  - by destruct (resolve_ceiling_from_lengths s_floor s_ceil fine_size st)
      as (_ & _ & _ & ->).
  - intros i b b' Hb Hb'.
    destruct Hinv as [Hlen _].
    destruct (lookup_lt_is_Some_2 fine_size i) as [f Hf].
    { apply lookup_lt_Some in Hb. lia. }
    destruct (from_resolved_lookup i f Hf)
      as (o'' & b0 & b0' & Hb0 & _ & Hb0' & _ & Hmono & _).
    simplify_eq. done.
Qed.

Lemma combination_search_from_bounds :
  Forall2 (λ o f, 1 ≤ o ≤ f) (combination_search target fine_size cf) fine_size.
Proof.
  unfold combination_search.
  destruct (rows_length s_floor s_ceil fine_size st Hinv) as [Hlo Hhi].
  pose proof (rows_choices s_floor s_ceil fine_size st Hinv) as Hrows.
  unfold coarse_rows in Hlo, Hhi, Hrows. cbn [fst snd] in Hlo, Hhi, Hrows.
  match goal with |- context [foldl ?f ?acc ?l] =>
    destruct (foldl_try_combination_cases target
                [assign_mask (cs_s_low cf) (cs_optimum cf) (cs_found cf);
                 assign_mask (cs_s_high cf) (cs_optimum cf) (cs_found cf)] l acc)
      as [-> | (p & Hp & ->)] end.
  - apply from_optimum_bounds.
  - apply multinary_permutations_elem in Hp as [Hlen Hbits].
    rewrite size_now_pick by (done || lia). rewrite Hrows.
    by apply pick_choices_bounds.
Qed.

Lemma loop_body_from_coarse_inv :
  coarse_inv fine_size (loop_body_from s_floor s_ceil target fine_size st).
Proof.
  unfold loop_body_from.
  destruct (resolve_ceiling_from_lengths s_floor s_ceil fine_size st)
    as (_ & _ & _ & Hlen).
  destruct Hinv as [Hlenf _].
  case_match; split; cbn [found optimum].
  - lia.
  - apply from_optimum_bounds.
  - rewrite length_fmap. lia.
  - apply combination_search_from_bounds.
Qed.

Lemma loop_body_from_progress_inv :
  all_true (found st) = false →
  progress_inv fine_size st →
  progress_inv fine_size (loop_body_from s_floor s_ceil target fine_size st).
Proof.
  unfold progress_inv, loop_body_from. intros Hguard Hprog.
  pose proof (unresolved_pos _ Hguard) as Hpos.
  case_match eqn:Hany; cbn [found it_counter].
  - destruct (unresolved_mono _ _ from_found_mono) as [_ Hlt].
    assert (unresolved (cs_found cf) < unresolved (found st))%nat; [| lia].
    apply Hlt. apply any_nonzero_elem in Hany as [i Hi].
    assert (is_Some (fine_size !! i)) as [f Hf].
    { apply lookup_lt_is_Some.
      unfold resolve_ceiling_from in Hi. simpl in Hi.
      apply elem_of_argwhere, lookup_lt_Some in Hi.
      rewrite !length_zip_with, !length_fmap in Hi. lia. }
    destruct (from_resolved_lookup i f Hf)
      as (o'' & b & b' & Hb & _ & Hb' & _ & _ & Hhit & _).
    apply Hhit in Hi as [-> ->]. eauto.
  - rewrite unresolved_all_true. lia.
Qed.
End iteration.

Lemma loop_body_from_it_counter s_floor s_ceil target fine_size st :
  it_counter (loop_body_from s_floor s_ceil target fine_size st) = S (it_counter st).
Proof. unfold loop_body_from. by case_match. Qed.

(** ** The while loop keeps its invariants, for any rounding of the root *)

Lemma unresolved_replicate_false n : unresolved (replicate n false) = n.
Proof. unfold unresolved. induction n; simpl; [done | lia]. Qed.

Lemma init_inv fine_size :
  Forall (λ f, 1 ≤ f) fine_size →
  let st0 := LoopState (replicate (length fine_size) 1) (replicate (length fine_size) false) 0 in
  coarse_inv fine_size st0 ∧ progress_inv fine_size st0.
Proof.
  intros Hfine. split; [split |]; simpl.
  - by rewrite length_replicate.
  - apply Forall2_same_length_lookup. split; [by rewrite length_replicate |].
    intros i o f [-> _]%lookup_replicate Hf.
    rewrite Forall_lookup in Hfine. specialize (Hfine _ _ Hf). lia.
  - unfold progress_inv. simpl. by rewrite unresolved_replicate_false.
Qed.

Section rounding_proofs.
Variable s_num : Z → Z → nat → Z * Z.
Hypothesis Hs : rounds_positive_root s_num.

Lemma loop_body_with_inv target fine_size st :
  1 ≤ target →
  coarse_inv fine_size st → progress_inv fine_size st →
  all_true (found st) = false →
  coarse_inv fine_size (loop_body_with s_num target fine_size st) ∧
  progress_inv fine_size (loop_body_with s_num target fine_size st).
Proof.
  intros Htarget Hinv Hprog Hguard. unfold loop_body_with.
  destruct (Hs target (prod (optimum st))
              (length fine_size - count_true (found st))%nat) as [Hfc Hc1].
  - done.
  - destruct Hinv as [_ Hb]. by apply prod_bounds in Hb as [? _].
  - destruct Hinv as [Hlen _]. pose proof (count_true_lt _ Hguard). lia.
  - split.
    + by apply loop_body_from_coarse_inv.
    + by apply loop_body_from_progress_inv.
Qed.

Lemma while_loop_with_inv rounds target fine_size st :
  1 ≤ target →
  coarse_inv fine_size st → progress_inv fine_size st →
  coarse_inv fine_size (while_loop_with s_num rounds target fine_size st) ∧
  progress_inv fine_size (while_loop_with s_num rounds target fine_size st).
Proof.
  intros Htarget. revert st.
  induction rounds as [|r IH]; intros st Hinv Hprog; simpl; [done |].
  destruct (loop_guard (length fine_size) st) eqn:Hg; [| done].
  apply andb_true_iff in Hg as [Hg _]. apply negb_true_iff in Hg.
  destruct (loop_body_with_inv target fine_size st) as [? ?]; try done.
  by apply IH.
Qed.

(** The rounds suffice: the loop stops because its guard fails. *)
Lemma while_loop_with_exit rounds target fine_size st :
  (length fine_size + 2 ≤ it_counter st + rounds)%nat →
  loop_guard (length fine_size) (while_loop_with s_num rounds target fine_size st)
  = false.
Proof.
  revert st. induction rounds as [|r IH]; intros st Hr; simpl.
  - unfold loop_guard. apply andb_false_iff. right. apply Nat.leb_gt. lia.
  - destruct (loop_guard (length fine_size) st) eqn:Hg; [| done].
    apply IH. unfold loop_body_with. rewrite loop_body_from_it_counter. lia.
Qed.

(** The function returns a vector within the bounds. *)
Lemma determine_coarse_dimensions_with_returns target fine_size :
  Forall (λ f, 1 ≤ f) fine_size →
  ∃ coarse,
    determine_coarse_dimensions_with s_num target fine_size = Ok coarse ∧
    Forall2 (λ c f, 1 ≤ c ≤ f) coarse fine_size.
Proof.
  intros Hfine. unfold determine_coarse_dimensions_with.
  set (T := Z.max 1 (Z.min target (int64 (prod fine_size)))).
  set (st0 := LoopState _ _ _).
  destruct (init_inv fine_size Hfine) as [Hinv0 Hprog0]. fold st0 in Hinv0, Hprog0.
  destruct (while_loop_with_inv (length fine_size + 2) T fine_size st0) as [Hinv Hprog];
    [lia | done | done |].
  set (st := while_loop_with _ _ _ _ _) in *.
  unfold progress_inv in Hprog.
  assert ((length fine_size <? it_counter st)%nat = false) as ->
    by (apply Nat.ltb_ge; lia).
  exists (optimum st). split; [done |]. by destruct Hinv.
Qed.
End rounding_proofs.

(** ** The root in exact arithmetic *)

Lemma root_floor_below_nonneg b T D k : 0 ≤ root_floor_below b T D k.
Proof. induction b as [|b IH]; simpl; [lia |]. case_match; lia. Qed.

Lemma root_floor_nonneg T D k : 0 ≤ root_floor T D k.
Proof. apply root_floor_below_nonneg. Qed.

Lemma root_floor_le_ceil T D k : root_floor T D k ≤ root_ceil T D k.
Proof. unfold root_ceil. case_match; lia. Qed.

Lemma root_ceil_pos T D k : 1 ≤ T → (1 ≤ k)%nat → 1 ≤ root_ceil T D k.
Proof.
  intros HT Hk. unfold root_ceil.
  pose proof (root_floor_nonneg T D k) as Hf.
  destruct (Z.eqb_spec (root_floor T D k ^ Z.of_nat k * D) T) as [He|]; [| lia].
  destruct (Z.eq_dec (root_floor T D k) 0) as [H0|]; [| lia].
  rewrite H0, Z.pow_0_l in He by lia. lia.
Qed.

Section ceiling.
Variables (target : Z) (fine_size : list Z) (st : loop_state).
Let c := resolve_ceiling target fine_size st.
Let k := (length fine_size - count_true (found st))%nat.
Let l := Z.max 1 (root_floor target (prod (optimum st)) k).
Let h := root_ceil target (prod (optimum st)) k.

Variables (i : nat) (f o : Z) (b : bool).
Hypothesis Hf : fine_size !! i = Some f.
Hypothesis Ho : optimum st !! i = Some o.
Hypothesis Hb : found st !! i = Some b.

Lemma cs_s_low_lookup : cs_s_low c !! i = Some l.
Proof. subst c; simpl. by rewrite list_lookup_fmap, Hf. Qed.

Lemma cs_s_high_lookup : cs_s_high c !! i = Some (Z.min f h).
Proof. subst c; simpl. by rewrite list_lookup_fmap, Hf. Qed.

Lemma cs_hit_ceil_elem : i ∈ cs_hit_ceil c ↔ hit_at f h b = true.
Proof.
  subst c; simpl. rewrite elem_of_argwhere.
  rewrite !lookup_zip_with, !list_lookup_fmap, Hf, Hb. simpl.
  unfold hit_at, h, k. split; congruence.
Qed.

Lemma cs_optimum_lookup :
  cs_optimum c !! i = Some (if hit_at f h b then Z.min f h else o).
Proof.
  pose proof cs_hit_ceil_elem as Hhit. pose proof cs_s_high_lookup as Hh.
  subst c; simpl in *. unfold assign_at.
  rewrite list_lookup_imap, Ho. simpl. f_equal.
  case_bool_decide as Hin.
  - apply Hhit in Hin. rewrite Hin. by apply list_lookup_total_correct.
  - destruct (hit_at f h b); [| done]. exfalso. apply Hin, Hhit. done.
Qed.

Lemma cs_found_lookup :
  cs_found c !! i = Some (if hit_at f h b then true else b).
Proof.
  pose proof cs_hit_ceil_elem as Hhit.
  subst c; simpl in *. unfold fill_at.
  rewrite list_lookup_imap, Hb. simpl. f_equal.
  case_bool_decide as Hin.
  - apply Hhit in Hin. by rewrite Hin.
  - destruct (hit_at f h b); [| done]. exfalso. apply Hin, Hhit. done.
Qed.
End ceiling.



Lemma resolve_ceiling_lengths target fine_size st :
  length (cs_s_low (resolve_ceiling target fine_size st)) = length fine_size ∧
  length (cs_s_high (resolve_ceiling target fine_size st)) = length fine_size ∧
  length (cs_optimum (resolve_ceiling target fine_size st)) = length (optimum st) ∧
  length (cs_found (resolve_ceiling target fine_size st)) = length (found st).
Proof.
  simpl. unfold assign_at, fill_at.
  by rewrite !length_fmap, !length_imap.
Qed.

Lemma exact_root_positive : rounds_positive_root exact_root.
Proof.
  intros T D k HT HD Hk. cbn [exact_root fst snd].
  split; [apply root_floor_le_ceil | by apply root_ceil_pos].
Qed.

Lemma loop_body_coarse_inv target fine_size st :
  1 ≤ target → coarse_inv fine_size st → all_true (found st) = false →
  coarse_inv fine_size (loop_body target fine_size st).
Proof.
  intros Htarget Hinv Hguard. unfold loop_body, loop_body_with.
  destruct (exact_root_positive target (prod (optimum st))
              (length fine_size - count_true (found st))%nat) as [Hfc Hc1].
  - done.
  - destruct Hinv as [_ Hb]. by apply prod_bounds in Hb as [? _].
  - destruct Hinv as [Hlen _]. pose proof (count_true_lt _ Hguard). lia.
  - by apply loop_body_from_coarse_inv.
Qed.

Lemma while_loop_inv rounds target fine_size st :
  1 ≤ target →
  coarse_inv fine_size st → progress_inv fine_size st →
  coarse_inv fine_size (while_loop rounds target fine_size st) ∧
  progress_inv fine_size (while_loop rounds target fine_size st).
Proof. apply while_loop_with_inv, exact_root_positive. Qed.



(** ** The loop over the combinations *)

Section search.
Variables (target : Z) (cs : list (list Z)) (perms : list (list nat)).

Let d (p : list nat) : Z := Z.abs (target - prod (size_now cs p)).

(** Once a combination above the target has been accepted, nothing later
    is closer. *)
Hypothesis Hover : ∀ pre p post,
  perms = pre ++ p :: post →
  target < prod (size_now cs p) →
  (∀ q, q ∈ pre → d p < d q) →
  ∀ q, q ∈ post → d p ≤ d q.

(** The state of the loop after the combinations [pre]. *)
Let tracked (pre : list (list nat)) (acc : Z * list Z) : Prop :=
  ∃ pre1 p pre2,
    pre = pre1 ++ p :: pre2 ∧ acc.2 = size_now cs p ∧
    (∀ q, q ∈ pre1 → d p < d q) ∧
    (∀ q, q ∈ pre2 → d p ≤ d q) ∧
    (acc.1 = d p ∨ (acc.1 < 0 ∧ ∀ q, q ∈ perms → d p ≤ d q)).

Lemma tracked_accept pre p rest :
  perms = pre ++ p :: rest →
  (∀ q, q ∈ pre → d p < d q) →
  tracked (pre ++ [p]) (target - prod (size_now cs p), size_now cs p).
Proof.
  intros Hperms Hpre. exists pre, p, []. repeat split; try done.
  - intros q Hq. by apply elem_of_nil in Hq.
  - simpl. destruct (Z.lt_ge_cases (target - prod (size_now cs p)) 0) as [Hneg | Hpos].
    + right. split; [done |]. intros q Hq. rewrite Hperms in Hq.
      apply elem_of_app in Hq as [Hq | Hq]; [specialize (Hpre q Hq); lia |].
      apply elem_of_cons in Hq as [-> | Hq]; [lia |].
      eapply Hover; eauto. lia.
    + left. subst d. simpl. lia.
Qed.

Lemma tracked_step pre p rest acc :
  perms = pre ++ p :: rest →
  tracked pre acc →
  tracked (pre ++ [p]) (try_combination target cs acc p).
Proof.
  intros Hperms (pre1 & p0 & pre2 & -> & Hval & H1 & H2 & Hdist).
  unfold try_combination. fold (d p).
  assert (Hkeep : d p0 ≤ d p →
            tracked ((pre1 ++ p0 :: pre2) ++ [p]) acc).
  { intros Hle. exists pre1, p0, (pre2 ++ [p]).
    split; [by rewrite <- app_assoc |]. repeat split; try done.
    intros q [Hq | ->%list_elem_of_singleton]%elem_of_app; [by apply H2 | exact Hle]. }
  destruct (Z.ltb_spec (d p) acc.1) as [Hlt | Hge].
  - destruct Hdist as [Hd | [Hneg _]]; [| subst d; simpl in *; lia].
    eapply tracked_accept; [exact Hperms |].
    intros q [Hq | Hq]%elem_of_app.
    + specialize (H1 q Hq). lia.
    + apply elem_of_cons in Hq as [-> | Hq]; [lia |]. specialize (H2 q Hq). lia.
  - apply Hkeep. destruct Hdist as [Hd | [_ Hall]]; [lia |].
    apply Hall. rewrite Hperms. apply elem_of_app. right. left.
Qed.

Lemma tracked_foldl rest : ∀ pre acc,
  perms = pre ++ rest →
  tracked pre acc →
  tracked perms (foldl (try_combination target cs) acc rest).
Proof.
  induction rest as [|p rest IH]; intros pre acc Hperms Htr; simpl.
  - by rewrite Hperms, app_nil_r.
  - apply (IH (pre ++ [p])).
    + by rewrite <- app_assoc.
    + by eapply tracked_step.
Qed.

Lemma foldl_first_closest dist0 opt0 :
  perms ≠ [] →
  (∀ p, p ∈ perms → d p < dist0) →
  first_closest target (size_now cs) perms
    (foldl (try_combination target cs) (dist0, opt0) perms).2.
Proof.
  intros Hne Hd0.
  assert (∃ p rest, perms = p :: rest) as (p & rest & Hperms).
  { clear -Hne. destruct perms; [done | eauto]. }
  assert (Htr : tracked perms (foldl (try_combination target cs) (dist0, opt0) perms)).
  { rewrite Hperms at 2. simpl. apply (tracked_foldl rest [p]); [by rewrite Hperms |].
    unfold try_combination. fold (d p). simpl.
    assert (d p < dist0) as Hlt%Z.ltb_lt by (apply Hd0; rewrite Hperms; left).
    rewrite Hlt.
    apply (tracked_accept [] p rest); [by rewrite Hperms |].
    intros q Hq. by apply elem_of_nil in Hq. }
  destruct Htr as (pre1 & p0 & pre2 & Heq & Hval & H1 & H2 & _).
  exists pre1, p0, pre2. repeat split; try done.
Qed.
End search.

Section uniform.
Variables (l h : Z).
Hypothesis Hl : 1 ≤ l.
Hypothesis Hlh : l ≤ h.

Lemma fixed_prod_pos cands : uniform l h cands → 1 ≤ fixed_prod cands.
Proof.
  unfold fixed_prod. induction 1 as [|c cands [Hc _] _ IH]; [done |].
  cbn [List.filter]. destruct (is_free c); cbn [negb fmap list_fmap prod foldr]; [done |].
  change (foldr Z.mul 1 ?x) with (prod x). nia.
Qed.

Lemma prod_pick cands : ∀ perm,
  uniform l h cands → length perm = length cands →
  (ups cands perm ≤ free_count cands)%nat ∧
  prod (pick cands perm) =
    fixed_prod cands * l ^ Z.of_nat (free_count cands - ups cands perm)
      * h ^ Z.of_nat (ups cands perm).
Proof.
  unfold free_count, fixed_prod.
  induction cands as [|c cands IH]; intros [|bit perm] Hu Hlen; try done.
  apply Forall_cons in Hu as [[Hc Hcases] Hu]. simpl in Hlen.
  destruct (IH perm Hu ltac:(lia)) as [Hle Hprod].
  cbn [pick zip_with prod foldr ups List.filter].
  change (foldr Z.mul 1 (zip_with _ perm cands)) with (prod (pick cands perm)).
  rewrite Hprod.
  destruct (is_free c) eqn:Hfree; unfold is_free in Hfree;
    cbn [negb andb fmap list_fmap length prod foldr];
    change (foldr Z.mul 1 ?x) with (prod x).
  - apply negb_true_iff, Z.eqb_neq in Hfree.
    destruct Hcases as [? | [Hcl Hch]]; [done |].
    rewrite andb_true_r.
    destruct (bit =? 0)%nat; cbn [negb].
    + rewrite Nat.add_0_l. split; [lia |].
      replace (Z.of_nat (S (length (List.filter is_free cands)) - ups cands perm))
        with (Z.succ (Z.of_nat (length (List.filter is_free cands) - ups cands perm)))
        by lia.
      rewrite Z.pow_succ_r by lia. rewrite Hcl. ring.
    + split; [lia |].
      replace (S (length (List.filter is_free cands)) - (1 + ups cands perm))%nat
        with (length (List.filter is_free cands) - ups cands perm)%nat by lia.
      replace (Z.of_nat (1 + ups cands perm)) with (Z.succ (Z.of_nat (ups cands perm)))
        by lia.
      rewrite Z.pow_succ_r by lia. rewrite Hch. ring.
  - apply negb_false_iff, Z.eqb_eq in Hfree.
    rewrite andb_false_r, Nat.add_0_l. split; [done |].
    destruct (bit =? 0)%nat; [| rewrite <- Hfree]; ring.
Qed.

Lemma pow_mix_mono (k a b : nat) :
  (a ≤ b)%nat → (b ≤ k)%nat →
  l ^ Z.of_nat (k - a) * h ^ Z.of_nat a ≤ l ^ Z.of_nat (k - b) * h ^ Z.of_nat b.
Proof.
  intros Hab Hbk.
  replace (Z.of_nat (k - a)) with (Z.of_nat (k - b) + Z.of_nat (b - a)) by lia.
  replace (h ^ Z.of_nat b) with (h ^ (Z.of_nat a + Z.of_nat (b - a)))
    by (f_equal; lia).
  rewrite !Z.pow_add_r by lia.
  assert (0 < l ^ Z.of_nat (k - b)) by (apply Z.pow_pos_nonneg; lia).
  assert (0 < h ^ Z.of_nat a) by (apply Z.pow_pos_nonneg; lia).
  assert (l ^ Z.of_nat (b - a) ≤ h ^ Z.of_nat (b - a))
    by (apply Z.pow_le_mono_l; lia).
  transitivity ((l ^ Z.of_nat (k - b) * h ^ Z.of_nat a) * l ^ Z.of_nat (b - a));
    [apply Z.eq_le_incl; ring |].
  transitivity ((l ^ Z.of_nat (k - b) * h ^ Z.of_nat a) * h ^ Z.of_nat (b - a));
    [| apply Z.eq_le_incl; ring].
  apply Z.mul_le_mono_nonneg_l; [| done].
  apply Z.mul_nonneg_nonneg; lia.
Qed.

Lemma prod_pick_mono cands p q :
  uniform l h cands → length p = length cands → length q = length cands →
  (ups cands p ≤ ups cands q)%nat →
  prod (pick cands p) ≤ prod (pick cands q).
Proof.
  intros Hu Hp Hq Hle.
  destruct (prod_pick cands p Hu Hp) as [Hpk ->].
  destruct (prod_pick cands q Hu Hq) as [Hqk ->].
  pose proof (fixed_prod_pos cands Hu).
  pose proof (pow_mix_mono (free_count cands) _ _ Hle Hqk).
  rewrite <- !Z.mul_assoc. apply Z.mul_le_mono_nonneg_l; lia.
Qed.

Lemma prod_pick_ups cands p q :
  uniform l h cands → length p = length cands → length q = length cands →
  ups cands p = ups cands q →
  prod (pick cands p) = prod (pick cands q).
Proof.
  intros Hu Hp Hq Heq.
  destruct (prod_pick cands p Hu Hp) as [_ ->].
  destruct (prod_pick cands q Hu Hq) as [_ ->].
  by rewrite Heq.
Qed.
End uniform.

(** A position in a concatenation of blocks lies in one block. *)
Lemma bind_split {A B} (g : A → list B) (L : list A) : ∀ pre p post,
  L ≫= g = pre ++ p :: post →
  ∃ L1 a L2 g1 g2,
    L = L1 ++ a :: L2 ∧ g a = g1 ++ p :: g2 ∧
    pre = (L1 ≫= g) ++ g1 ∧ post = g2 ++ (L2 ≫= g).
Proof.
  induction L as [|a L IH]; intros pre p post Heq.
  { by destruct pre. }
  rewrite bind_cons in Heq.
  apply app_eq_inv in Heq as [(k & Hga & Hpost) | (k & Hpre & Hrest)].
  - destruct k as [|p' k].
    + rewrite app_nil_r in Hga. simpl in Hpost.
      destruct (IH [] p post) as (L1 & a' & L2 & g1 & g2 & -> & Hg & Hpre' & ->);
        [by rewrite <- Hpost |].
      exists (a :: L1), a', L2, g1, g2. repeat split; try done.
      rewrite bind_cons, <- Hga, <- app_assoc, <- Hpre'. by rewrite app_nil_r.
    + injection Hpost as <- ->.
      exists [], a, L, pre, k. by repeat split.
  - destruct (IH k p post) as (L1 & a' & L2 & g1 & g2 & -> & Hg & -> & ->); [done |].
    exists (a :: L1), a', L2, g1, g2. repeat split; try done.
    by rewrite Hpre, bind_cons, <- app_assoc.
Qed.

Lemma multinary_permutations_nonempty base n :
  (0 < base)%nat → multinary_permutations base n ≠ [].
Proof.
  intros Hb. induction n as [|n IH]; simpl; [done |].
  destruct (multinary_permutations base n) as [|rest l]; [done |].
  rewrite bind_cons. destruct base; [lia |]. done.
Qed.

(** Every lower number of upper choices was met earlier in the enumeration. *)
Lemma ups_earlier cands : ∀ pre p post j,
  multinary_permutations 2 (length cands) = pre ++ p :: post →
  (j < ups cands p)%nat →
  ∃ q, q ∈ pre ∧ ups cands q = j.
Proof.
  induction cands as [|c cands IH]; intros pre p post j Heq Hj.
  { simpl in Heq. destruct pre as [|? [|]]; simplify_eq. simpl in Hj. lia. }
  cbn [length multinary_permutations] in Heq.
  apply bind_split in Heq as (L1 & rest & L2 & g1 & g2 & HL & Hg & -> & ->).
  assert (Hlift : ∀ q, q ∈ L1 → (0%nat :: q) ∈ (L1 ≫= λ rest, (λ d, d :: rest) <$> seq 0 2)).
  { intros q Hq. apply list_elem_of_bind. exists q. split; [left | done]. }
  cbn [seq fmap list_fmap] in Hg.
  destruct g1 as [|x [|y g1]]; simpl in Hg; simplify_eq.
  - (* p = 0 :: rest *)
    simpl in Hj.
    destruct (IH L1 rest L2 j HL Hj) as (q & Hq & Hups).
    exists (0%nat :: q). split; [apply elem_of_app; left; by apply Hlift |].
    by cbn [ups Nat.eqb negb andb].
  - (* p = 1 :: rest *)
    simpl in Hj.
    destruct (decide (j < ups cands rest)%nat) as [Hlt | Hge].
    + destruct (IH L1 rest L2 j HL Hlt) as (q & Hq & Hups).
      exists (0%nat :: q). split; [apply elem_of_app; left; by apply Hlift |].
      done.
    + exists (0%nat :: rest). split; [apply elem_of_app; right; left |].
      simpl. destruct (is_free c); simpl in Hj; lia.
  - destruct g1; simplify_eq.
Qed.

Section overshoot.
Variables (target l h : Z) (lo hi : list Z).
Hypothesis Hl : 1 ≤ l.
Hypothesis Hlh : l ≤ h.
Hypothesis Hlen : length lo = length hi.
Hypothesis Hu : uniform l h (zip lo hi).

Local Abbreviation perms := (multinary_permutations 2 (length lo)).
Local Abbreviation d := (λ p, Z.abs (target - prod (size_now [lo; hi] p))).

Lemma size_now_perm p : p ∈ perms →
  length p = length (zip lo hi) ∧ size_now [lo; hi] p = pick (zip lo hi) p.
Proof.
  intros [Hp Hbits]%multinary_permutations_elem.
  split; [rewrite length_zip; lia |].
  apply size_now_pick; [lia | lia | done].
Qed.

Lemma search_overshoot pre p post :
  perms = pre ++ p :: post →
  target < prod (size_now [lo; hi] p) →
  (∀ q, q ∈ pre → d p < d q) →
  ∀ q, q ∈ post → d p ≤ d q.
Proof.
  intros Hperms Hover Hpre q Hq.
  assert (Hin : ∀ x, x ∈ pre ∨ x = p ∨ x ∈ post → x ∈ perms).
  { intros x Hx. rewrite Hperms, elem_of_app, elem_of_cons. tauto. }
  destruct (size_now_perm p) as [Hlp Hp]; [apply Hin; auto |].
  destruct (size_now_perm q) as [Hlq Hq']; [apply Hin; auto |].
  destruct (Z.le_gt_cases (prod (size_now [lo; hi] p)) (prod (size_now [lo; hi] q)))
    as [Hle | Hgt]; [lia |].
  assert (Hups : (ups (zip lo hi) q < ups (zip lo hi) p)%nat).
  { apply Nat.nle_gt. intros Hle.
    assert (prod (pick (zip lo hi) p) ≤ prod (pick (zip lo hi) q))
      by (eapply prod_pick_mono; eauto).
    rewrite Hp, Hq' in Hgt. lia. }
  assert (Hperms' : multinary_permutations 2 (length (zip lo hi)) = pre ++ p :: post).
  { rewrite length_zip, <- Hlen, Nat.min_id. exact Hperms. }
  destruct (ups_earlier (zip lo hi) pre p post _ Hperms' Hups) as (q' & Hq'pre & Hq'ups).
  destruct (size_now_perm q') as [Hlq' Hq'']; [apply Hin; auto |].
  specialize (Hpre q' Hq'pre). simpl in Hpre.
  assert (Heq : prod (pick (zip lo hi) q') = prod (pick (zip lo hi) q))
    by (eapply prod_pick_ups; eauto).
  rewrite Hq'', Heq, <- Hq' in Hpre.
  lia.
Qed.
End overshoot.

Lemma all_true_fmap_true {A} (a : list A) : all_true ((λ _, true) <$> a) = true.
Proof. unfold all_true. by induction a. Qed.

(** Distances to the target and to the clamped target order the combinations
    in the same way, as all products lie in the range of the clamp. *)
Lemma first_closest_clamp {A} (t top : Z) (value : A → list Z) items r :
  (∀ p, p ∈ items → 1 ≤ prod (value p) ≤ top) →
  first_closest (Z.max 1 (Z.min t top)) value items r →
  first_closest t value items r.
Proof.
  intros Hb (pre & p & post & -> & -> & H1 & H2).
  assert (Hp : 1 ≤ prod (value p) ≤ top).
  { apply Hb. apply elem_of_app. right. left. }
  exists pre, p, post. repeat split; try done.
  - intros q Hq. specialize (H1 q Hq).
    assert (1 ≤ prod (value q) ≤ top) by (apply Hb, elem_of_app; by left).
    lia.
  - intros q Hq. specialize (H2 q Hq).
    assert (1 ≤ prod (value q) ≤ top) by (apply Hb, elem_of_app; right; by right).
    lia.
Qed.

(** ** The combination search for any floor and ceiling of the root *)

Lemma int64_small z : - 2 ^ 63 ≤ z < 2 ^ 63 → int64 z = z.
Proof. intros Hz. unfold int64. rewrite Z.mod_small by lia. lia. Qed.

(** The first closest element does not depend on how the values are
    computed. *)
Lemma first_closest_ext {A} (target : Z) (v w : A → list Z) items r :
  (∀ p, p ∈ items → v p = w p) →
  first_closest target v items r → first_closest target w items r.
Proof.
  intros Hvw (pre & p & post & -> & -> & H1 & H2).
  assert (Hin : ∀ q, q ∈ pre ∨ q = p ∨ q ∈ post → v q = w q).
  { intros q Hq. apply Hvw. rewrite elem_of_app, elem_of_cons. tauto. }
  exists pre, p, post. split; [done |]. split; [apply Hin; auto |].
  split; intros q Hq.
  - rewrite <- !Hin by auto. by apply H1.
  - rewrite <- !Hin by auto. by apply H2.
Qed.



End PartitionProofs.

(** * Properties of porepy/numerics/ad/grid_operators.py *)

Module GridOperatorsProofs.
Import GridOperators GridOperatorsSpec.

(** ** Lists *)

Ltac nat_cases :=
  repeat match goal with
    | |- context [(?a <=? ?b)%nat] => destruct (Nat.leb_spec a b)
    | |- context [(?a <? ?b)%nat] => destruct (Nat.ltb_spec a b)
    | |- context [(?a =? ?b)%nat] => destruct (Nat.eqb_spec a b)
    end;
  simpl; subst; try done; try lia.

Lemma filter_fmap_seq_unique {A} (P : A → bool) (f : nat → A) i a n :
  (∀ j, P (f j) = (j =? i)%nat) →
  List.filter P (f <$> seq a n) = if ((a <=? i) && (i <? a + n))%nat then [f i] else [].
Proof.
  intros HP. revert a. induction n as [|n IH]; intros a.
  - simpl. nat_cases.
  - cbn [seq fmap list_fmap List.filter]. fold (fmap f (seq (S a) n)).
    rewrite HP, IH. nat_cases.
Qed.

Lemma filter_fmap_none {A B} (P : A → bool) (f : B → A) l :
  (∀ j, P (f j) = false) → List.filter P (f <$> l) = [].
Proof.
  intros HP. induction l as [|x l IH]; [done |].
  cbn [fmap list_fmap List.filter]. fold (fmap f l). by rewrite HP.
Qed.

Lemma bind_seq_unique {A} (f : nat → list A) (x : A) i a n :
  (∀ j, f j = if (j =? i)%nat then [x] else []) →
  seq a n ≫= f = if ((a <=? i) && (i <? a + n))%nat then [x] else [].
Proof.
  intros Hf. revert a. induction n as [|n IH]; intros a.
  - simpl. nat_cases.
  - cbn [seq]. rewrite bind_cons, Hf, IH. nat_cases.
Qed.

Lemma bind_singleton_fmap {A B} (f : A → B) (l : list A) :
  l ≫= (λ x, [f x]) = f <$> l.
Proof. induction l as [|x l IH]; [done |]. by rewrite bind_cons, IH. Qed.

Lemma bind_ext_in {A B} (f g : A → list B) (l : list A) :
  (∀ x, x ∈ l → f x = g x) → l ≫= f = l ≫= g.
Proof.
  induction l as [|x l IH]; intros H; [done |].
  rewrite !bind_cons, H, IH; [done | | left]. intros y Hy. apply H. by right.
Qed.

Lemma zip_embedding o a n :
  zip (zip ((λ i, (o + i)%nat) <$> seq a n) (seq a n)) (replicate n 1)
  = (λ j, ((o + j)%nat, j, 1)) <$> seq a n.
Proof. revert a. induction n as [|n IH]; intros a; [done |]. simpl. by rewrite IH. Qed.

Lemma expand_arange n nd : expand_indices_nd (arange n) nd = seq 0 (n * nd).
Proof.
  unfold expand_indices_nd, arange. induction n as [|n IH]; [done |].
  rewrite seq_S, bind_app, IH. simpl. rewrite app_nil_r.
  rewrite fmap_add_seq, Nat.add_0_r.
  replace (nd + n * nd)%nat with (n * nd + nd)%nat by lia.
  by rewrite seq_app.
Qed.

(** ** Embeddings and their products *)

Lemma entry_embedding o sz tot r c :
  entry (embedding o sz tot) r c = if ((c <? sz) && (r =? o + c))%nat then 1 else 0.
Proof.
  unfold entry, stored, embedding. cbn [triples].
  destruct (Nat.eqb_spec r (o + c)) as [-> | Hne].
  - rewrite (filter_fmap_seq_unique _ _ c).
    + rewrite andb_true_r. simpl. destruct (c <? sz)%nat; done.
    + intros j. unfold t_row, t_col. simpl. nat_cases.
  - rewrite filter_fmap_none; [by rewrite andb_false_r |].
    intros j. unfold t_row, t_col. simpl. nat_cases.
Qed.

Lemma entry_identity sz i k :
  entry (identity sz) i k = if ((i <? sz) && (i =? k))%nat then 1 else 0.
Proof.
  unfold entry, stored, identity. cbn [triples].
  destruct (Nat.eqb_spec i k) as [-> | Hne].
  - rewrite (filter_fmap_seq_unique _ _ k).
    + rewrite andb_true_r. simpl. destruct (k <? sz)%nat; done.
    + intros j. unfold t_row, t_col. simpl. nat_cases.
  - rewrite filter_fmap_none; [by rewrite andb_false_r |].
    intros j. unfold t_row, t_col. simpl. nat_cases.
Qed.

Lemma terms_embedding o sz tot i k :
  (i < sz)%nat →
  terms (transpose (embedding o sz tot)) (embedding o sz tot) i k
  = if (i =? k)%nat then [1] else [].
Proof.
  intros Hi. unfold terms, transpose, embedding. cbn [triples].
  rewrite <- list_fmap_compose.
  rewrite (filter_fmap_seq_unique _ _ i); [| intros j; unfold t_row; simpl; nat_cases].
  replace ((0 <=? i) && (i <? 0 + sz))%nat with true by nat_cases.
  rewrite bind_cons. change ([] ≫= ?f) with (@nil Z). rewrite app_nil_r.
  unfold t_col at 1. cbn [compose fst snd].
  destruct (Nat.eqb_spec i k) as [-> | Hne].
  - rewrite (filter_fmap_seq_unique _ _ k); [| intros j; unfold t_row, t_col; simpl; nat_cases].
    replace ((0 <=? k) && (k <? 0 + sz))%nat with true by nat_cases.
    done.
  - rewrite filter_fmap_none; [done |].
    intros j. unfold t_row, t_col. simpl. nat_cases.
Qed.

(** Restriction times prolongation of one embedding is the identity. *)
Lemma matmul_embedding o sz tot :
  matmul (transpose (embedding o sz tot)) (embedding o sz tot) = Ok (identity sz).
Proof.
  unfold matmul. cbn [transpose embedding ncols nrows].
  rewrite Nat.eqb_refl. cbn [negb]. unfold identity. do 2 f_equal.
  rewrite <- bind_singleton_fmap. apply bind_ext_in. intros i Hi%elem_of_seq.
  rewrite (bind_seq_unique _ (i, i, 1) i);
    [by replace ((0 <=? i) && (i <? 0 + sz))%nat with true by nat_cases |].
  intros k. unfold cell.
  change (SpMatrix sz tot _) with (transpose (embedding o sz tot)).
  change (SpMatrix tot sz _) with (embedding o sz tot).
  rewrite terms_embedding by lia. rewrite (Nat.eqb_sym k i).
  destruct (Nat.eqb_spec i k) as [-> | Hne]; done.
Qed.

Lemma coo_matrix_embedding o sz tot M :
  coo_matrix (replicate sz 1) ((λ i, (o + i)%nat) <$> seq 0 sz) (arange sz) tot sz = Ok M →
  M = embedding o sz tot.
Proof.
  unfold coo_matrix. repeat case_match; try done. intros [= <-].
  unfold embedding, arange. by rewrite zip_embedding.
Qed.

Lemma coo_matrix_embedding_ok o sz tot :
  (o + sz ≤ tot)%nat →
  coo_matrix (replicate sz 1) ((λ i, (o + i)%nat) <$> seq 0 sz) (arange sz) tot sz
  = Ok (embedding o sz tot).
Proof.
  intros Hb. unfold coo_matrix, arange.
  rewrite length_replicate, length_fmap, !length_seq, Nat.eqb_refl. cbn [andb negb].
  assert (forallb (λ r, (r <? tot)%nat) ((λ i, (o + i)%nat) <$> seq 0 sz) = true) as ->.
  { apply forallb_forall. intros x [j [-> Hj%elem_of_seq]]%list_elem_of_In%list_elem_of_fmap.
    apply Nat.ltb_lt. lia. }
  assert (forallb (λ c, (c <? sz)%nat) (seq 0 sz) = true) as ->.
  { apply forallb_forall. intros x Hx%list_elem_of_In%elem_of_seq. apply Nat.ltb_lt. lia. }
  cbn [andb negb]. unfold embedding. by rewrite zip_embedding.
Qed.

Lemma getitem_last_offsets o sz :
  getitem_last ((λ i, (o + i)%nat) <$> seq 0 sz)
  = match sz with O => Raise IndexError | S n => Ok (o + n)%nat end.
Proof.
  unfold getitem_last. destruct sz as [|n]; [done |].
  rewrite seq_S, fmap_app. cbn [fmap list_fmap]. by rewrite last_snoc.
Qed.

(** ** One iteration of _subgrid_projections *)

Lemma subgrid_step_Ok nd tf tc st g st' :
  subgrid_step nd tf tc st g = Ok st' →
  st' = stepped nd tf tc st g ∧
  (1 ≤ cell_size nd g)%nat ∧ ((0 < dim g)%nat → (1 ≤ face_size nd g)%nat).
Proof.
  destruct st as [proj off]. unfold subgrid_step, stepped, face_advance.
  rewrite !expand_arange. fold (face_size nd g) (cell_size nd g).
  destruct (coo_matrix _ _ _ tf _) as [fp|] eqn:Hfp; [| done].
  apply coo_matrix_embedding in Hfp as ->.
  destruct (coo_matrix _ _ _ tc _) as [cp|] eqn:Hcp; [| done].
  apply coo_matrix_embedding in Hcp as ->.
  cbn [mbind result_bind bind]. rewrite !getitem_last_offsets. unfold tocsr.
  destruct (Nat.ltb_spec 0 (dim g)) as [Hdim | Hdim].
  - destruct (face_size nd g) as [|nf]; [done |].
    destruct (cell_size nd g) as [|nc]; [done |].
    cbn. intros [= <-]. split; [| split; intros; lia].
    f_equal. f_equal; lia.
  - destruct (cell_size nd g) as [|nc]; [done |].
    cbn. intros [= <-]. split; [| split; intros; lia].
    f_equal. f_equal; lia.
Qed.

Lemma subgrid_step_total nd tf tc st g :
  (cell_offset st.2 + cell_size nd g ≤ tc)%nat →
  (face_offset st.2 + face_size nd g ≤ tf)%nat →
  (1 ≤ cell_size nd g)%nat → ((0 < dim g)%nat → (1 ≤ face_size nd g)%nat) →
  subgrid_step nd tf tc st g = Ok (stepped nd tf tc st g).
Proof.
  intros Hc Hf Hc1 Hf1.
  destruct st as [proj off]. unfold subgrid_step, stepped, face_advance.
  rewrite !expand_arange. fold (face_size nd g) (cell_size nd g).
  simpl in Hc, Hf.
  rewrite !coo_matrix_embedding_ok by done.
  cbn [mbind result_bind bind]. rewrite !getitem_last_offsets. unfold tocsr.
  destruct (Nat.ltb_spec 0 (dim g)) as [Hdim | Hdim].
  - specialize (Hf1 Hdim).
    destruct (face_size nd g) as [|nf]; [lia |].
    destruct (cell_size nd g) as [|nc]; [lia |].
    cbn. f_equal. f_equal. f_equal; lia.
  - destruct (cell_size nd g) as [|nc]; [lia |].
    cbn. f_equal. f_equal. f_equal; lia.
Qed.

(** ** The loop *)

Lemma for_each_app {S A} (body : S → A → result S) st l1 l2 :
  for_each body st (l1 ++ l2) = st' ← for_each body st l1; for_each body st' l2.
Proof.
  revert st. induction l1 as [|a l1 IH]; intros st; [done |].
  simpl. destruct (body st a) as [st1|]; [| done]. apply IH.
Qed.

Lemma embeddings_of_insert sz tot d g o :
  embeddings_of sz tot d → embeddings_of sz tot (<[g := embedding o (sz g) tot]> d).
Proof.
  intros Hd g' M. rewrite lookup_insert. case_decide as Hg.
  - subst g'. intros [= <-]. eauto.
  - apply Hd.
Qed.

Lemma for_each_subgrid_step_embeddings nd tf tc l : ∀ st st',
  for_each (subgrid_step nd tf tc) st l = Ok st' →
  embeddings_of (cell_size nd) tc (cell_projection st.1) →
  embeddings_of (face_size nd) tf (face_projection st.1) →
  embeddings_of (cell_size nd) tc (cell_projection st'.1) ∧
  embeddings_of (face_size nd) tf (face_projection st'.1) ∧
  (∀ g, g ∈ l ∨ is_Some (cell_projection st.1 !! g) → is_Some (cell_projection st'.1 !! g)) ∧
  (∀ g, g ∈ l ∨ is_Some (face_projection st.1 !! g) → is_Some (face_projection st'.1 !! g)).
Proof.
  induction l as [|g l IH]; intros st st' Hrun Hc Hf.
  - injection Hrun as <-. repeat split; try done; intros g [Hg | Hg]; try done;
      by apply elem_of_nil in Hg.
  - simpl in Hrun. destruct (subgrid_step nd tf tc st g) as [st1|] eqn:Hstep; [| done].
    apply subgrid_step_Ok in Hstep as (-> & _).
    destruct (IH _ _ Hrun) as (Hc' & Hf' & Hkc & Hkf).
    { by apply embeddings_of_insert. }
    { by apply embeddings_of_insert. }
    repeat split; try done.
    + intros g' [Hg' | Hg']; apply Hkc.
      * apply elem_of_cons in Hg' as [-> | Hg']; [right | by left].
        cbn. by rewrite lookup_insert_eq.
      * right. cbn. rewrite lookup_insert. by case_decide.
    + intros g' [Hg' | Hg']; apply Hkf.
      * apply elem_of_cons in Hg' as [-> | Hg']; [right | by left].
        cbn. by rewrite lookup_insert_eq.
      * right. cbn. rewrite lookup_insert. by case_decide.
Qed.

(** ** SubdomainProjections *)

(** C2: whenever the constructor of [SubdomainProjections] returns, for every
    grid [g] of its grid sequence the matrix of [cell_restriction(g)] times
    the matrix of [cell_prolongation(g)] is the identity matrix on the
    [num_cells g * nd] local cell indices of [g]. *)
Theorem restriction_prolongation_identity grids gb nd grid_list sp g :
  _grid_list grids gb = Ok grid_list →
  SubdomainProjections_init grids gb nd = Ok sp →
  g ∈ grid_list →
  ∃ R P,
    cell_restriction sp (OneGrid g) = Ok R ∧
    cell_prolongation sp (OneGrid g) = Ok P ∧
    matmul (mat R) (mat P) = Ok (identity (num_cells g * nd)) ∧
    ∀ i k, entry (identity (num_cells g * nd)) i k
           = if (i <? num_cells g * nd)%nat then identity_entry i k else 0.
Proof.
  intros Hgl Hinit Hg. unfold SubdomainProjections_init in Hinit.
  rewrite Hgl in Hinit. cbn [mbind result_bind bind] in Hinit.
  destruct (_subgrid_projections grid_list nd) as [proj|] eqn:Hproj; [| done].
  injection Hinit as <-.
  unfold _subgrid_projections in Hproj.
  destruct (for_each _ _ grid_list) as [st'|] eqn:Hrun; [| done].
  injection Hproj as <-.
  apply for_each_subgrid_step_embeddings in Hrun as (Hc & _ & Hk & _);
    [| intros ? ? H; cbn in H; by apply lookup_empty_Some in H..].
  destruct (Hk g) as [M HM]; [by left |].
  destruct (Hc g M HM) as [o ->].
  unfold cell_restriction, cell_prolongation, restriction_of, prolongation_of, dict_get.
  cbn [sp_cell_projection]. rewrite HM. cbn [mbind result_bind bind].
  eexists _, _. split; [done |]. split; [done |]. cbn [mat]. split.
  - apply matmul_embedding.
  - intros i k. rewrite entry_identity. unfold identity_entry. by destruct (i <? _)%nat.
Qed.

(** ** Layouts *)

Lemma layout_fst adv o l : (layout adv o l).*1 = l.
Proof. revert o. induction l as [|g l IH]; intros o; [done |]. simpl. by rewrite IH. Qed.

Section layout.
Variables (adv sz : Grid → nat).

Lemma layout_bounds l : ∀ o0 g o,
  (∀ g, g ∈ l → adv g = sz g) →
  (g, o) ∈ layout adv o0 l →
  (o0 ≤ o ∧ o + sz g ≤ o0 + sum_nat (sz <$> l))%nat.
Proof.
  induction l as [|g1 l IH]; intros o0 g o Hadv Hin; [by apply elem_of_nil in Hin |].
  cbn [layout] in Hin. cbn [fmap list_fmap sum_nat foldr].
  change (foldr Nat.add 0%nat (sz <$> l)) with (sum_nat (sz <$> l)).
  apply elem_of_cons in Hin as [[= -> ->] | Hin]; [lia |].
  apply IH in Hin; [| intros; apply Hadv; by right].
  rewrite (Hadv g1) in Hin by left. lia.
Qed.

Lemma layout_cover l : ∀ o0 r,
  (∀ g, g ∈ l → adv g = sz g) →
  (o0 ≤ r < o0 + sum_nat (sz <$> l))%nat →
  ∃ g o, (g, o) ∈ layout adv o0 l ∧ (o ≤ r < o + sz g)%nat.
Proof.
  induction l as [|g1 l IH]; intros o0 r Hadv Hr; [simpl in Hr; lia |].
  cbn [fmap list_fmap sum_nat foldr] in Hr.
  change (foldr Nat.add 0%nat (sz <$> l)) with (sum_nat (sz <$> l)) in Hr.
  destruct (decide (r < o0 + sz g1)%nat) as [Hlt | Hge].
  - exists g1, o0. split; [left | lia].
  - destruct (IH (o0 + adv g1)%nat r) as (g & o & Hin & Ho).
    + intros; apply Hadv; by right.
    + rewrite (Hadv g1) by left. lia.
    + exists g, o. split; [by right | done].
Qed.

Lemma layout_disjoint l : ∀ o0 r g o g' o',
  (∀ g, g ∈ l → adv g = sz g) →
  (g, o) ∈ layout adv o0 l → (g', o') ∈ layout adv o0 l →
  (o ≤ r < o + sz g)%nat → (o' ≤ r < o' + sz g')%nat →
  g = g' ∧ o = o'.
Proof.
  induction l as [|g1 l IH]; intros o0 r g o g' o' Hadv Hin Hin' Hr Hr';
    [by apply elem_of_nil in Hin |].
  assert (Hadv' : ∀ g, g ∈ l → adv g = sz g) by (intros; apply Hadv; by right).
  pose proof (Hadv g1 ltac:(left)) as Hg1.
  cbn [layout] in Hin, Hin'.
  apply elem_of_cons in Hin as [[= -> ->] | Hin];
    apply elem_of_cons in Hin' as [[= -> ->] | Hin'].
  - done.
  - apply layout_bounds in Hin'; [lia | done].
  - apply layout_bounds in Hin; [lia | done].
  - by apply (IH (o0 + adv g1)%nat r).
Qed.
End layout.

Lemma place_cons tot sz d g o lay :
  place tot sz d ((g, o) :: lay) = place tot sz (<[g := embedding o (sz g) tot]> d) lay.
Proof. done. Qed.

Lemma place_lookup_other tot sz lay : ∀ d g,
  g ∉ lay.*1 → place tot sz d lay !! g = d !! g.
Proof.
  induction lay as [|[g1 o1] lay IH]; intros d g Hg; [done |].
  cbn in Hg. apply not_elem_of_cons in Hg as [Hne Hg].
  rewrite place_cons, IH by done. by rewrite lookup_insert_ne.
Qed.

Lemma place_lookup_in tot sz lay : ∀ d g o,
  NoDup lay.*1 → (g, o) ∈ lay →
  place tot sz d lay !! g = Some (embedding o (sz g) tot).
Proof.
  induction lay as [|[g1 o1] lay IH]; intros d g o Hnd Hin; [by apply elem_of_nil in Hin |].
  cbn in Hnd. apply NoDup_cons in Hnd as [Hg1 Hnd].
  rewrite place_cons.
  apply elem_of_cons in Hin as [[= -> ->] | Hin].
  - rewrite place_lookup_other by done. by rewrite lookup_insert_eq.
  - by apply IH.
Qed.

Lemma for_each_subgrid_step_layout nd tf tc l : ∀ st st',
  for_each (subgrid_step nd tf tc) st l = Ok st' →
  cell_projection st'.1
    = place tc (cell_size nd) (cell_projection st.1)
        (layout (cell_size nd) (cell_offset st.2) l) ∧
  face_projection st'.1
    = place tf (face_size nd) (face_projection st.1)
        (layout (face_advance nd) (face_offset st.2) l).
Proof.
  induction l as [|g l IH]; intros st st' Hrun.
  - by injection Hrun as <-.
  - simpl in Hrun. destruct (subgrid_step nd tf tc st g) as [st1|] eqn:Hstep; [| done].
    apply subgrid_step_Ok in Hstep as (-> & _).
    apply IH in Hrun as [-> ->]. done.
Qed.

Lemma for_each_subgrid_step_total nd tf tc l : ∀ st,
  (cell_offset st.2 + sum_nat (cell_size nd <$> l) ≤ tc)%nat →
  (face_offset st.2 + sum_nat (face_size nd <$> l) ≤ tf)%nat →
  Forall (λ g, (1 ≤ cell_size nd g)%nat ∧ ((0 < dim g)%nat → (1 ≤ face_size nd g)%nat)) l →
  ∃ st', for_each (subgrid_step nd tf tc) st l = Ok st'.
Proof.
  induction l as [|g l IH]; intros st Hc Hf Hall; [by eexists |].
  apply Forall_cons in Hall as [[Hc1 Hf1] Hall].
  cbn [fmap list_fmap sum_nat foldr] in Hc, Hf.
  change (foldr Nat.add 0%nat (?f <$> l)) with (sum_nat (f <$> l)) in Hc, Hf.
  simpl. rewrite subgrid_step_total by (done || lia).
  cbn [mbind result_bind bind]. apply IH; [| | done]; cbn.
  - lia.
  - unfold face_advance. case_match; lia.
Qed.

Lemma sum_nat_scale (f : Grid → nat) nd l :
  sum_nat ((λ g, f g * nd)%nat <$> l) = (sum_nat (f <$> l) * nd)%nat.
Proof.
  induction l as [|g l IH]; [done |].
  cbn [fmap list_fmap sum_nat foldr].
  change (foldr Nat.add 0%nat (?h <$> l)) with (sum_nat (h <$> l)).
  rewrite IH. lia.
Qed.

(** A dictionary that places pairwise distinct grids at consecutive offsets
    covers the rows exactly once. *)
Lemma place_covers tot sz adv l :
  NoDup l → (∀ g, g ∈ l → adv g = sz g) → tot = sum_nat (sz <$> l) →
  covers (place tot sz ∅ (layout adv 0 l)) tot.
Proof.
  intros Hnd Hadv Htot.
  assert (Hkeys : ∀ g M, place tot sz ∅ (layout adv 0 l) !! g = Some M →
            ∃ o, (g, o) ∈ layout adv 0 l ∧ M = embedding o (sz g) tot).
  { intros g M HM. destruct (decide (g ∈ l)) as [Hg | Hg].
    - rewrite <- (layout_fst adv 0 l) in Hg.
      apply list_elem_of_fmap in Hg as ([g' o] & Heq & Hin). simpl in Heq. subst g'.
      exists o. split; [done |].
      rewrite (place_lookup_in tot sz _ ∅ g o) in HM; [congruence | | done].
      by rewrite layout_fst.
    - rewrite place_lookup_other in HM by (by rewrite layout_fst).
      by apply lookup_empty_Some in HM. }
  split.
  - intros g M (o & _ & ->)%Hkeys. done.
  - intros r Hr.
    destruct (layout_cover adv sz l 0 r Hadv) as (g & o & Hin & Ho); [lia |].
    exists g, (embedding o (sz g) tot), (r - o)%nat. split; [| split; [| split]].
    + apply place_lookup_in; [by rewrite layout_fst | done].
    + cbn. lia.
    + rewrite entry_embedding. nat_cases.
    + intros g' M' c' (o' & Hin' & ->)%Hkeys Hne.
      rewrite entry_embedding in Hne.
      destruct (Nat.ltb_spec c' (sz g')); [| done].
      destruct (Nat.eqb_spec r (o' + c')); [| done].
      destruct (layout_disjoint adv sz l 0 r g o g' o' Hadv Hin Hin') as [-> ->]; try lia.
      split; [done | lia].
Qed.

(** ** The covering property of _subgrid_projections *)

Lemma face_offset_point_grid nd tf tc st g st' :
  dim g = 0%nat →
  subgrid_step nd tf tc st g = Ok st' →
  face_offset st'.2 = face_offset st.2.
Proof.
  intros Hdim (-> & _)%subgrid_step_Ok. cbn. unfold face_advance. rewrite Hdim. cbn. lia.
Qed.

(** C1, amended: for pairwise distinct grids whose point grids have no faces
    and for [nd >= 1], the cell embeddings that [_subgrid_projections] builds
    cover the global cell rows exactly once (each row holds one non-zero
    entry over all embeddings, of value one), and so do the face embeddings;
    a point grid gets an embedding without entries and leaves the face offset
    as it was.  The function returns when every grid has a cell and every
    grid of positive dimension has a face. *)
Theorem subgrid_projections_cover grids nd :
  NoDup grids → (1 ≤ nd)%nat → faceless_points grids →
  covered_once grids nd ∧
  (Forall populated grids → ∃ proj, _subgrid_projections grids nd = Ok proj) ∧
  (∀ proj g, _subgrid_projections grids nd = Ok proj → g ∈ grids → dim g = 0%nat →
     ∃ M, face_projection proj !! g = Some M ∧ triples M = []) ∧
  (∀ tf tc st g st', dim g = 0%nat → subgrid_step nd tf tc st g = Ok st' →
     face_offset st'.2 = face_offset st.2).
Proof.
  intros Hnd Hnd1 Hpoints.
  set (tf := (sum_nat (num_faces <$> grids) * nd)%nat).
  set (tc := (sum_nat (num_cells <$> grids) * nd)%nat).
  assert (Hadv : ∀ g, g ∈ grids → face_advance nd g = face_size nd g).
  { intros g Hg. unfold faceless_points in Hpoints. rewrite Forall_forall in Hpoints.
    specialize (Hpoints g Hg).
    unfold face_advance, face_size. destruct (Nat.ltb_spec 0 (dim g)); [done |].
    rewrite Hpoints by lia. done. }
  assert (Hbuilt : ∀ proj, _subgrid_projections grids nd = Ok proj →
            cell_projection proj = place tc (cell_size nd) ∅ (layout (cell_size nd) 0 grids) ∧
            face_projection proj
              = place tf (face_size nd) ∅ (layout (face_advance nd) 0 grids)).
  { intros proj Hproj. unfold _subgrid_projections in Hproj. fold tf tc in Hproj.
    destruct (for_each _ _ grids) as [st'|] eqn:Hrun; [| done]. injection Hproj as <-.
    by apply for_each_subgrid_step_layout in Hrun. }
  split; [| split; [| split]].
  - intros proj [-> ->]%Hbuilt. fold tf tc. split.
    + apply place_covers; [done | done |]. unfold tc, cell_size. by rewrite sum_nat_scale.
    + apply place_covers; [done | done |]. unfold tf, face_size. by rewrite sum_nat_scale.
  - intros Hpop.
    destruct (for_each_subgrid_step_total nd tf tc grids (Projections ∅ ∅, Offsets 0 0))
      as [st' Hrun].
    { cbn. unfold tc, cell_size. by rewrite sum_nat_scale. }
    { cbn. unfold tf, face_size. by rewrite sum_nat_scale. }
    { eapply Forall_impl; [exact Hpop |]. intros g [Hc Hf].
      unfold cell_size, face_size. split; [nia | intros Hd; specialize (Hf Hd); nia]. }
    exists st'.1. unfold _subgrid_projections. fold tf tc. by rewrite Hrun.
  - intros proj g [_ ->]%Hbuilt Hg Hdim.
    pose proof Hg as Hg'.
    rewrite <- (layout_fst (face_advance nd) 0 grids) in Hg'.
    apply list_elem_of_fmap in Hg' as ([g' o] & Heq & Hin). simpl in Heq. subst g'.
    eexists. split; [apply place_lookup_in; [by rewrite layout_fst | done] |].
    unfold faceless_points in Hpoints. rewrite Forall_forall in Hpoints.
    cbn. unfold face_size. by rewrite (Hpoints g Hg Hdim).
  - apply face_offset_point_grid.
Qed.

(** A segment followed by a point grid, with blocks of size two. *)
Lemma subgrid_projections_cover_witness :
  covered_once [segment; point] 2 ∧
  (Forall populated [segment; point] → ∃ proj, _subgrid_projections [segment; point] 2 = Ok proj) ∧
  (∀ proj g, _subgrid_projections [segment; point] 2 = Ok proj → g ∈ [segment; point] →
     dim g = 0%nat → ∃ M, face_projection proj !! g = Some M ∧ triples M = []) ∧
  (∀ tf tc st g st', dim g = 0%nat → subgrid_step 2 tf tc st g = Ok st' →
     face_offset st'.2 = face_offset st.2).
Proof.
  apply (subgrid_projections_cover [segment; point] 2).
  - apply NoDup_cons. split; [| apply NoDup_singleton].
    intros Hin%list_elem_of_singleton. discriminate Hin.
  - lia.
  - repeat constructor; cbn; lia.
Defined.

(** C1 as stated fails: when a grid occurs twice, the later embedding
    replaces the earlier one in the dictionary, and the global cell row 0,
    which only the earlier one reached, is not covered. *)
Lemma repeated_grid_leaves_gap : ¬ covered_once [segment; segment] 1.
Proof.
  intros Hcov.
  destruct (_subgrid_projections [segment; segment] 1) as [proj|] eqn:Hproj;
    [| vm_compute in Hproj; discriminate Hproj].
  destruct (Hcov proj Hproj) as [[_ Hcells] _].
  unfold _subgrid_projections in Hproj.
  destruct (for_each _ _ _) as [st'|] eqn:Hrun; [| done]. injection Hproj as <-.
  apply for_each_subgrid_step_layout in Hrun as [Hcp _]. cbn in Hcp.
  destruct (Hcells 0%nat ltac:(cbn; lia)) as (g & M & c & HM & Hc & Hentry & _).
  rewrite Hcp in HM.
  apply lookup_insert_Some in HM as [[<- <-] | [Hne HM]].
  - rewrite entry_embedding in Hentry.
    destruct (Nat.eqb_spec 0 (1 + c)); [lia |]. by rewrite andb_false_r in Hentry.
  - apply lookup_insert_Some in HM as [[<- <-] | [_ HM]]; [done |].
    by apply lookup_empty_Some in HM.
Qed.

(** ** Where NotImplementedError can come from *)

Lemma implemented_bind {A B} (m : result A) (k : A → result B) :
  implemented m → (∀ a, m = Ok a → implemented (k a)) → implemented (m ≫= k).
Proof.
  destruct m as [a|e]; cbn [mbind result_bind bind].
  - intros _ H. exact (H a eq_refl).
  - intros H _ [= ->]. by apply H.
Qed.

Lemma implemented_Ok {A} (a : A) : implemented (Ok a).
Proof. done. Qed.

Lemma implemented_traverse {A B} (f : A → result B) l :
  (∀ a, a ∈ l → implemented (f a)) → implemented (traverse f l).
Proof.
  induction l as [|a l IH]; intros Hf; [done |]. simpl.
  apply implemented_bind; [apply Hf; left |]. intros b _.
  apply implemented_bind; [apply IH; intros; apply Hf; by right |]. done.
Qed.

Lemma implemented_for_each {S A} (body : S → A → result S) l : ∀ st,
  (∀ s a, a ∈ l → implemented (body s a)) → implemented (for_each body st l).
Proof.
  induction l as [|a l IH]; intros st Hb; [done |]. simpl.
  apply implemented_bind; [apply Hb; left |]. intros s _.
  apply IH. intros; apply Hb; by right.
Qed.

Lemma implemented_coo_matrix data row col n m : implemented (coo_matrix data row col n m).
Proof. unfold coo_matrix. by repeat case_match. Qed.

Lemma implemented_getitem_last {A} (l : list A) : implemented (getitem_last l).
Proof. unfold getitem_last. by case_match. Qed.

Lemma implemented_matmul A B : implemented (matmul A B).
Proof. unfold matmul. by case_match. Qed.

Lemma implemented_dict_get d g : implemented (dict_get d g).
Proof. unfold dict_get. by case_match. Qed.

Lemma implemented_hstack_from n blocks : ∀ off, implemented (hstack_from n off blocks).
Proof.
  induction blocks as [|B blocks IH]; intros off; [done |]. simpl.
  case_match; [done |]. apply implemented_bind; [apply IH | done].
Qed.

Lemma implemented_bmat_row blocks : implemented (bmat_row blocks).
Proof.
  unfold bmat_row. destruct blocks; [done |].
  apply implemented_bind; [apply implemented_hstack_from | done].
Qed.

(** A column of at least one block is the transposed row of the transposed
    blocks. *)
Lemma bmat_col_nonempty blocks :
  blocks ≠ [] →
  bmat_col blocks = (M ← bmat_row (transpose <$> blocks); Ok (transpose M)).
Proof. by destruct blocks. Qed.

Lemma implemented_bmat_col blocks : implemented (bmat_col blocks).
Proof.
  destruct blocks as [|B blocks]; [done |]. rewrite bmat_col_nonempty by done.
  apply implemented_bind; [apply implemented_bmat_row | done].
Qed.

Lemma implemented_block_diag mats : implemented (block_diag mats).
Proof. unfold block_diag. by destruct mats. Qed.

Lemma implemented_mortar_grid_of gb e : implemented (mortar_grid_of gb e).
Proof. unfold mortar_grid_of, edge_props. by repeat case_match. Qed.

Lemma implemented_subgrid_projections grids nd : implemented (_subgrid_projections grids nd).
Proof.
  unfold _subgrid_projections. apply implemented_bind; [| done].
  apply implemented_for_each. intros [proj off] g _. unfold subgrid_step.
  apply implemented_bind; [apply implemented_coo_matrix |]. intros fp _.
  apply implemented_bind; [apply implemented_coo_matrix |]. intros cp _.
  apply implemented_bind.
  - case_match; [| done]. apply implemented_bind; [apply implemented_getitem_last | done].
  - intros fo _. apply implemented_bind; [apply implemented_getitem_last | done].
Qed.

Lemma implemented_grid_list grids gb : implemented (_grid_list grids gb).
Proof. unfold _grid_list. by repeat case_match. Qed.

Ltac implemented_steps :=
  repeat first
    [ apply implemented_Ok
    | apply implemented_matmul
    | apply implemented_dict_get
    | apply implemented_bmat_row
    | apply implemented_bmat_col
    | apply implemented_block_diag
    | apply implemented_mortar_grid_of
    | apply implemented_bind; [| intros ? ?] ].

(** ** MortarProjections *)

(** A standard triple never raises [NotImplementedError]; a non-standard one
    always does. *)
Lemma mortar_step_standard gb proj nd acc e :
  (∀ mg, mortar_grid_of gb e = Ok mg → non_standard e mg = false) →
  implemented (mortar_step gb proj nd acc e).
Proof.
  intros Hstd. unfold mortar_step. destruct e as [g_primary g_secondary].
  apply implemented_bind; [apply implemented_mortar_grid_of |]. intros mg Hmg.
  rewrite (Hstd mg Hmg). implemented_steps.
Qed.

Lemma mortar_step_non_standard gb proj nd acc e mg :
  mortar_grid_of gb e = Ok mg → non_standard e mg = true →
  mortar_step gb proj nd acc e = Raise NotImplementedError.
Proof.
  intros Hmg Hns. unfold mortar_step. destruct e as [g_primary g_secondary].
  rewrite Hmg. cbn [mbind result_bind bind]. by rewrite Hns.
Qed.

Lemma for_each_Ok_elem {S A} (body : S → A → result S) l : ∀ st st' a,
  for_each body st l = Ok st' → a ∈ l → ∃ s s', body s a = Ok s'.
Proof.
  induction l as [|b l IH]; intros st st' a Hrun Ha; [by apply elem_of_nil in Ha |].
  simpl in Hrun. destruct (body st b) as [s1|] eqn:Hb; [| done].
  apply elem_of_cons in Ha as [-> | Ha]; [eauto | by eapply IH].
Qed.

(** The constructor in terms of the list of edges. *)
Lemma MortarProjections_init_unfold grids gb edges nd :
  MortarProjections_init grids gb edges nd =
  (grid_list ← _grid_list grids gb;
   edge_list ← edge_list_of edges gb;
   proj ← _subgrid_projections grid_list nd;
   blocks ← for_each (mortar_step gb proj nd) no_blocks edge_list;
   a1 ← bmat_row (b_mortar_to_primary_int blocks);
   a2 ← bmat_row (b_mortar_to_primary_avg blocks);
   a3 ← bmat_row (b_mortar_to_secondary_int blocks);
   a4 ← bmat_row (b_mortar_to_secondary_avg blocks);
   a5 ← bmat_col (b_primary_to_mortar_int blocks);
   a6 ← bmat_col (b_primary_to_mortar_avg blocks);
   a7 ← bmat_col (b_secondary_to_mortar_int blocks);
   a8 ← bmat_col (b_secondary_to_mortar_avg blocks);
   mats ← traverse (λ e, mg ← mortar_grid_of gb e; Ok (sign_of_mortar_sides mg nd)) edge_list;
   s ← block_diag mats;
   Ok {| mp_num_edges := length edge_list; mp_nd := nd;
         mp_mortar_to_primary_int := AdMatrix (tocsr a1);
         mp_mortar_to_primary_avg := AdMatrix (tocsr a2);
         mp_mortar_to_secondary_int := AdMatrix (tocsr a3);
         mp_mortar_to_secondary_avg := AdMatrix (tocsr a4);
         mp_primary_to_mortar_int := AdMatrix (tocsr a5);
         mp_primary_to_mortar_avg := AdMatrix (tocsr a6);
         mp_secondary_to_mortar_int := AdMatrix (tocsr a7);
         mp_secondary_to_mortar_avg := AdMatrix (tocsr a8);
         mp_sign_of_mortar_sides := AdMatrix s |}).
Proof. reflexivity. Qed.

(** C3, amended: when some triple is non-standard the construction never
    returns an operator; when the loop over the edges gets as far as that
    triple (the grid list and the embeddings were built and the earlier
    triples raised nothing) the error is [NotImplementedError]; and when
    every triple is standard, [NotImplementedError] is not raised. *)
Theorem mortar_projections_dimension_check grids gb edges nd :
  (∀ edge_list e mg mp,
     edge_list_of edges gb = Ok edge_list → e ∈ edge_list →
     mortar_grid_of gb e = Ok mg → non_standard e mg = true →
     MortarProjections_init grids gb edges nd ≠ Ok mp) ∧
  (∀ grid_list proj pre e post acc mg,
     _grid_list grids gb = Ok grid_list →
     edge_list_of edges gb = Ok (pre ++ e :: post) →
     _subgrid_projections grid_list nd = Ok proj →
     for_each (mortar_step gb proj nd) no_blocks pre = Ok acc →
     mortar_grid_of gb e = Ok mg → non_standard e mg = true →
     MortarProjections_init grids gb edges nd = Raise NotImplementedError) ∧
  ((∀ edge_list e mg,
      edge_list_of edges gb = Ok edge_list → e ∈ edge_list →
      mortar_grid_of gb e = Ok mg → non_standard e mg = false) →
   MortarProjections_init grids gb edges nd ≠ Raise NotImplementedError).
Proof.
  rewrite MortarProjections_init_unfold. split; [| split].
  - intros edge_list e mg mp Hel He Hmg Hns Hinit.
    destruct (_grid_list grids gb) as [grid_list|]; [| done].
    rewrite Hel in Hinit. cbn [mbind result_bind bind] in Hinit.
    destruct (_subgrid_projections grid_list nd) as [proj|]; [| done].
    cbn [mbind result_bind bind] in Hinit.
    destruct (for_each _ _ edge_list) as [blocks|] eqn:Hrun; [| done].
    destruct (for_each_Ok_elem _ _ _ _ e Hrun He) as (s & s' & Hstep).
    by rewrite (mortar_step_non_standard gb proj nd s e mg) in Hstep.
  - intros grid_list proj pre e post acc mg Hgl Hel Hproj Hpre Hmg Hns.
    rewrite Hgl, Hel. cbn [mbind result_bind bind]. rewrite Hproj.
    cbn [mbind result_bind bind]. rewrite for_each_app, Hpre.
    cbn [mbind result_bind bind for_each].
    by rewrite (mortar_step_non_standard gb proj nd acc e mg).
  - intros Hstd.
    apply implemented_bind; [apply implemented_grid_list |]. intros grid_list _.
    apply implemented_bind; [unfold edge_list_of; by repeat case_match |].
    intros edge_list Hel.
    apply implemented_bind; [apply implemented_subgrid_projections |]. intros proj _.
    apply implemented_bind.
    { apply implemented_for_each. intros s e He. apply mortar_step_standard.
      intros mg Hmg. by apply (Hstd edge_list). }
    intros blocks _. implemented_steps.
    apply implemented_traverse. intros e _. implemented_steps.
Qed.

(** The identity for the segment in the sequence of a segment and a point
    grid, with blocks of size two. *)
Lemma restriction_prolongation_identity_witness :
  ∃ sp R P,
    SubdomainProjections_init (Some [segment; point]) None 2 = Ok sp ∧
    cell_restriction sp (OneGrid segment) = Ok R ∧
    cell_prolongation sp (OneGrid segment) = Ok P ∧
    matmul (mat R) (mat P) = Ok (identity (num_cells segment * 2)).
Proof.
  destruct (SubdomainProjections_init (Some [segment; point]) None 2) as [sp|e] eqn:Hinit;
    [| vm_compute in Hinit; discriminate Hinit].
  destruct (restriction_prolongation_identity
              (Some [segment; point]) None 2 [segment; point] sp segment)
    as (R & P & HR & HP & HRP & _); [reflexivity | exact Hinit | left |].
  exists sp, R, P. auto.
Defined.

(** One non-standard edge, reached by the loop: [NotImplementedError]. *)
Lemma mortar_projections_dimension_check_witness :
  MortarProjections_init (Some [plane; segment]) (Some bucket) (Some [exchanged_edge]) 1
  = Raise NotImplementedError.
Proof.
  eapply (proj1 (proj2 (mortar_projections_dimension_check
                          (Some [plane; segment]) (Some bucket) (Some [exchanged_edge]) 1))
            _ _ [] exchanged_edge [] no_blocks (bare_mortar 1));
    reflexivity.
Defined.

(** C3 as stated fails: the standard edge comes first and its primary grid is
    not among the grids, so the construction ends in [KeyError] before the
    non-standard edge is looked at. *)
Lemma earlier_failure_hides_dimension_check :
  ¬ dimension_check_as_stated (Some [segment]) (Some bucket)
      (Some [standard_edge; exchanged_edge]) 1.
Proof.
  intros H.
  specialize (H [standard_edge; exchanged_edge] exchanged_edge (bare_mortar 1)).
  assert (Hinit : MortarProjections_init (Some [segment]) (Some bucket)
            (Some [standard_edge; exchanged_edge]) 1 = Raise KeyError)
    by (vm_compute; reflexivity).
  rewrite Hinit in H.
  discriminate H; [reflexivity | right; left | reflexivity | reflexivity].
Qed.

End GridOperatorsProofs.

(** * Further properties of grids/partition.py *)

Module PartitionExtras.
Import Partition PartitionSpec PartitionProofs PartitionExtraSpec.

(** ** The coarse index along one dimension *)

Lemma removelast_fmap_seq {A} (g : nat → A) n :
  removelast (g <$> seq 0 n) = g <$> seq 0 (n - 1).
Proof.
  destruct n as [|n]; [done |].
  rewrite seq_S, fmap_app. cbn [fmap list_fmap plus].
  rewrite removelast_last. by replace (S n - 1)%nat with n by lia.
Qed.

Lemma elem_of_multiples (step : Z) (n j : nat) :
  1 ≤ step →
  Z.of_nat j ∈ (λ m, Z.of_nat m * step) <$> seq 0 n ↔
  Z.of_nat j `mod` step = 0 ∧ Z.of_nat j `div` step < Z.of_nat n.
Proof.
  intros Hstep. rewrite list_elem_of_fmap. split.
  - intros (m & -> & Hm). apply elem_of_seq in Hm.
    rewrite Z.mod_mul, Z.div_mul by lia. lia.
  - intros [Hmod Hdiv].
    pose proof (Z.div_mod (Z.of_nat j) step ltac:(lia)) as Hj.
    assert (0 ≤ Z.of_nat j `div` step) by (apply Z.div_pos; lia).
    exists (Z.to_nat (Z.of_nat j `div` step)). split.
    + rewrite Z2Nat.id by done. lia.
    + apply elem_of_seq. lia.
Qed.

Lemma cumsum_from_seq (g F : nat → Z) :
  (∀ j, F (S j) = F j + g j) →
  ∀ m a, cumsum_from (F a) (g <$> seq a m) = (λ j, F (S j)) <$> seq a m.
Proof.
  intros HF. induction m as [|m IH]; intros a; [done |].
  cbn [seq fmap list_fmap cumsum_from]. rewrite <- HF. f_equal. apply IH.
Qed.

Lemma boundaries_below_step (step : Z) (n' j : nat) :
  1 ≤ step →
  boundaries_below step (Z.of_nat n') (S j) =
  boundaries_below step (Z.of_nat n') j +
  (if bool_decide (Z.of_nat j ∈ (λ m, Z.of_nat m * step) <$> seq 0 n') then 1 else 0).
Proof.
  intros Hstep.
  pose proof (elem_of_multiples step n' j Hstep) as Hel.
  destruct j as [|j]; cbn [boundaries_below].
  - change (Z.of_nat 0) with 0 in *. rewrite Z.div_0_l in * by lia.
    rewrite Z.mod_0_l in Hel by lia.
    case_bool_decide as Hin; [apply Hel in Hin | ]; [lia |].
    assert (¬ 0 < Z.of_nat n') by (intros ?; apply Hin, Hel; lia). lia.
  - pose proof (Z.div_mod (Z.of_nat j) step ltac:(lia)) as Hj.
    pose proof (Z.mod_pos_bound (Z.of_nat j) step ltac:(lia)) as Hr.
    set (q := Z.of_nat j `div` step) in *. set (r := Z.of_nat j `mod` step) in *.
    destruct (decide (r = step - 1)) as [Hlast | Hmid].
    + assert (Z.of_nat (S j) `div` step = q + 1) as Hq
        by (symmetry; apply (Z.div_unique _ _ _ 0); lia).
      assert (Z.of_nat (S j) `mod` step = 0) as Hm
        by (symmetry; apply (Z.mod_unique _ _ (q + 1)); lia).
      rewrite Hq, Hm in *.
      case_bool_decide as Hin; [apply Hel in Hin | ]; [lia |].
      assert (¬ q + 1 < Z.of_nat n') by (intros ?; apply Hin, Hel; lia). lia.
    + assert (Z.of_nat (S j) `div` step = q) as Hq
        by (symmetry; apply (Z.div_unique _ _ _ (r + 1)); lia).
      assert (Z.of_nat (S j) `mod` step = r + 1) as Hm
        by (symmetry; apply (Z.mod_unique _ _ q); lia).
      rewrite Hq, Hm in *.
      case_bool_decide as Hin; [apply Hel in Hin | ]; lia.
Qed.

Lemma imap_replicate {A B} (h : nat → A → B) n x :
  imap h (replicate n x) = (λ j, h j x) <$> seq 0 n.
Proof.
  apply list_eq; intros i. rewrite list_lookup_imap, list_lookup_fmap.
  destruct (decide (i < n)%nat) as [Hi | Hi].
  - by rewrite lookup_replicate_2, lookup_seq_lt by done.
  - rewrite (lookup_ge_None_2 (replicate n x)), lookup_seq_ge
      by (rewrite ?length_replicate; lia).
    done.
Qed.

(** The labels along one dimension: the loop body of [partition_structured]
    computes [group_label] for every cell. *)
Lemma coarse_index_labels fine_dims coarse_dims fine_per_coarse i f step c :
  fine_dims !! i = Some f → fine_per_coarse !! i = Some step →
  coarse_dims !! i = Some c →
  1 ≤ f → 1 ≤ step →
  coarse_index fine_dims coarse_dims fine_per_coarse i =
  Ok (group_label f step c <$> cells f).
Proof.
  intros Hf Hs Hc Hf1 Hs1. unfold coarse_index, getitem.
  rewrite Hf, Hs, Hc. cbn [mbind result_bind bind].
  unfold arange_step. destruct (Z.eqb_spec step 0) as [? | _]; [lia |].
  cbn [mbind result_bind bind]. rewrite length_fmap, length_seq.
  unfold zeros. destruct (Z.ltb_spec f 0) as [? | _]; [lia |].
  cbn [mbind result_bind bind]. f_equal.
  set (n := - ((- f) `div` step)).
  assert (1 ≤ n) as Hn.
  { unfold n. assert ((- f) `div` step < 0); [| lia].
    apply Z.div_lt_upper_bound; lia. }
  set (n' := if c <? Z.of_nat (Z.to_nat n) then (Z.to_nat n - 1)%nat else Z.to_nat n).
  assert ((if c <? Z.of_nat (Z.to_nat n)
           then removelast ((λ j, Z.of_nat j * step) <$> seq 0 (Z.to_nat n))
           else (λ j, Z.of_nat j * step) <$> seq 0 (Z.to_nat n))
          = (λ j, Z.of_nat j * step) <$> seq 0 n') as ->.
  { unfold n'. destruct (c <? _); [apply removelast_fmap_seq | done]. }
  assert (group_count f step c = Z.of_nat n') as Hcount.
  { unfold group_count, n'. fold n. rewrite Z2Nat.id by lia.
    destruct (c <? n); lia. }
  rewrite imap_replicate. unfold cumsum, cells.
  change 0 with (boundaries_below step (Z.of_nat n') 0) at 1.
  replace (λ j : nat, if bool_decide (Z.of_nat j ∈ _) then 0 + 1 else 0)
    with (λ j : nat, if bool_decide
            (Z.of_nat j ∈ (λ m, Z.of_nat m * step) <$> seq 0 n') then 1 else 0)
    by done.
  rewrite cumsum_from_seq by (intros j; by apply boundaries_below_step).
  rewrite <- !list_fmap_compose. apply list_fmap_ext. intros _ j _.
  cbn [compose boundaries_below]. unfold group_label. rewrite Hcount. lia.
Qed.

(** ** Combining the dimensions *)

Lemma meshgrid2_combine (h : Z → Z → Z) (a b : list Z) :
  concat (zip_with (zip_with h) (meshgrid2 a b).1 (meshgrid2 a b).2)
  = y ← b; x ← a; [h x y].
Proof.
  unfold meshgrid2. cbn [fst snd].
  induction b as [|y b IH]; [done |].
  cbn [length replicate fmap list_fmap zip_with concat mbind list_bind].
  rewrite IH. f_equal.
  rewrite zip_with_replicate_r_eq by done.
  clear. induction a as [|x a IHa]; [done |]. cbn. by f_equal.
Qed.

Lemma floor_divide_2 fx fy cx cy :
  cx ≠ 0 → cy ≠ 0 →
  floor_divide [fx; fy] [cx; cy] = Ok [fx `div` cx; fy `div` cy].
Proof.
  intros Hx Hy. unfold floor_divide. cbn [existsb].
  destruct (Z.eqb_spec cx 0); [done |]. destruct (Z.eqb_spec cy 0); [done |].
  done.
Qed.

Lemma stride_pos f c : 1 ≤ c ≤ f → 1 ≤ f `div` c.
Proof. intros ?. assert (0 < f `div` c); [apply Z.div_str_pos |]; lia. Qed.

Lemma length_bind_const {A B} (g : A → list B) (l : list A) n :
  (∀ a, length (g a) = n) → length (l ≫= g) = (length l * n)%nat.
Proof.
  intros H. induction l as [|a l IH]; [done |].
  rewrite bind_cons, length_app, H, IH. cbn [length]. lia.
Qed.

Lemma elem_of_cells f x : x ∈ cells f ↔ 0 ≤ x < f.
Proof.
  unfold cells. rewrite list_elem_of_fmap. split.
  - intros (j & -> & Hj). apply elem_of_seq in Hj. lia.
  - intros Hx. exists (Z.to_nat x). rewrite elem_of_seq. lia.
Qed.

Lemma length_cells f : length (cells f) = Z.to_nat f.
Proof. unfold cells. by rewrite length_fmap, length_seq. Qed.

(** The labels on a two-dimensional grid, for any admissible coarse extents. *)
Lemma partition_structured_2d cf fx fy cx cy num_part :
  1 ≤ cx ≤ fx → 1 ≤ cy ≤ fy →
  partition_structured {| cell_faces := cf; dim := 2; cart_dims := [fx; fy] |}
    (Some [cx; cy]) num_part
  = Ok (y ← cells fy; x ← cells fx;
        [group_label fx (fx `div` cx) cx x + group_label fy (fy `div` cy) cy y * cx]).
Proof.
  intros Hx Hy.
  pose proof (stride_pos fx cx Hx). pose proof (stride_pos fy cy Hy).
  unfold partition_structured. cbn [dim cart_dims].
  rewrite floor_divide_2 by lia. cbn [mbind result_bind bind seq traverse].
  rewrite (coarse_index_labels _ _ _ 0 fx (fx `div` cx) cx) by (done || lia).
  rewrite (coarse_index_labels _ _ _ 1 fy (fy `div` cy) cy) by (done || lia).
  cbn [mbind result_bind bind Nat.eqb getitem lookup list_lookup].
  set (a := group_label fx _ cx <$> cells fx).
  set (b := group_label fy _ cy <$> cells fy).
  pose proof (meshgrid2_combine (λ x y, x + y * cx) a b) as Hm.
  destruct (meshgrid2 a b) as [xi yi]. cbn [fst snd] in Hm. rewrite Hm.
  unfold a, b. rewrite list_fmap_bind. f_equal.
  apply GridOperatorsProofs.bind_ext_in. intros y _. cbn [compose].
  by rewrite list_fmap_bind.
Qed.

Lemma length_bind2 {A} (g : Z → Z → A) fx fy :
  0 ≤ fx → 0 ≤ fy →
  length (y ← cells fy; x ← cells fx; [g x y]) = Z.to_nat (fx * fy).
Proof.
  intros Hx Hy.
  rewrite (length_bind_const _ _ (Z.to_nat fx)), length_cells by
    (intros y; rewrite (length_bind_const _ _ 1%nat), length_cells by done; lia).
  lia.
Qed.



Lemma group_label_divisible f c j :
  1 ≤ c → (c | f) → 0 ≤ j < f →
  group_label f (f `div` c) c j = j `div` (f `div` c) ∧
  0 ≤ j `div` (f `div` c) < c.
Proof.
  intros Hc [s ->] Hj. rewrite Z.div_mul by lia.
  assert (1 ≤ s) by nia.
  assert (0 ≤ j `div` s < c) as Hq.
  { split; [apply Z.div_pos; lia | apply Z.div_lt_upper_bound; lia]. }
  split; [| done]. unfold group_label, group_count.
  replace (- (s * c)) with ((- c) * s) by lia. rewrite Z.div_mul by lia.
  replace (- - c) with c by lia. rewrite Z.ltb_irrefl. lia.
Qed.



(** ** Three dimensions *)

Lemma zip_with_replicate_fmap {A B C D} (g : A → B → C) (u : A) (k : D → B) (b : list D) :
  zip_with g (replicate (length b) u) (k <$> b) = (λ y, g u (k y)) <$> b.
Proof. induction b as [|y b IH]; [done |]. cbn. by rewrite <- IH. Qed.

Lemma zip_with_fmap_replicate {A B C D} (g : A → B → C) (k : D → A) (v : B) (a : list D) :
  zip_with g (k <$> a) (replicate (length a) v) = (λ x, g (k x) v) <$> a.
Proof. induction a as [|x a IH]; [done |]. cbn. by rewrite <- IH. Qed.

Lemma omap_lookup_fmap {X Y A} (F : X → Y → A) (a : list X) (c : list Y) j z :
  c !! j = Some z →
  omap (λ r : list A, r !! j) ((λ x, F x <$> c) <$> a) = (λ x, F x z) <$> a.
Proof.
  intros Hz. induction a as [|x a IH]; [done |].
  cbn [fmap list_fmap omap list_omap].
  change (list_fmap ?A ?B ?f ?l) with (f <$> l).
  rewrite list_lookup_fmap, Hz. cbn [fmap option_fmap option_map].
  f_equal. apply IH.
Qed.

(** Exchanging the two axes of a rectangular nested list. *)
Lemma transpose2_fmap {X Y A} (F : X → Y → A) (a : list X) (c : list Y) :
  a ≠ [] →
  transpose2 ((λ x, F x <$> c) <$> a) = (λ z, (λ x, F x z) <$> a) <$> c.
Proof.
  intros Ha. destruct a as [|x0 a]; [done |]. unfold transpose2.
  cbn [fmap list_fmap]. change (list_fmap ?A ?B ?f ?l) with (f <$> l).
  rewrite length_fmap. apply list_eq. intros j.
  rewrite !list_lookup_fmap.
  destruct (c !! j) as [z|] eqn:Hz.
  - rewrite lookup_seq_lt by (by eapply lookup_lt_Some).
    cbn [fmap option_fmap option_map]. f_equal.
    apply (omap_lookup_fmap F (x0 :: a) c j z Hz).
  - rewrite lookup_seq_ge by (by apply lookup_ge_None). done.
Qed.

Lemma meshgrid3_combine (h : Z * Z → Z → Z) (a b c : list Z) :
  a ≠ [] → b ≠ [] →
  let '(xi, yi, zi) := meshgrid3 a b c in
  concat (concat (swapaxes01 (swapaxes12
    (zip_with (zip_with (zip_with h)) (zip_with (zip_with zip) xi yi) zi))))
  = z ← c; y ← b; x ← a; [h (x, y) z].
Proof.
  intros Ha Hb. unfold meshgrid3.
  rewrite zip_with_replicate_fmap.
  rewrite (list_fmap_ext _ (λ y, (λ x, replicate (length c) (x, y)) <$> a) b).
  2: { intros _ y _. rewrite zip_with_fmap_replicate.
       apply list_fmap_ext. intros _ x _. apply zip_with_replicate. }
  rewrite zip_with_fmap_replicate.
  rewrite (list_fmap_ext _ (λ y, (λ x, (λ z, h (x, y) z) <$> c) <$> a) b).
  2: { intros _ y _. rewrite zip_with_fmap_replicate.
       apply list_fmap_ext. intros _ x _. by apply zip_with_replicate_l. }
  unfold swapaxes12, swapaxes01. rewrite <- list_fmap_compose.
  rewrite (list_fmap_ext _ (λ y, (λ z, (λ x, h (x, y) z) <$> a) <$> c) b).
  2: { intros _ y _. cbn [compose].
       apply (transpose2_fmap (λ x z, h (x, y) z)); done. }
  rewrite (transpose2_fmap (λ y z, (λ x, h (x, y) z) <$> a) b c Hb).
  clear. induction c as [|z c IH]; [done |].
  cbn [fmap list_fmap concat]. rewrite concat_app, bind_cons.
  change (list_fmap ?A ?B ?f ?l) with (f <$> l). rewrite IH. f_equal.
  clear. induction b as [|y b IH]; [done |].
  cbn [fmap list_fmap concat]. rewrite bind_cons.
  change (list_fmap ?A ?B ?f ?l) with (f <$> l).
  by rewrite IH, GridOperatorsProofs.bind_singleton_fmap.
Qed.

Lemma floor_divide_3 fx fy fz cx cy cz :
  cx ≠ 0 → cy ≠ 0 → cz ≠ 0 →
  floor_divide [fx; fy; fz] [cx; cy; cz] = Ok [fx `div` cx; fy `div` cy; fz `div` cz].
Proof.
  intros Hx Hy Hz. unfold floor_divide. cbn [existsb].
  destruct (Z.eqb_spec cx 0); [done |]. destruct (Z.eqb_spec cy 0); [done |].
  destruct (Z.eqb_spec cz 0); [done |]. done.
Qed.

Lemma cells_nonempty {A} (g : Z → A) f : 1 ≤ f → g <$> cells f ≠ [].
Proof.
  intros Hf Hnil. apply (f_equal length) in Hnil.
  rewrite length_fmap, length_cells in Hnil. cbn in Hnil. lia.
Qed.

(** The labels on a three-dimensional grid, for any admissible coarse
    extents. *)
Lemma partition_structured_3d cf fx fy fz cx cy cz num_part :
  1 ≤ cx ≤ fx → 1 ≤ cy ≤ fy → 1 ≤ cz ≤ fz →
  partition_structured
    {| cell_faces := cf; dim := 3; cart_dims := [fx; fy; fz] |}
    (Some [cx; cy; cz]) num_part
  = Ok (z ← cells fz; y ← cells fy; x ← cells fx;
        [group_label fx (fx `div` cx) cx x
         + group_label fy (fy `div` cy) cy y * cx
         + group_label fz (fz `div` cz) cz z * (cx * cy)]).
Proof.
  intros Hx Hy Hz.
  pose proof (stride_pos fx cx Hx). pose proof (stride_pos fy cy Hy).
  pose proof (stride_pos fz cz Hz).
  unfold partition_structured. cbn [dim cart_dims].
  rewrite floor_divide_3 by lia. cbn [mbind result_bind bind seq traverse].
  rewrite (coarse_index_labels _ _ _ 0 fx (fx `div` cx) cx) by (done || lia).
  rewrite (coarse_index_labels _ _ _ 1 fy (fy `div` cy) cy) by (done || lia).
  rewrite (coarse_index_labels _ _ _ 2 fz (fz `div` cz) cz) by (done || lia).
  cbn [mbind result_bind bind Nat.eqb getitem lookup list_lookup].
  set (a := group_label fx _ cx <$> cells fx).
  set (b := group_label fy _ cy <$> cells fy).
  set (c := group_label fz _ cz <$> cells fz).
  pose proof (meshgrid3_combine
    (λ xy z, xy.1 + xy.2 * cx + z * prod (take 2 [cx; cy; cz])) a b c) as Hm.
  destruct (meshgrid3 a b c) as [[xi yi] zi].
  rewrite Hm by (by apply cells_nonempty; lia).
  unfold a, b, c. rewrite list_fmap_bind. f_equal.
  apply GridOperatorsProofs.bind_ext_in. intros z _. cbn [compose].
  rewrite list_fmap_bind.
  apply GridOperatorsProofs.bind_ext_in. intros y _. cbn [compose].
  rewrite list_fmap_bind.
  apply GridOperatorsProofs.bind_ext_in. intros x _.
  unfold prod. cbn [compose fst snd take foldr]. f_equal. ring.
Qed.

Lemma length_bind3 {A} (g : Z → Z → Z → A) fx fy fz :
  0 ≤ fx → 0 ≤ fy → 0 ≤ fz →
  length (z ← cells fz; y ← cells fy; x ← cells fx; [g x y z])
  = Z.to_nat (fx * fy * fz).
Proof.
  intros Hx Hy Hz.
  rewrite (length_bind_const _ _ (Z.to_nat (fx * fy))), length_cells
    by (intros z; apply length_bind2; lia).
  rewrite <- Z2Nat.inj_mul by nia. f_equal. ring.
Qed.



(** ** Other dimensions *)

Lemma traverse_Ok {A B} (f : A → result B) (l : list A) :
  (∀ a, a ∈ l → ∃ b, f a = Ok b) → ∃ bs, traverse f l = Ok bs.
Proof.
  induction l as [|a l IH]; intros H; [by eexists |].
  destruct (H a) as [b Hb]; [left |].
  destruct IH as [bs Hbs]; [intros a' Ha'; apply H; by right |].
  exists (b :: bs). cbn [traverse]. by rewrite Hb, Hbs.
Qed.

Lemma floor_divide_Ok fine coarse :
  Forall2 (λ c f, 1 ≤ c ≤ f) coarse fine →
  floor_divide fine coarse = Ok (zip_with Z.div fine coarse).
Proof.
  intros H. unfold floor_divide.
  assert (existsb (λ c, c =? 0) coarse = false) as ->.
  { induction H as [|c f ? ? Hc _ IH]; [done |]. cbn [existsb].
    destruct (Z.eqb_spec c 0); [lia | done]. }
  unfold broadcast2. apply Forall2_length in H. rewrite H, Nat.eqb_refl. done.
Qed.

Lemma coarse_index_Ok fine coarse i :
  Forall2 (λ c f, 1 ≤ c ≤ f) coarse fine →
  (i < length fine)%nat →
  ∃ labels, coarse_index fine coarse (zip_with Z.div fine coarse) i = Ok labels.
Proof.
  intros H Hi.
  destruct (lookup_lt_is_Some_2 fine i Hi) as [f Hf].
  destruct (Forall2_lookup_r _ _ _ _ _ H Hf) as (c & Hc & Hcf).
  eexists. apply (coarse_index_labels _ _ _ i f (f `div` c) c); try done; try lia.
  - apply lookup_zip_with_Some. eauto.
  - by apply stride_pos.
Qed.

(** X4.  [partition_structured] returns labels only for grids of dimension
    two or three.  For any other dimension every call ends in an exception;
    when the coarse extents lie between 1 and the fine extents, so that the
    loop over the dimensions goes through, the exception is the unbound
    local variable [glob_dims] of the return statement. *)
Theorem partition_structured_other_dimension g coarse_dims num_part :
  dim g ≠ 2%nat → dim g ≠ 3%nat →
  (∃ e, partition_structured g coarse_dims num_part = Raise e) ∧
  (∀ coarse,
     coarse_dims = Some coarse →
     Forall2 (λ c f, 1 ≤ c ≤ f) coarse (cart_dims g) →
     (dim g ≤ length (cart_dims g))%nat →
     partition_structured g coarse_dims num_part
       = Raise (UnboundLocalError "glob_dims")).
Proof.
  intros H2 H3.
  assert (∀ coarse, partition_structured g (Some coarse) num_part =
    (fine_per_coarse ← floor_divide (cart_dims g) coarse;
     ind ← traverse (coarse_index (cart_dims g) coarse fine_per_coarse) (seq 0 (dim g));
     Raise (UnboundLocalError "glob_dims"))) as Hunfold.
  { intros coarse. unfold partition_structured.
    destruct (Nat.eqb_spec (dim g) 2); [done |].
    destruct (Nat.eqb_spec (dim g) 3); done. }
  split.
  - destruct coarse_dims as [coarse|].
    + rewrite Hunfold. destruct (floor_divide _ _) as [fpc | e]; [| by eexists].
      cbn [mbind result_bind bind].
      destruct (traverse _ _) as [ind | e]; by eexists.
    + destruct num_part; by eexists.
  - intros coarse -> Hbounds Hlen. rewrite Hunfold.
    rewrite floor_divide_Ok by done. cbn [mbind result_bind bind].
    destruct (traverse_Ok
      (coarse_index (cart_dims g) coarse (zip_with Z.div (cart_dims g) coarse))
      (seq 0 (dim g))) as [ind ->]; [| done].
    intros i Hi%elem_of_seq. apply coarse_index_Ok; [done | lia].
Qed.

Lemma partition_structured_other_dimension_witness :
  (∃ e, partition_structured path4 (Some [2]) None = Raise e) ∧
  (∀ coarse,
     Some [2] = Some coarse →
     Forall2 (λ c f, 1 ≤ c ≤ f) coarse (cart_dims path4) →
     (dim path4 ≤ length (cart_dims path4))%nat →
     partition_structured path4 (Some [2]) None
       = Raise (UnboundLocalError "glob_dims")).
Proof. apply partition_structured_other_dimension; cbn; lia. Defined.

(** ** determine_coarse_dimensions at its extremes *)

(** The loop with the root in exact arithmetic, unfolded by one layer. *)
Lemma determine_coarse_dimensions_unfold target fine_size :
  determine_coarse_dimensions target fine_size =
  let target := Z.max 1 (Z.min target (int64 (prod fine_size))) in
  let nd := length fine_size in
  let st0 := LoopState (replicate nd 1) (replicate nd false) 0 in
  let st := while_loop (nd + 2) target fine_size st0 in
  if (nd <? it_counter st)%nat then Raise ValueError else Ok (optimum st).
Proof. reflexivity. Qed.

Lemma while_loop_unfold r target fine_size st :
  while_loop (S r) target fine_size st =
  if loop_guard (length fine_size) st
  then while_loop r target fine_size (loop_body target fine_size st)
  else st.
Proof. reflexivity. Qed.

Lemma loop_body_unfold target fine_size st :
  loop_body target fine_size st =
  let c := resolve_ceiling target fine_size st in
  if any_nonzero (cs_hit_ceil c)
  then LoopState (cs_optimum c) (cs_found c) (S (it_counter st))
  else LoopState (combination_search target fine_size c) ((λ _, true) <$> cs_found c)
         (S (it_counter st)).
Proof. reflexivity. Qed.

Lemma prod_all_ones a : all_ones a → prod a = 1.
Proof.
  unfold prod. induction 1 as [|x a -> _ IH]; [done |]. cbn [foldr]. by rewrite IH.
Qed.

Lemma all_ones_replicate a : all_ones a → a = replicate (length a) 1.
Proof. induction 1 as [|x a -> _ IH]; [done |]. cbn. by rewrite <- IH. Qed.

Lemma root_floor_one k : root_floor 1 1 k = 1.
Proof.
  unfold root_floor. change (Z.to_nat 1) with 1%nat. cbn [root_floor_below].
  change (Z.of_nat 1) with 1. rewrite Z.pow_1_l by lia. done.
Qed.

Lemma root_ceil_one k : root_ceil 1 1 k = 1.
Proof. unfold root_ceil. rewrite root_floor_one, Z.pow_1_l by lia. done. Qed.

Section ones.
Variables (fine_size : list Z) (st : loop_state).
Hypothesis Hinv : coarse_inv fine_size st.
Hypothesis Hones : all_ones (optimum st).

Local Abbreviation c1 := (resolve_ceiling 1 fine_size st).

Lemma ones_lookup i :
  (i < length fine_size)%nat →
  ∃ lo hi b,
    cs_optimum c1 !! i = Some 1 ∧ (coarse_rows c1).1 !! i = Some lo ∧
    (coarse_rows c1).2 !! i = Some hi ∧ cs_found c1 !! i = Some b ∧
    lo = 1 ∧ hi = 1.
Proof.
  intros Hi. destruct Hinv as [Hlen Hbounds].
  destruct (lookup_lt_is_Some_2 fine_size i Hi) as [f Hf].
  destruct (Forall2_lookup_r _ _ _ _ _ Hbounds Hf) as (o & Ho & Hof).
  destruct (lookup_lt_is_Some_2 (found st) i ltac:(lia)) as [b Hb].
  assert (o = 1) as -> by (by eapply (proj1 (Forall_lookup _ _) Hones)).
  pose proof (cs_optimum_lookup 1 fine_size st i f 1 b Hf Ho Hb) as Hopt.
  pose proof (cs_found_lookup 1 fine_size st i f b Hf Hb) as Hfound.
  pose proof (cs_s_low_lookup 1 fine_size st i f Hf) as Hlow.
  pose proof (cs_s_high_lookup 1 fine_size st i f Hf) as Hhigh.
  rewrite (prod_all_ones _ Hones), ?root_floor_one, ?root_ceil_one in *.
  replace (Z.min f 1) with 1 in * by lia.
  assert (cs_optimum c1 !! i = Some 1) as Hopt1
    by (rewrite Hopt; by destruct (hit_at _ _ _)).
  eexists _, _, _. split; [done |]. unfold coarse_rows. cbn [fst snd].
  split; [by eapply assign_mask_lookup |].
  split; [by eapply assign_mask_lookup |].
  split; [done |]. by destruct (if hit_at f 1 b then true else b).
Qed.

Lemma cs_optimum_ones : all_ones (cs_optimum c1).
Proof.
  apply Forall_lookup. intros i x Hx.
  destruct (resolve_ceiling_lengths 1 fine_size st) as (_ & _ & Hlen & _).
  destruct Hinv as [_ Hbounds%Forall2_length].
  destruct (ones_lookup i) as (? & ? & ? & Hopt & _).
  { apply lookup_lt_Some in Hx. lia. }
  congruence.
Qed.

Lemma combination_search_ones : all_ones (combination_search 1 fine_size c1).
Proof.
  unfold combination_search.
  destruct (foldl_try_combination_cases 1
    [assign_mask (cs_s_low c1) (cs_optimum c1) (cs_found c1);
     assign_mask (cs_s_high c1) (cs_optimum c1) (cs_found c1)]
    (multinary_permutations 2 (length fine_size))
    (int64 (prod fine_size), cs_optimum c1)) as [-> | (p & Hp & ->)];
    [apply cs_optimum_ones |].
  apply multinary_permutations_elem in Hp as [Hlen Hbits].
  destruct (resolve_ceiling_lengths 1 fine_size st) as (Hl1 & Hl2 & Hl3 & Hl4).
  destruct Hinv as [Hlf Hbounds%Forall2_length].
  rewrite size_now_pick by
    (done || rewrite assign_mask_length; lia).
  apply Forall_lookup. intros i x Hx. unfold pick in Hx.
  apply lookup_zip_with_Some in Hx as (bit & [lo hi] & -> & Hbit & Hc).
  apply lookup_zip_Some in Hc as [Hlo Hhi].
  destruct (ones_lookup i) as (lo' & hi' & ? & _ & Hlo' & Hhi' & _ & -> & ->).
  { apply lookup_lt_Some in Hbit. lia. }
  unfold coarse_rows in Hlo', Hhi'. cbn [fst snd] in *.
  assert (lo = 1) as -> by congruence. assert (hi = 1) as -> by congruence.
  by destruct (bit =? 0)%nat.
Qed.

Lemma loop_body_ones : all_ones (optimum (loop_body 1 fine_size st)).
Proof.
  rewrite loop_body_unfold. cbv zeta. destruct (any_nonzero _); cbn [optimum];
    [apply cs_optimum_ones | apply combination_search_ones].
Qed.

End ones.

Lemma while_loop_ones rounds fine_size : ∀ st,
  coarse_inv fine_size st → all_ones (optimum st) →
  all_ones (optimum (while_loop rounds 1 fine_size st)).
Proof.
  induction rounds as [|r IH]; intros st Hinv Hones; [done |].
  rewrite while_loop_unfold. destruct (loop_guard _ st) eqn:Hguard; [| done].
  apply andb_true_iff in Hguard as [Hall%negb_true_iff _].
  apply IH; [by apply loop_body_coarse_inv | by apply loop_body_ones].
Qed.

(** X5.  When the target is at most one, and every fine extent is at least
    one, [determine_coarse_dimensions] returns one coarse cell in every
    dimension. *)
Theorem determine_coarse_dimensions_single_cell target fine_size :
  target ≤ 1 → Forall (λ f, 1 ≤ f) fine_size →
  determine_coarse_dimensions target fine_size = Ok (replicate (length fine_size) 1).
Proof.
  intros Htarget Hfine. rewrite determine_coarse_dimensions_unfold. cbv zeta.
  replace (Z.max 1 (Z.min target (int64 (prod fine_size)))) with 1 by lia.
  set (st0 := LoopState _ _ _).
  destruct (init_inv fine_size Hfine) as [Hinv0 Hprog0]. fold st0 in Hinv0, Hprog0.
  destruct (while_loop_inv (length fine_size + 2) 1 fine_size st0) as [Hinv Hprog];
    [lia | done | done |].
  pose proof (while_loop_ones (length fine_size + 2) fine_size st0 Hinv0) as Hones.
  set (st := while_loop _ _ _ _) in *.
  unfold progress_inv in Hprog.
  assert ((length fine_size <? it_counter st)%nat = false) as ->
    by (apply Nat.ltb_ge; lia).
  f_equal. rewrite (all_ones_replicate (optimum st)).
  - destruct Hinv as [_ Hb%Forall2_length]. by rewrite Hb.
  - apply Hones. apply Forall_forall. by intros x [-> _]%elem_of_replicate.
Qed.

Lemma determine_coarse_dimensions_single_cell_witness :
  determine_coarse_dimensions 0 [3; 1; 7] = Ok (replicate (length [3; 1; 7]) 1).
Proof.
  apply determine_coarse_dimensions_single_cell; [lia |].
  repeat constructor; lia.
Defined.

Lemma root_floor_linear T : 1 ≤ T → root_floor T 1 1 = T.
Proof.
  intros HT. unfold root_floor.
  destruct (Z.to_nat T) as [|b] eqn:Hb; [lia |]. cbn [root_floor_below].
  change (Z.of_nat 1) with 1. rewrite Z.pow_1_r.
  destruct (Z.leb_spec (Z.of_nat (S b) * 1) T); lia.
Qed.

Lemma root_ceil_linear T : 1 ≤ T → root_ceil T 1 1 = T.
Proof.
  intros HT. unfold root_ceil. rewrite root_floor_linear by done.
  change (Z.of_nat 1) with 1. rewrite Z.pow_1_r.
  destruct (Z.eqb_spec (T * 1) T); lia.
Qed.

Lemma int64_le z : - 2 ^ 63 ≤ z → int64 z ≤ z.
Proof.
  intros Hz. unfold int64.
  pose proof (Z.div_mod (z + 2 ^ 63) (2 ^ 64) ltac:(lia)) as Hdm.
  assert (0 ≤ (z + 2 ^ 63) `div` 2 ^ 64) by (apply Z.div_pos; lia).
  lia.
Qed.

Lemma loop_body_one_dimension T f :
  1 ≤ T ≤ f → 0 < int64 f ∨ T = 1 →
  loop_body T [f] (LoopState [1] [false] 0) = LoopState [T] [true] 1.
Proof.
  intros HT Hw. rewrite loop_body_unfold. cbv zeta.
  unfold resolve_ceiling, exact_root, resolve_ceiling_from. cbn [fst snd].
  cbn [optimum found it_counter length count_true List.filter id Nat.sub].
  change (prod [1]) with 1.
  rewrite root_floor_linear, root_ceil_linear by lia.
  cbn [fmap list_fmap zip_with negb].
  replace (Z.max 1 T) with T by lia. replace (Z.min f T) with T by lia.
  unfold combination_search, try_combination, size_now, prod.
  destruct (Z.eqb_spec T f) as [-> | Hne];
    cbn [andb argwhere argwhere_from app any_nonzero existsb Nat.eqb negb orb
         cs_hit_ceil cs_optimum cs_found cs_s_low cs_s_high assign_at fill_at
         assign_mask imap zip zip_with bool_decide fmap list_fmap length
         multinary_permutations mbind list_bind seq foldl foldr fst snd
         lookup_total list_lookup_total].
  - rewrite !(bool_decide_eq_true_2 (0%nat ∈ [0%nat])) by (by left).
    change ([f] !!! 0%nat) with f.
    replace (f - f * 1) with 0 by lia. change (Z.abs 0) with 0.
    replace (f * 1) with f by lia.
    destruct (Z.ltb_spec 0 (int64 f)); cbn [fst snd];
      by repeat (case_match; cbn [fst snd]).
  - rewrite !(bool_decide_eq_false_2 (0%nat ∈ [])) by (by intros ?%elem_of_nil).
    change ([T] !!! 0%nat) with T.
    replace (T - T * 1) with 0 by lia. change (Z.abs 0) with 0.
    replace (f * 1) with f by lia.
    destruct (Z.ltb_spec 0 (int64 f)) as [_ | Hle]; cbn [fst snd].
    + by rewrite Z.ltb_irrefl.
    + destruct Hw as [? | ->]; [lia |].
      by repeat (case_match; cbn [fst snd]).
Qed.



(** ** Any rounding of the root *)



(** ** Perfect powers *)

Lemma prod_settled n opt fnd :
  Forall2 (λ (o : Z) (b : bool), o = if b then n else 1) opt fnd →
  prod opt = n ^ Z.of_nat (count_true fnd).
Proof.
  unfold prod, count_true.
  induction 1 as [|o b opt fnd -> _ IH]; [done |].
  cbn [foldr List.filter]. rewrite IH. destruct b; cbn [id length]; [| lia].
  rewrite Nat2Z.inj_succ, Z.pow_succ_r by lia. done.
Qed.

Lemma prod_replicate k n : prod (replicate k n) = n ^ Z.of_nat k.
Proof.
  unfold prod. induction k as [|k IH]; [done |].
  cbn [replicate foldr]. rewrite IH, Nat2Z.inj_succ, Z.pow_succ_r by lia. done.
Qed.

Lemma pick_same r : ∀ p, length p = length r → pick (zip r r) p = r.
Proof.
  unfold pick. induction r as [|x r IH]; intros [|bit p] Hlen; try done.
  cbn [zip zip_with fst snd]. injection Hlen as Hlen.
  change (zip_with pair r r) with (zip r r). rewrite IH by done.
  by destruct (bit =? 0)%nat.
Qed.

Lemma foldl_try_combination_same target cs v p0 perms dist0 opt0 :
  (∀ p, p ∈ p0 :: perms → size_now cs p = v) →
  Z.abs (target - prod v) < dist0 →
  (foldl (try_combination target cs) (dist0, opt0) (p0 :: perms)).2 = v.
Proof.
  intros Hsame Hlt. cbn [foldl]. unfold try_combination at 2. cbn [fst snd].
  rewrite (Hsame p0) by left.
  destruct (Z.ltb_spec (Z.abs (target - prod v)) dist0) as [_ | ?]; [| lia].
  destruct (foldl_try_combination_cases target cs perms (target - prod v, v))
    as [-> | (p & Hp & ->)]; [done |].
  apply Hsame. by right.
Qed.

Lemma all_found_settled n k (l : list bool) :
  k = length l →
  Forall2 (λ (o : Z) (b : bool), o = if b then n else 1)
    (replicate k n) ((λ _, true) <$> l).
Proof. intros ->. induction l; by constructor. Qed.

Section power.
Variables (n : Z) (fine_size : list Z) (st : loop_state).
Hypothesis Hn : 1 ≤ n.
Hypothesis Hfine : Forall (λ f, n ≤ f) fine_size.
Hypothesis Hwrap : prod fine_size < 2 ^ 63.
Hypothesis Hinv : coarse_inv fine_size st.
Hypothesis Hset : settled n st.

Local Abbreviation T := (n ^ Z.of_nat (length fine_size)).
Local Abbreviation cp := (resolve_ceiling_from n n fine_size st).

Lemma power_lookup i :
  (i < length fine_size)%nat →
  ∃ b' : bool,
    cs_optimum cp !! i = Some (if b' then n else 1) ∧
    cs_found cp !! i = Some b' ∧
    (coarse_rows cp).1 !! i = Some n ∧ (coarse_rows cp).2 !! i = Some n.
Proof.
  intros Hi. destruct Hinv as [Hlen Hbounds].
  destruct (lookup_lt_is_Some_2 fine_size i Hi) as [f Hf].
  destruct (Forall2_lookup_r _ _ _ _ _ Hbounds Hf) as (o & Ho & Hof).
  destruct (lookup_lt_is_Some_2 (found st) i ltac:(lia)) as [b Hb].
  pose proof (Forall2_lookup_lr _ _ _ _ _ _ Hset Ho Hb) as Hob. cbn beta in Hob.
  pose proof (proj1 (Forall_lookup _ _) Hfine i f Hf) as Hnf. cbn beta in Hnf.
  pose proof (from_optimum_lookup n n fine_size st i f o b Hf Ho Hb) as Hopt.
  pose proof (from_found_lookup n n fine_size st i f b Hf Hb) as Hfound.
  pose proof (from_s_low_lookup n n fine_size st i f Hf) as Hlow.
  pose proof (from_s_high_lookup n n fine_size st i f Hf) as Hhigh.
  replace (Z.max 1 n) with n in * by lia.
  replace (Z.min f n) with n in * by lia.
  exists (if hit_at f n b then true else b).
  assert (cs_optimum cp !! i
          = Some (if (if hit_at f n b then true else b) then n else 1)) as Hopt'.
  { rewrite Hopt, Hob. by destruct (hit_at f n b), b. }
  split; [done |]. split; [done |]. unfold coarse_rows. cbn [fst snd].
  split.
  - rewrite (assign_mask_lookup _ _ _ _ _ _ _ Hlow Hopt' Hfound).
    by destruct (if hit_at f n b then true else b).
  - rewrite (assign_mask_lookup _ _ _ _ _ _ _ Hhigh Hopt' Hfound).
    by destruct (if hit_at f n b then true else b).
Qed.

Lemma power_rows :
  (coarse_rows cp).1 = replicate (length fine_size) n ∧
  (coarse_rows cp).2 = replicate (length fine_size) n.
Proof.
  destruct (rows_length n n fine_size st Hinv) as [Hl1 Hl2].
  split; apply list_eq; intros i;
    (destruct (decide (i < length fine_size)%nat) as [Hi | Hi];
     [ destruct (power_lookup i Hi) as (b' & _ & _ & H1 & H2);
       rewrite lookup_replicate_2 by done; done
     | rewrite !lookup_ge_None_2 by (rewrite ?length_replicate; lia); done ]).
Qed.

Lemma power_restart :
  Forall2 (λ (o : Z) (b : bool), o = if b then n else 1) (cs_optimum cp) (cs_found cp).
Proof.
  destruct (resolve_ceiling_from_lengths n n fine_size st) as (_ & _ & Hl3 & Hl4).
  destruct Hinv as [Hlen Hbounds%Forall2_length].
  apply Forall2_same_length_lookup. split; [lia |].
  intros i o b Ho Hb.
  destruct (power_lookup i) as (b' & Ho' & Hb' & _);
    [apply lookup_lt_Some in Ho; lia |].
  rewrite Ho' in Ho. rewrite Hb' in Hb. injection Ho as <-. by injection Hb as <-.
Qed.

Lemma power_search :
  combination_search T fine_size cp = replicate (length fine_size) n.
Proof.
  unfold combination_search.
  destruct power_rows as [Hlo Hhi]. unfold coarse_rows in Hlo, Hhi.
  cbn [fst snd] in Hlo, Hhi. rewrite Hlo, Hhi.
  destruct (multinary_permutations 2 (length fine_size)) as [|p0 perms] eqn:Hperms.
  { by apply multinary_permutations_nonempty in Hperms; [| lia]. }
  apply foldl_try_combination_same.
  - intros p Hp. rewrite <- Hperms in Hp.
    apply multinary_permutations_elem in Hp as [Hlen Hbits].
    rewrite size_now_pick by (done || by rewrite length_replicate).
    apply pick_same. by rewrite length_replicate.
  - rewrite prod_replicate, Z.sub_diag. cbn [Z.abs].
    destruct Hinv as [_ Hbounds]. pose proof (prod_bounds _ _ Hbounds).
    rewrite int64_small by lia. lia.
Qed.

Lemma loop_body_from_settled : settled n (loop_body_from n n T fine_size st).
Proof.
  unfold loop_body_from, settled. destruct (any_nonzero _); cbn [optimum found].
  - apply power_restart.
  - rewrite power_search.
    destruct (resolve_ceiling_from_lengths n n fine_size st) as (_ & _ & _ & Hl4).
    destruct Hinv as [Hlen _]. apply all_found_settled. lia.
Qed.

End power.

Section power_loop.
Variables (s_num : Z → Z → nat → Z * Z) (n : Z) (fine_size : list Z).
Hypothesis Hn : 1 ≤ n.
Hypothesis Hfine : Forall (λ f, n ≤ f) fine_size.
Hypothesis Hwrap : prod fine_size < 2 ^ 63.
Hypothesis Hexact : exact_at_power s_num n (length fine_size).

Local Abbreviation T := (n ^ Z.of_nat (length fine_size)).

(** In a settled state the iteration works with the floor and the ceiling
    [n]. *)
Lemma loop_body_with_power st :
  coarse_inv fine_size st → settled n st → all_true (found st) = false →
  loop_body_with s_num T fine_size st = loop_body_from n n T fine_size st.
Proof.
  intros [Hlen _] Hset Hguard. unfold loop_body_with.
  pose proof (count_true_lt (found st) Hguard) as Hct. rewrite Hlen in Hct.
  rewrite (prod_settled n _ _ Hset).
  rewrite (Hexact (count_true (found st))) by lia. done.
Qed.

Lemma while_loop_with_settled rounds : ∀ st,
  coarse_inv fine_size st → progress_inv fine_size st → settled n st →
  coarse_inv fine_size (while_loop_with s_num rounds T fine_size st) ∧
  progress_inv fine_size (while_loop_with s_num rounds T fine_size st) ∧
  settled n (while_loop_with s_num rounds T fine_size st).
Proof.
  induction rounds as [|r IH]; intros st Hinv Hprog Hset; [done |].
  cbn [while_loop_with]. destruct (loop_guard _ st) eqn:Hguard; [| done].
  apply andb_true_iff in Hguard as [Hall%negb_true_iff _].
  rewrite loop_body_with_power by done.
  apply IH.
  - apply loop_body_from_coarse_inv; (done || lia).
  - apply loop_body_from_progress_inv; (done || lia).
  - by apply loop_body_from_settled.
Qed.

Lemma perfect_power_returns :
  determine_coarse_dimensions_with s_num T fine_size
  = Ok (replicate (length fine_size) n).
Proof.
  unfold determine_coarse_dimensions_with.
  assert (Forall (λ f, 1 ≤ f) fine_size) as Hpos
    by (apply (Forall_impl _ _ _ Hfine); intros; lia).
  assert (Forall2 (λ x y, 1 ≤ x ≤ y) (replicate (length fine_size) n) fine_size) as Hb.
  { apply Forall2_same_length_lookup. rewrite length_replicate. split; [done |].
    intros i x f [-> _]%lookup_replicate Hf.
    pose proof (proj1 (Forall_lookup _ _) Hfine i f Hf). cbn beta in *. lia. }
  apply prod_bounds in Hb. rewrite prod_replicate in Hb.
  rewrite int64_small by lia.
  replace (Z.max 1 (Z.min T (prod fine_size))) with T by lia.
  set (st0 := LoopState _ _ _).
  destruct (init_inv fine_size Hpos) as [Hinv0 Hprog0]. fold st0 in Hinv0, Hprog0.
  destruct (while_loop_with_settled (length fine_size + 2) st0)
    as (Hinv & Hprog & Hset); [done | done | |].
  { unfold settled, st0. cbn [optimum found].
    generalize (length fine_size). intros k. induction k; by constructor. }
  pose proof (while_loop_with_exit s_num (length fine_size + 2) T fine_size st0
                ltac:(cbn; lia)) as Hexit.
  set (st := while_loop_with _ _ _ _ _) in *.
  unfold progress_inv in Hprog.
  assert ((length fine_size <? it_counter st)%nat = false) as ->
    by (apply Nat.ltb_ge; lia).
  f_equal. unfold loop_guard in Hexit.
  assert ((it_counter st <=? length fine_size)%nat = true) as Hit
    by (apply Nat.leb_le; lia).
  rewrite Hit, andb_true_r in Hexit. apply negb_false_iff, all_true_spec in Hexit.
  destruct Hinv as [Hlen Hbounds%Forall2_length].
  apply list_eq. intros i.
  destruct (optimum st !! i) as [o|] eqn:Ho.
  - destruct (Forall2_lookup_l _ _ _ _ _ Hset Ho) as (b & Hbi & ->).
    rewrite (proj1 (Forall_lookup _ _) Hexit i b Hbi).
    apply lookup_lt_Some in Ho. by rewrite lookup_replicate_2 by lia.
  - apply lookup_ge_None in Ho. symmetry. apply lookup_ge_None.
    rewrite length_replicate. lia.
Qed.

End power_loop.

(** X17.  When the target is a perfect power [n ^ nd] of the number of
    dimensions, with [n >= 1] not larger than any fine extent, the product of
    the fine extents is at most [2 ^ 53], and the roots that the loop asks
    for come out exactly, floor and ceiling both [n], then
    [determine_coarse_dimensions] returns [n] coarse cells in every
    dimension.  Without the exact roots this fails: see the fifth root of
    7776 above. *)
Theorem determine_coarse_dimensions_perfect_power s_num n fine_size :
  1 ≤ n → Forall (λ f, n ≤ f) fine_size →
  prod fine_size ≤ 2 ^ 53 →
  exact_at_power s_num n (length fine_size) →
  determine_coarse_dimensions_with s_num (n ^ Z.of_nat (length fine_size)) fine_size
  = Ok (replicate (length fine_size) n).
Proof.
  intros Hn Hfine Hwrap Hexact. apply perfect_power_returns; (done || lia).
Qed.

(** The square root of 9 is exact: 3 coarse cells in both dimensions of a
    grid of 3 by 10 cells. *)
Lemma determine_coarse_dimensions_perfect_power_witness :
  determine_coarse_dimensions_with exact_root (3 ^ Z.of_nat (length [3; 10])) [3; 10]
  = Ok (replicate (length [3; 10]) 3).
Proof.
  apply determine_coarse_dimensions_perfect_power.
  - lia.
  - repeat constructor; lia.
  - vm_compute. discriminate.
  - intros c k Hck Hk. cbn [length] in Hck.
    destruct c as [|[|c]], k as [|[|[|k]]]; try lia; reflexivity.
Defined.



End PartitionExtras.

(** * Further properties of grid_operators.py *)

Module GridOperatorsExtras.
Import GridOperators GridOperatorsSpec GridOperatorsProofs GridOperatorsExtraSpec.

(** ** When _subgrid_projections returns *)

Lemma subgrid_step_IndexError nd tf tc st g :
  (cell_offset st.2 + cell_size nd g ≤ tc)%nat →
  (face_offset st.2 + face_size nd g ≤ tf)%nat →
  ¬ indexable nd g →
  subgrid_step nd tf tc st g = Raise IndexError.
Proof.
  intros Hc Hf Hbad.
  destruct st as [proj off]. unfold subgrid_step.
  rewrite !expand_arange. fold (face_size nd g) (cell_size nd g).
  simpl in Hc, Hf.
  rewrite !coo_matrix_embedding_ok by done.
  cbn [mbind result_bind bind]. rewrite !getitem_last_offsets.
  unfold indexable in Hbad.
  destruct (Nat.ltb_spec 0 (dim g)) as [Hdim | Hdim].
  - destruct (face_size nd g) as [|nf]; [done |].
    destruct (cell_size nd g) as [|nc]; [done |].
    exfalso. apply Hbad. split; intros; lia.
  - destruct (cell_size nd g) as [|nc]; [done |].
    exfalso. apply Hbad. split; intros; lia.
Qed.

Lemma face_advance_le nd g : (face_advance nd g ≤ face_size nd g)%nat.
Proof. unfold face_advance. destruct (0 <? dim g)%nat; lia. Qed.

Lemma for_each_subgrid_step_IndexError nd tf tc l : ∀ st,
  (cell_offset st.2 + sum_nat (cell_size nd <$> l) ≤ tc)%nat →
  (face_offset st.2 + sum_nat (face_size nd <$> l) ≤ tf)%nat →
  ¬ Forall (indexable nd) l →
  for_each (subgrid_step nd tf tc) st l = Raise IndexError.
Proof.
  induction l as [|g l IH]; intros st Hc Hf Hbad; [by destruct Hbad |].
  cbn [fmap list_fmap sum_nat foldr] in Hc, Hf.
  change (foldr Nat.add 0%nat ?x) with (sum_nat x) in Hc, Hf.
  cbn [for_each]. destruct (decide (indexable nd g)) as [[Hg1 Hg2] | Hg].
  - rewrite subgrid_step_total by (done || lia).
    cbn [mbind result_bind bind]. apply IH.
    + cbn. lia.
    + pose proof (face_advance_le nd g). cbn. lia.
    + intros Hl. apply Hbad. by constructor.
  - rewrite subgrid_step_IndexError by (done || lia). done.
Qed.

Lemma sum_cell_size nd l :
  sum_nat (cell_size nd <$> l) = (sum_nat (num_cells <$> l) * nd)%nat.
Proof. apply (sum_nat_scale num_cells). Qed.

Lemma sum_face_size nd l :
  sum_nat (face_size nd <$> l) = (sum_nat (num_faces <$> l) * nd)%nat.
Proof. apply (sum_nat_scale num_faces). Qed.

Lemma subgrid_projections_indexable grids nd :
  Forall (indexable nd) grids → ∃ proj, _subgrid_projections grids nd = Ok proj.
Proof.
  intros Hall. unfold _subgrid_projections.
  destruct (for_each_subgrid_step_total nd
    (sum_nat (num_faces <$> grids) * nd) (sum_nat (num_cells <$> grids) * nd)
    grids (Projections ∅ ∅, Offsets 0 0)) as [st' ->]; [| | done | by eexists].
  - cbn. by rewrite sum_cell_size.
  - cbn. by rewrite sum_face_size.
Qed.

(** X7.  [_subgrid_projections] returns exactly when every grid has at least
    one cell index and, if its dimension is positive, at least one face
    index; the number of indices is the number of cells or faces times [nd].
    In every other case the call ends in an [IndexError], raised where the
    loop reads the last entry of an empty index array. *)
Theorem subgrid_projections_returns_iff grids nd :
  (Forall (indexable nd) grids → ∃ proj, _subgrid_projections grids nd = Ok proj) ∧
  (¬ Forall (indexable nd) grids → _subgrid_projections grids nd = Raise IndexError).
Proof.
  split; [apply subgrid_projections_indexable |].
  intros Hbad. unfold _subgrid_projections.
  rewrite for_each_subgrid_step_IndexError; [done | | | done].
  - cbn. by rewrite sum_cell_size.
  - cbn. by rewrite sum_face_size.
Qed.

Lemma subgrid_projections_returns_iff_witness :
  (Forall (indexable 2) [segment; point] →
   ∃ proj, _subgrid_projections [segment; point] 2 = Ok proj) ∧
  (¬ Forall (indexable 2) [segment; MkGrid 7 1 0 2] →
   _subgrid_projections [segment; MkGrid 7 1 0 2] 2 = Raise IndexError).
Proof.
  split.
  - apply (subgrid_projections_returns_iff [segment; point] 2).
  - apply (subgrid_projections_returns_iff [segment; MkGrid 7 1 0 2] 2).
Defined.

(** ** The dictionaries of SubdomainProjections *)

Lemma subgrid_projections_layout grids nd proj :
  _subgrid_projections grids nd = Ok proj →
  cell_projection proj
    = place (sum_nat (num_cells <$> grids) * nd) (cell_size nd) ∅
        (layout (cell_size nd) 0 grids) ∧
  face_projection proj
    = place (sum_nat (num_faces <$> grids) * nd) (face_size nd) ∅
        (layout (face_advance nd) 0 grids).
Proof.
  unfold _subgrid_projections. intros Hproj.
  destruct (for_each _ _ grids) as [st'|] eqn:Hrun; [| done].
  injection Hproj as <-. by apply for_each_subgrid_step_layout in Hrun.
Qed.

Lemma SubdomainProjections_init_Ok grids gb nd sp grid_list :
  _grid_list grids gb = Ok grid_list →
  SubdomainProjections_init grids gb nd = Ok sp →
  ∃ proj,
    _subgrid_projections grid_list nd = Ok proj ∧
    sp_cell_projection sp = cell_projection proj ∧
    sp_face_projection sp = face_projection proj.
Proof.
  intros Hgl Hinit. unfold SubdomainProjections_init in Hinit.
  rewrite Hgl in Hinit. cbn [mbind result_bind bind] in Hinit.
  destruct (_subgrid_projections grid_list nd) as [proj|] eqn:Hproj; [| done].
  injection Hinit as <-. by exists proj.
Qed.

Lemma subgrid_projections_embeddings grids nd proj :
  _subgrid_projections grids nd = Ok proj →
  embeddings_of (cell_size nd) (sum_nat (num_cells <$> grids) * nd) (cell_projection proj) ∧
  embeddings_of (face_size nd) (sum_nat (num_faces <$> grids) * nd) (face_projection proj) ∧
  (∀ g, g ∈ grids → is_Some (cell_projection proj !! g)) ∧
  (∀ g, g ∈ grids → is_Some (face_projection proj !! g)).
Proof.
  unfold _subgrid_projections. intros Hproj.
  destruct (for_each _ _ grids) as [st'|] eqn:Hrun; [| done].
  injection Hproj as <-.
  apply for_each_subgrid_step_embeddings in Hrun as (Hc & Hf & Hkc & Hkf);
    [| intros ? ? H; cbn in H; by apply lookup_empty_Some in H..].
  repeat split; try done; intros g Hg; [apply Hkc | apply Hkf]; by left.
Qed.

(** X8.  Whenever the constructor of [SubdomainProjections] returns, for
    every grid [g] of its grid sequence the matrix of [face_restriction(g)]
    times the matrix of [face_prolongation(g)] is the identity matrix on the
    [num_faces g * nd] local face indices of [g]. *)
Theorem face_restriction_prolongation_identity grids gb nd grid_list sp g :
  _grid_list grids gb = Ok grid_list →
  SubdomainProjections_init grids gb nd = Ok sp →
  g ∈ grid_list →
  ∃ R P,
    face_restriction sp (OneGrid g) = Ok R ∧
    face_prolongation sp (OneGrid g) = Ok P ∧
    nrows (mat P) = (sum_nat (num_faces <$> grid_list) * nd)%nat ∧
    matmul (mat R) (mat P) = Ok (identity (num_faces g * nd)).
Proof.
  intros Hgl Hinit Hg.
  destruct (SubdomainProjections_init_Ok _ _ _ _ _ Hgl Hinit) as (proj & Hproj & _ & Hf).
  apply subgrid_projections_embeddings in Hproj as (_ & Hemb & _ & Hk).
  destruct (Hk g Hg) as [M HM]. destruct (Hemb g M HM) as [o ->].
  unfold face_restriction, face_prolongation, restriction_of, prolongation_of, dict_get.
  rewrite Hf, HM. cbn [mbind result_bind bind].
  eexists _, _. split; [done |]. split; [done |]. cbn [mat].
  split; [done |]. apply matmul_embedding.
Qed.

Lemma face_restriction_prolongation_identity_witness :
  ∃ sp R P,
    SubdomainProjections_init (Some [segment; point]) None 2 = Ok sp ∧
    face_restriction sp (OneGrid segment) = Ok R ∧
    face_prolongation sp (OneGrid segment) = Ok P ∧
    nrows (mat P) = (sum_nat (num_faces <$> [segment; point]) * 2)%nat ∧
    matmul (mat R) (mat P) = Ok (identity (num_faces segment * 2)).
Proof.
  destruct (SubdomainProjections_init (Some [segment; point]) None 2) as [sp|e] eqn:Hinit;
    [| vm_compute in Hinit; discriminate Hinit].
  destruct (face_restriction_prolongation_identity
              (Some [segment; point]) None 2 [segment; point] sp segment)
    as (R & P & HR & HP & Hrows & HRP); [reflexivity | exact Hinit | left |].
  exists sp, R, P. auto.
Defined.

(** ** Grids outside the sequence *)

Lemma traverse_raises {A B} (f : A → result B) (l : list A) e :
  (∃ a, a ∈ l ∧ f a = Raise e) →
  (∀ a e', a ∈ l → f a = Raise e' → e' = e) →
  traverse f l = Raise e.
Proof.
  induction l as [|a l IH]; intros (a0 & Ha0 & Hf) Honly.
  - by apply elem_of_nil in Ha0.
  - cbn [traverse]. destruct (f a) as [b | e'] eqn:Hfa.
    + cbn [mbind result_bind bind]. rewrite IH; [done | |].
      * apply elem_of_cons in Ha0 as [-> | Ha0]; [congruence | eauto].
      * intros a' e' Ha'. apply Honly. by right.
    + cbn [mbind result_bind bind]. f_equal. apply (Honly a); [left | done].
Qed.

Lemma unknown_key_restriction d g l :
  d !! g = None → g ∈ l →
  restriction_of d (OneGrid g) = Raise KeyError ∧
  prolongation_of d (OneGrid g) = Raise KeyError ∧
  restriction_of d (GridList l) = Raise KeyError ∧
  prolongation_of d (GridList l) = Raise KeyError.
Proof.
  intros Hd Hg. unfold restriction_of, prolongation_of.
  assert (dict_get d g = Raise KeyError) as Hget by (unfold dict_get; by rewrite Hd).
  rewrite Hget. cbn [mbind result_bind bind]. repeat split; try done.
  - rewrite (traverse_raises _ l KeyError); [done | |].
    + exists g. by rewrite Hget.
    + intros a e' _. unfold dict_get. destruct (d !! a); [done |]. by intros [= <-].
  - rewrite (traverse_raises _ l KeyError); [done | |].
    + by exists g.
    + intros a e' _. unfold dict_get. destruct (d !! a); [done |]. by intros [= <-].
Qed.

(** X9.  The dictionaries of [SubdomainProjections] have no entries besides
    the grids of the sequence: for a grid that is not in the sequence, each
    of the four methods ends in a [KeyError], whether the grid is passed
    alone or inside a list. *)
Theorem unknown_grid_KeyError grids gb nd grid_list sp g l :
  _grid_list grids gb = Ok grid_list →
  SubdomainProjections_init grids gb nd = Ok sp →
  g ∉ grid_list → g ∈ l →
  (cell_restriction sp (OneGrid g) = Raise KeyError ∧
   cell_prolongation sp (OneGrid g) = Raise KeyError ∧
   face_restriction sp (OneGrid g) = Raise KeyError ∧
   face_prolongation sp (OneGrid g) = Raise KeyError) ∧
  (cell_restriction sp (GridList l) = Raise KeyError ∧
   cell_prolongation sp (GridList l) = Raise KeyError ∧
   face_restriction sp (GridList l) = Raise KeyError ∧
   face_prolongation sp (GridList l) = Raise KeyError).
Proof.
  intros Hgl Hinit Hg Hl.
  destruct (SubdomainProjections_init_Ok _ _ _ _ _ Hgl Hinit) as (proj & Hproj & Hc & Hf).
  apply subgrid_projections_layout in Hproj as [Hcp Hfp].
  assert (sp_cell_projection sp !! g = None) as Hcg.
  { rewrite Hc, Hcp, place_lookup_other by (by rewrite layout_fst). done. }
  assert (sp_face_projection sp !! g = None) as Hfg.
  { rewrite Hf, Hfp, place_lookup_other by (by rewrite layout_fst). done. }
  destruct (unknown_key_restriction _ g l Hcg Hl) as (? & ? & ? & ?).
  destruct (unknown_key_restriction _ g l Hfg Hl) as (? & ? & ? & ?).
  unfold cell_restriction, cell_prolongation, face_restriction, face_prolongation.
  done.
Qed.

Lemma unknown_grid_KeyError_witness :
  ∃ sp,
    SubdomainProjections_init (Some [segment; point]) None 2 = Ok sp ∧
    (cell_restriction sp (OneGrid plane) = Raise KeyError ∧
     cell_prolongation sp (OneGrid plane) = Raise KeyError ∧
     face_restriction sp (OneGrid plane) = Raise KeyError ∧
     face_prolongation sp (OneGrid plane) = Raise KeyError) ∧
    (cell_restriction sp (GridList [segment; plane]) = Raise KeyError ∧
     cell_prolongation sp (GridList [segment; plane]) = Raise KeyError ∧
     face_restriction sp (GridList [segment; plane]) = Raise KeyError ∧
     face_prolongation sp (GridList [segment; plane]) = Raise KeyError).
Proof.
  destruct (SubdomainProjections_init (Some [segment; point]) None 2) as [sp|e] eqn:Hinit;
    [| vm_compute in Hinit; discriminate Hinit].
  exists sp. split; [reflexivity |].
  apply (unknown_grid_KeyError (Some [segment; point]) None 2 [segment; point] sp
           plane [segment; plane]).
  - reflexivity.
  - exact Hinit.
  - intros H. repeat (apply elem_of_cons in H as [H | H]; [discriminate H |]).
    by apply elem_of_nil in H.
  - right. left.
Defined.

(** ** Lists of grids *)

Lemma filter_fmap_seq_unique_in {A} (P : A → bool) (f : nat → A) i a n :
  (∀ j, (a ≤ j < a + n)%nat → P (f j) = (j =? i)%nat) →
  List.filter P (f <$> seq a n) = if ((a <=? i) && (i <? a + n))%nat then [f i] else [].
Proof.
  revert a. induction n as [|n IH]; intros a HP.
  - simpl. nat_cases.
  - cbn [seq fmap list_fmap List.filter]. fold (fmap f (seq (S a) n)).
    rewrite HP by lia. rewrite IH by (intros j Hj; apply HP; lia). nat_cases.
Qed.

Lemma filter_fmap_none_in {A B} (P : A → bool) (f : B → A) l :
  (∀ j, j ∈ l → P (f j) = false) → List.filter P (f <$> l) = [].
Proof.
  induction l as [|x l IH]; intros HP; [done |].
  cbn [fmap list_fmap List.filter]. fold (fmap f l).
  rewrite HP by left. apply IH. intros j Hj. apply HP. by right.
Qed.

Lemma transpose_involutive M : transpose (transpose M) = M.
Proof.
  destruct M as [n m ts]. unfold transpose. cbn [nrows ncols triples]. f_equal.
  rewrite <- list_fmap_compose. rewrite <- (list_fmap_id ts) at 2.
  apply list_fmap_ext. by intros _ [[r c] v] _.
Qed.

Lemma terms_selection sel tot n i k :
  (i < n)%nat → (k < n)%nat →
  (∀ a b, (a < n)%nat → (b < n)%nat → sel a = sel b → a = b) →
  terms (transpose (selection sel tot n)) (selection sel tot n) i k
  = if (i =? k)%nat then [1] else [].
Proof.
  intros Hi Hk Hinj. unfold terms, transpose, selection. cbn [triples].
  rewrite <- list_fmap_compose.
  rewrite (filter_fmap_seq_unique _ _ i); [| intros j; unfold t_row; simpl; nat_cases].
  replace ((0 <=? i) && (i <? 0 + n))%nat with true by nat_cases.
  rewrite bind_cons. change ([] ≫= ?f) with (@nil Z). rewrite app_nil_r.
  unfold t_col at 1. cbn [compose fst snd].
  destruct (Nat.eqb_spec i k) as [-> | Hne].
  - rewrite (filter_fmap_seq_unique_in _ _ k).
    + by replace ((0 <=? k) && (k <? 0 + n))%nat with true by nat_cases.
    + intros j Hj. unfold t_row, t_col. simpl. nat_cases.
  - rewrite filter_fmap_none_in; [done |].
    intros j Hj%elem_of_seq. unfold t_row, t_col. cbn [fst snd].
    destruct (Nat.eqb_spec (sel j) (sel i)) as [Heq | ?]; [| done].
    apply Hinj in Heq; [| lia ..]. subst j. cbn. by apply Nat.eqb_neq.
Qed.

(** Restriction times prolongation of a selection of distinct rows is the
    identity. *)
Lemma matmul_selection sel tot n :
  (∀ a b, (a < n)%nat → (b < n)%nat → sel a = sel b → a = b) →
  matmul (transpose (selection sel tot n)) (selection sel tot n) = Ok (identity n).
Proof.
  intros Hinj. unfold matmul. cbn [transpose selection ncols nrows].
  rewrite Nat.eqb_refl. cbn [negb]. unfold identity. do 2 f_equal.
  rewrite <- bind_singleton_fmap. apply bind_ext_in. intros i Hi%elem_of_seq.
  transitivity (seq 0 n ≫= λ k, if (k =? i)%nat then [(i, i, 1)] else []).
  - apply bind_ext_in. intros k Hk%elem_of_seq. unfold cell.
    change (SpMatrix n tot _) with (transpose (selection sel tot n)).
    change (SpMatrix tot n _) with (selection sel tot n).
    rewrite terms_selection by (done || lia). rewrite (Nat.eqb_sym k i).
    destruct (Nat.eqb_spec i k) as [-> | Hne]; done.
  - rewrite (bind_seq_unique _ (i, i, 1) i) by done.
    by replace ((0 <=? i) && (i <? 0 + n))%nat with true by nat_cases.
Qed.

(** The blocks of a list of embeddings, side by side. *)
Lemma hstack_from_embeddings tot (los : list (nat * nat)) : ∀ off,
  hstack_from tot off ((λ p, embedding p.1 p.2 tot) <$> los)
  = Ok ((λ c, (stacked los c, (off + c)%nat, 1)) <$> seq 0 (sum_nat (snd <$> los)),
        (off + sum_nat (snd <$> los))%nat).
Proof.
  induction los as [|[o sz] los IH]; intros off.
  - cbn. by rewrite Nat.add_0_r.
  - cbn [fmap list_fmap hstack_from embedding nrows ncols triples fst snd sum_nat foldr].
    change (foldr Nat.add 0%nat ?x) with (sum_nat x).
    change (list_fmap ?A ?B ?f ?l) with (f <$> l).
    rewrite Nat.eqb_refl. cbn [negb]. rewrite IH. cbn [mbind result_bind bind fst snd].
    f_equal. f_equal; [| lia].
    rewrite seq_app, fmap_app, <- list_fmap_compose. f_equal.
    + apply list_fmap_ext. intros _ j Hj%list_elem_of_lookup_2%elem_of_seq.
      cbn [compose stacked t_row t_col t_val fst snd].
      by destruct (Nat.ltb_spec j sz); [| lia].
    + cbn [Nat.add].
      replace (seq sz (sum_nat (snd <$> los)))
        with ((λ j, (sz + j)%nat) <$> seq 0 (sum_nat (snd <$> los)))
        by (rewrite fmap_add_seq; f_equal; lia).
      rewrite <- list_fmap_compose. apply list_fmap_ext. intros _ j _. cbn [compose stacked].
      destruct (Nat.ltb_spec (sz + j) sz); [lia |].
      replace (sz + j - sz)%nat with j by lia. do 2 f_equal. lia.
Qed.

Lemma bmat_row_embeddings tot (los : list (nat * nat)) :
  los ≠ [] →
  bmat_row ((λ p, embedding p.1 p.2 tot) <$> los)
  = Ok (selection (stacked los) tot (sum_nat (snd <$> los))).
Proof.
  intros Hne. unfold bmat_row.
  destruct los as [|[o sz] los]; [done |].
  change (match (λ p, embedding p.1 p.2 tot) <$> (o, sz) :: los with
          | [] => Raise IndexError
          | B :: _ => r ← hstack_from (nrows B) 0
                          ((λ p, embedding p.1 p.2 tot) <$> (o, sz) :: los);
                      Ok (SpMatrix (nrows B) r.2 r.1)
          end)
    with (r ← hstack_from tot 0 ((λ p, embedding p.1 p.2 tot) <$> (o, sz) :: los);
          Ok (SpMatrix tot r.2 r.1)).
  by rewrite hstack_from_embeddings.
Qed.

Lemma bmat_col_embeddings tot (los : list (nat * nat)) :
  los ≠ [] →
  bmat_col (transpose <$> ((λ p, embedding p.1 p.2 tot) <$> los))
  = Ok (transpose (selection (stacked los) tot (sum_nat (snd <$> los)))).
Proof.
  intros Hne. rewrite bmat_col_nonempty by (by destruct los).
  rewrite <- (list_fmap_compose transpose transpose).
  rewrite (list_fmap_ext (transpose ∘ transpose) id) by
    (intros; apply transpose_involutive).
  rewrite list_fmap_id, bmat_row_embeddings by done. done.
Qed.

(** The stacked index of a position lies in one of the blocks. *)
Lemma stacked_block los : ∀ c,
  (c < sum_nat (snd <$> los))%nat →
  ∃ p, p ∈ los ∧ (p.1 ≤ stacked los c < p.1 + p.2)%nat.
Proof.
  induction los as [|[o sz] los IH]; intros c Hc; [cbn in Hc; lia |].
  cbn [fmap list_fmap sum_nat foldr snd] in Hc.
  change (foldr Nat.add 0%nat ?x) with (sum_nat x) in Hc.
  cbn [stacked]. destruct (Nat.ltb_spec c sz).
  - exists (o, sz). split; [left | cbn; lia].
  - destruct (IH (c - sz)%nat) as (p & Hp & Hr); [lia |].
    exists p. split; [by right | done].
Qed.

Lemma stacked_injective los : ∀ a b,
  separated los →
  (a < sum_nat (snd <$> los))%nat → (b < sum_nat (snd <$> los))%nat →
  stacked los a = stacked los b → a = b.
Proof.
  induction los as [|[o sz] los IH]; intros a b Hsep Ha Hb; [cbn in Ha; lia |].
  cbn [fmap list_fmap sum_nat foldr snd] in Ha, Hb.
  change (foldr Nat.add 0%nat ?x) with (sum_nat x) in Ha, Hb.
  destruct Hsep as [Hhead Hsep]. cbn [stacked].
  destruct (Nat.ltb_spec a sz), (Nat.ltb_spec b sz); intros Heq.
  - lia.
  - exfalso. destruct (stacked_block los (b - sz)%nat) as (p & Hp & Hr); [lia |].
    apply (proj1 (Forall_forall _ _) Hhead p Hp (o + a)%nat). lia.
  - exfalso. destruct (stacked_block los (a - sz)%nat) as (p & Hp & Hr); [lia |].
    apply (proj1 (Forall_forall _ _) Hhead p Hp (o + b)%nat). lia.
  - assert (a - sz = b - sz)%nat; [apply IH; try done; lia | lia].
Qed.

(** A key of the dictionary of a layout holds the embedding at one of the
    offsets of the layout. *)
Lemma place_lookup_elem tot sz lay : ∀ d g,
  g ∈ lay.*1 →
  ∃ o, (g, o) ∈ lay ∧ place tot sz d lay !! g = Some (embedding o (sz g) tot).
Proof.
  induction lay as [|[g0 o0] lay IH]; intros d g Hg; [by apply elem_of_nil in Hg |].
  rewrite place_cons.
  destruct (decide (g ∈ lay.*1)) as [Hin | Hout].
  - destruct (IH (<[g0 := embedding o0 (sz g0) tot]> d) g Hin) as (o & Ho & Hlook).
    exists o. split; [by right | done].
  - cbn [fmap list_fmap fst] in Hg. apply elem_of_cons in Hg as [-> | Hg]; [| done].
    exists o0. split; [left |].
    rewrite place_lookup_other by done. by rewrite lookup_insert_eq.
Qed.

(** The blocks that the dictionary of a layout holds for a list of distinct
    grids: one block per grid, of the size of the grid, at offsets that do not
    overlap. *)
Lemma place_blocks tot sz adv lay_grids d0 l :
  (∀ g, g ∈ lay_grids → adv g = sz g) →
  NoDup l → (∀ g, g ∈ l → g ∈ lay_grids) →
  ∃ los,
    traverse (dict_get (place tot sz d0 (layout adv 0 lay_grids))) l
      = Ok ((λ p, embedding p.1 p.2 tot) <$> los) ∧
    snd <$> los = sz <$> l ∧
    Forall2 (λ g p, (g, p.1) ∈ layout adv 0 lay_grids ∧ p.2 = sz g) l los ∧
    separated los.
Proof.
  intros Hadv Hnd Hsub. induction l as [|g l IH].
  - exists []. by repeat split.
  - apply NoDup_cons in Hnd as [Hg Hnd].
    destruct IH as (los & Htrav & Hsz & Hall & Hsep);
      [done | intros; apply Hsub; by right |].
    destruct (place_lookup_elem tot sz (layout adv 0 lay_grids) d0 g)
      as (o & Ho & Hlook); [rewrite layout_fst; apply Hsub; left |].
    exists ((o, sz g) :: los). split; [| split; [| split]].
    + assert (dict_get (place tot sz d0 (layout adv 0 lay_grids)) g
              = Ok (embedding o (sz g) tot)) as Hget
        by (unfold dict_get; by rewrite Hlook).
      cbn [traverse]. rewrite Hget. cbn [mbind result_bind bind]. by rewrite Htrav.
    + cbn. by rewrite Hsz.
    + by constructor.
    + split; [| done]. apply Forall_forall. intros [o' sz'] Hp r [Hr Hr'].
      apply list_elem_of_lookup_1 in Hp as [i Hi].
      destruct (Forall2_lookup_r _ _ _ _ _ Hall Hi) as (g' & Hg' & Hlay & Hsz').
      cbn [fst snd] in *. subst sz'.
      destruct (layout_disjoint adv sz lay_grids 0 r g o g' o') as [-> _]; try done.
      apply Hg. by eapply list_elem_of_lookup_2.
Qed.

Lemma traverse_transpose (d : gmap Grid spmatrix) l blocks :
  traverse (dict_get d) l = Ok blocks →
  traverse (λ g, M ← dict_get d g; Ok (transpose M)) l = Ok (transpose <$> blocks).
Proof.
  revert blocks. induction l as [|g l IH]; intros blocks; cbn [traverse].
  - by intros [= <-].
  - destruct (dict_get d g) as [M|]; [| done]. cbn [mbind result_bind bind].
    destruct (traverse (dict_get d) l) as [bs|]; [| done].
    cbn [mbind result_bind bind]. intros [= <-]. by rewrite (IH bs).
Qed.

(** Restriction and prolongation to a list of distinct grids in a dictionary
    built from a layout. *)
Lemma restriction_prolongation_list tot sz adv lay_grids l :
  (∀ g, g ∈ lay_grids → adv g = sz g) →
  NoDup l → (∀ g, g ∈ l → g ∈ lay_grids) → l ≠ [] →
  ∃ R P,
    restriction_of (place tot sz ∅ (layout adv 0 lay_grids)) (GridList l) = Ok R ∧
    prolongation_of (place tot sz ∅ (layout adv 0 lay_grids)) (GridList l) = Ok P ∧
    nrows (mat P) = tot ∧ ncols (mat P) = sum_nat (sz <$> l) ∧
    nrows (mat R) = sum_nat (sz <$> l) ∧ ncols (mat R) = tot ∧
    matmul (mat R) (mat P) = Ok (identity (sum_nat (sz <$> l))).
Proof.
  intros Hadv Hnd Hsub Hne.
  destruct (place_blocks tot sz adv lay_grids ∅ l Hadv Hnd Hsub)
    as (los & Htrav & Hsz & _ & Hsep).
  assert (los ≠ []) as Hlos.
  { intros ->. destruct l; [done | discriminate Hsz]. }
  unfold restriction_of, prolongation_of.
  rewrite (traverse_transpose _ _ _ Htrav), Htrav. cbn [mbind result_bind bind].
  rewrite bmat_col_embeddings, bmat_row_embeddings by done.
  cbn [mbind result_bind bind]. unfold tocsr. rewrite Hsz.
  eexists _, _. split; [done |]. split; [done |]. cbn [mat].
  repeat split. apply matmul_selection.
  intros a b Ha Hb. apply stacked_injective; by rewrite ?Hsz.
Qed.

Lemma face_advance_faceless nd grids :
  faceless_points grids → ∀ g, g ∈ grids → face_advance nd g = face_size nd g.
Proof.
  intros Hpts g Hg. unfold face_advance, face_size.
  destruct (Nat.ltb_spec 0 (dim g)) as [? | Hdim]; [done |].
  rewrite (proj1 (Forall_forall _ _) Hpts g Hg) by lia. done.
Qed.

(** X10.  Whenever the constructor of [SubdomainProjections] returns, for
    every non-empty list of distinct grids of its grid sequence, in any
    order, the matrix of [cell_restriction] of the list times the matrix of
    [cell_prolongation] of the list is the identity matrix on the stacked
    local cell indices of the listed grids; the prolongation has one row for
    each global cell index.  The same holds for the face operators when the
    point grids of the sequence have no faces. *)
Theorem restriction_prolongation_identity_list grids gb nd grid_list sp l :
  _grid_list grids gb = Ok grid_list →
  SubdomainProjections_init grids gb nd = Ok sp →
  NoDup l → (∀ g, g ∈ l → g ∈ grid_list) → l ≠ [] →
  (∃ R P,
     cell_restriction sp (GridList l) = Ok R ∧
     cell_prolongation sp (GridList l) = Ok P ∧
     nrows (mat P) = (sum_nat (num_cells <$> grid_list) * nd)%nat ∧
     ncols (mat P) = (sum_nat (num_cells <$> l) * nd)%nat ∧
     matmul (mat R) (mat P) = Ok (identity (sum_nat (num_cells <$> l) * nd))) ∧
  (faceless_points grid_list →
   ∃ R P,
     face_restriction sp (GridList l) = Ok R ∧
     face_prolongation sp (GridList l) = Ok P ∧
     nrows (mat P) = (sum_nat (num_faces <$> grid_list) * nd)%nat ∧
     ncols (mat P) = (sum_nat (num_faces <$> l) * nd)%nat ∧
     matmul (mat R) (mat P) = Ok (identity (sum_nat (num_faces <$> l) * nd))).
Proof.
  intros Hgl Hinit Hnd Hsub Hne.
  destruct (SubdomainProjections_init_Ok _ _ _ _ _ Hgl Hinit) as (proj & Hproj & Hc & Hf).
  apply subgrid_projections_layout in Hproj as [Hcp Hfp].
  unfold cell_restriction, cell_prolongation, face_restriction, face_prolongation.
  rewrite Hc, Hcp, Hf, Hfp. split.
  - destruct (restriction_prolongation_list
      (sum_nat (num_cells <$> grid_list) * nd) (cell_size nd) (cell_size nd) grid_list l)
      as (R & P & HR & HP & Hrows & Hcols & _ & _ & HRP); try done.
    rewrite sum_cell_size in *. by exists R, P.
  - intros Hpts.
    destruct (restriction_prolongation_list
      (sum_nat (num_faces <$> grid_list) * nd) (face_size nd) (face_advance nd) grid_list l)
      as (R & P & HR & HP & Hrows & Hcols & _ & _ & HRP); try done.
    { by apply face_advance_faceless. }
    rewrite sum_face_size in *. by exists R, P.
Qed.

Lemma restriction_prolongation_identity_list_witness :
  ∃ sp R P,
    SubdomainProjections_init (Some [plane; segment; point]) None 2 = Ok sp ∧
    cell_restriction sp (GridList [point; plane]) = Ok R ∧
    cell_prolongation sp (GridList [point; plane]) = Ok P ∧
    matmul (mat R) (mat P)
      = Ok (identity (sum_nat (num_cells <$> [point; plane]) * 2)).
Proof.
  destruct (SubdomainProjections_init (Some [plane; segment; point]) None 2)
    as [sp|e] eqn:Hinit; [| vm_compute in Hinit; discriminate Hinit].
  destruct (restriction_prolongation_identity_list
              (Some [plane; segment; point]) None 2 [plane; segment; point] sp
              [point; plane])
    as [(R & P & HR & HP & _ & _ & HRP) _].
  - reflexivity.
  - exact Hinit.
  - apply (bool_decide_unpack _). vm_compute. exact I.
  - intros g Hg. apply (bool_decide_unpack _).
    repeat (apply elem_of_cons in Hg as [-> | Hg]; [vm_compute; exact I |]).
    by apply elem_of_nil in Hg.
  - discriminate.
  - exists sp, R, P. auto.
Defined.

(** ** The whole grid sequence *)

Lemma traverse_layout tot sz d lay lay' :
  NoDup lay.*1 → (∀ p, p ∈ lay' → p ∈ lay) →
  traverse (dict_get (place tot sz d lay)) lay'.*1
  = Ok ((λ p, embedding p.2 (sz p.1) tot) <$> lay').
Proof.
  intros Hnd. induction lay' as [|[g o] lay' IH]; intros Hsub; [done |].
  cbn [fmap list_fmap traverse fst snd].
  change (list_fmap ?A ?B ?f ?l) with (f <$> l).
  assert (dict_get (place tot sz d lay) g = Ok (embedding o (sz g) tot)) as ->.
  { unfold dict_get. rewrite (place_lookup_in _ _ _ _ g o); [done .. |]. apply Hsub. left. }
  cbn [mbind result_bind bind]. rewrite IH by (intros; apply Hsub; by right). done.
Qed.

Lemma stacked_layout (adv sz : Grid → nat) l : ∀ o0 c,
  (∀ g, g ∈ l → adv g = sz g) →
  (c < sum_nat (sz <$> l))%nat →
  stacked ((λ p, (p.2, sz p.1)) <$> layout adv o0 l) c = (o0 + c)%nat.
Proof.
  induction l as [|g l IH]; intros o0 c Hadv Hc; [cbn in Hc; lia |].
  cbn [fmap list_fmap sum_nat foldr] in Hc.
  change (foldr Nat.add 0%nat ?x) with (sum_nat x) in Hc.
  cbn [layout fmap list_fmap stacked fst snd].
  change (list_fmap ?A ?B ?f ?l) with (f <$> l).
  destruct (Nat.ltb_spec c (sz g)); [done |].
  rewrite IH; [| intros; apply Hadv; by right | lia].
  rewrite (Hadv g) by left. lia.
Qed.

Lemma transpose_identity n : transpose (identity n) = identity n.
Proof.
  unfold transpose, identity. cbn [nrows ncols triples]. f_equal.
  rewrite <- list_fmap_compose. by apply list_fmap_ext.
Qed.

(** Prolongation from, and restriction to, all the grids of a layout. *)
Lemma prolongation_whole_layout (adv sz : Grid → nat) l :
  NoDup l → l ≠ [] → (∀ g, g ∈ l → adv g = sz g) →
  let d := place (sum_nat (sz <$> l)) sz ∅ (layout adv 0 l) in
  prolongation_of d (GridList l) = Ok (AdMatrix (identity (sum_nat (sz <$> l)))) ∧
  restriction_of d (GridList l) = Ok (AdMatrix (identity (sum_nat (sz <$> l)))).
Proof.
  intros Hnd Hne Hadv d.
  set (tot := sum_nat (sz <$> l)) in *.
  set (los := (λ p : Grid * nat, (p.2, sz p.1)) <$> layout adv 0 l).
  assert (traverse (dict_get d) l = Ok ((λ p, embedding p.1 p.2 tot) <$> los)) as Htrav.
  { unfold los. rewrite <- list_fmap_compose.
    rewrite <- (layout_fst adv 0 l) at 1. apply traverse_layout; [| done].
    by rewrite layout_fst. }
  assert (snd <$> los = sz <$> l) as Hsz.
  { unfold los. rewrite <- list_fmap_compose.
    rewrite <- (layout_fst adv 0 l) at 2. by rewrite <- list_fmap_compose. }
  assert (los ≠ []) as Hlos.
  { intros Hnil. rewrite Hnil in Hsz. destruct l; [done | discriminate Hsz]. }
  assert (selection (stacked los) tot (sum_nat (snd <$> los)) = identity tot) as Hsel.
  { rewrite Hsz. fold tot. unfold selection, identity. f_equal.
    apply list_fmap_ext. intros _ c Hc%list_elem_of_lookup_2%elem_of_seq.
    unfold los. rewrite stacked_layout by (done || (fold tot; lia)). done. }
  unfold restriction_of, prolongation_of.
  rewrite (traverse_transpose _ _ _ Htrav), Htrav. cbn [mbind result_bind bind].
  rewrite bmat_col_embeddings, bmat_row_embeddings by done.
  cbn [mbind result_bind bind]. unfold tocsr.
  by rewrite Hsel, transpose_identity.
Qed.

(** X11.  Whenever the constructor of [SubdomainProjections] returns for a
    non-empty sequence of distinct grids, [cell_prolongation] of the whole
    sequence, in its order, is the identity matrix on the global cell
    indices, and so is [cell_restriction]: the global ordering is the local
    orderings of the grids one after the other.  The same holds for the face
    operators when the point grids of the sequence have no faces. *)
Theorem whole_sequence_is_identity grids gb nd grid_list sp :
  _grid_list grids gb = Ok grid_list →
  SubdomainProjections_init grids gb nd = Ok sp →
  NoDup grid_list → grid_list ≠ [] →
  (cell_prolongation sp (GridList grid_list)
     = Ok (AdMatrix (identity (sum_nat (num_cells <$> grid_list) * nd))) ∧
   cell_restriction sp (GridList grid_list)
     = Ok (AdMatrix (identity (sum_nat (num_cells <$> grid_list) * nd)))) ∧
  (faceless_points grid_list →
   face_prolongation sp (GridList grid_list)
     = Ok (AdMatrix (identity (sum_nat (num_faces <$> grid_list) * nd))) ∧
   face_restriction sp (GridList grid_list)
     = Ok (AdMatrix (identity (sum_nat (num_faces <$> grid_list) * nd)))).
Proof.
  intros Hgl Hinit Hnd Hne.
  destruct (SubdomainProjections_init_Ok _ _ _ _ _ Hgl Hinit) as (proj & Hproj & Hc & Hf).
  apply subgrid_projections_layout in Hproj as [Hcp Hfp].
  unfold cell_restriction, cell_prolongation, face_restriction, face_prolongation.
  rewrite Hc, Hcp, Hf, Hfp. rewrite <- sum_cell_size, <- sum_face_size. split.
  - by apply (prolongation_whole_layout (cell_size nd) (cell_size nd)).
  - intros Hpts. apply (prolongation_whole_layout (face_advance nd) (face_size nd));
      try done. by apply face_advance_faceless.
Qed.

Lemma whole_sequence_is_identity_witness :
  ∃ sp,
    SubdomainProjections_init (Some [plane; segment; point]) None 2 = Ok sp ∧
    cell_prolongation sp (GridList [plane; segment; point])
      = Ok (AdMatrix (identity (sum_nat (num_cells <$> [plane; segment; point]) * 2))) ∧
    cell_restriction sp (GridList [plane; segment; point])
      = Ok (AdMatrix (identity (sum_nat (num_cells <$> [plane; segment; point]) * 2))).
Proof.
  destruct (SubdomainProjections_init (Some [plane; segment; point]) None 2)
    as [sp|e] eqn:Hinit; [| vm_compute in Hinit; discriminate Hinit].
  exists sp. split; [reflexivity |].
  apply (whole_sequence_is_identity
           (Some [plane; segment; point]) None 2 [plane; segment; point] sp).
  - reflexivity.
  - exact Hinit.
  - apply (bool_decide_unpack _). vm_compute. exact I.
  - discriminate.
Defined.

(** ** Shapes of stacked blocks *)

Lemma hstack_from_shape n blocks : ∀ off,
  Forall (λ B, nrows B = n) blocks →
  ∃ ts, hstack_from n off blocks = Ok (ts, (off + sum_nat (ncols <$> blocks))%nat).
Proof.
  induction blocks as [|B blocks IH]; intros off Hall.
  - exists []. cbn. by rewrite Nat.add_0_r.
  - apply Forall_cons in Hall as [HB Hall].
    destruct (IH (off + ncols B)%nat Hall) as [ts Hts].
    cbn [hstack_from]. rewrite HB, Nat.eqb_refl. cbn [negb]. rewrite Hts.
    cbn [mbind result_bind bind fst snd fmap list_fmap sum_nat foldr].
    eexists. do 2 f_equal. unfold sum_nat. lia.
Qed.

Lemma bmat_row_shape n blocks :
  blocks ≠ [] → Forall (λ B, nrows B = n) blocks →
  ∃ M, bmat_row blocks = Ok M ∧ nrows M = n ∧ ncols M = sum_nat (ncols <$> blocks).
Proof.
  intros Hne Hall. destruct blocks as [|B blocks]; [done |].
  unfold bmat_row. pose proof (Forall_inv Hall) as HB. cbn beta in HB. rewrite HB.
  destruct (hstack_from_shape n (B :: blocks) 0 Hall) as [ts ->].
  cbn [mbind result_bind bind fst snd]. by eexists.
Qed.

Lemma bmat_col_shape m blocks :
  blocks ≠ [] → Forall (λ B, ncols B = m) blocks →
  ∃ M, bmat_col blocks = Ok M ∧ ncols M = m ∧ nrows M = sum_nat (nrows <$> blocks).
Proof.
  intros Hne Hall. rewrite bmat_col_nonempty by done.
  destruct (bmat_row_shape m (transpose <$> blocks)) as (M & -> & Hr & Hc).
  - by destruct blocks.
  - apply Forall_fmap. by apply (Forall_impl _ _ _ Hall).
  - cbn [mbind result_bind bind]. eexists. split; [done |].
    cbn [transpose nrows ncols]. split; [done |].
    rewrite Hc, <- list_fmap_compose. done.
Qed.

Lemma Forall2_Forall_snd {A B} (P : A → B → Prop) (Q : B → Prop) l k :
  Forall2 P l k → (∀ x y, P x y → Q y) → Forall Q k.
Proof. induction 1; intros HPQ; constructor; eauto. Qed.

Lemma Forall2_fmap_eq {A B C} (f : A → C) (g : B → C) (P : A → B → Prop) l k :
  Forall2 P l k → (∀ x y, P x y → g y = f x) → g <$> k = f <$> l.
Proof.
  induction 1 as [|x y l k HP _ IH]; intros Hfg; [done |].
  cbn. rewrite (Hfg x y HP). f_equal. by apply IH.
Qed.

(** ** Trace *)

Section trace_proofs.
Variable scalar_divergence : Grid → spmatrix.

Local Abbreviation Trace_init := (GridOperatorsMerged.Trace_init scalar_divergence).
Local Abbreviation trace_step := (GridOperatorsMerged.trace_step scalar_divergence).

Lemma Trace_init_unfold grids gb nd :
  Trace_init grids gb nd =
  (grid_list ← _grid_list grids gb;
   proj ← _subgrid_projections grid_list nd;
   blocks ← for_each (trace_step proj (nd =? 1)%nat) ([], []) grid_list;
   t ← bmat_col blocks.1;
   it ← bmat_col blocks.2;
   Ok {| GridOperatorsMerged.tr_nd := nd;
         GridOperatorsMerged.tr_is_scalar := (nd =? 1)%nat;
         GridOperatorsMerged.tr_num_grids := length grid_list;
         GridOperatorsMerged.trace := AdMatrix (tocsr t);
         GridOperatorsMerged.inv_trace := AdMatrix (tocsr it) |}).
Proof. done. Qed.

Lemma for_each_trace_step_vector proj acc l :
  for_each (trace_step proj false) acc l
  = match l with [] => Ok acc | _ => Raise NotImplementedError end.
Proof. by destruct l. Qed.

(** X12.  [Trace] is built for scalar quantities only.  For [nd] other than
    one the constructor never returns; when the grid sequence is not empty
    and the projections of its grids can be built, it ends in
    [NotImplementedError]. *)
Theorem Trace_vector_not_implemented grids gb nd :
  nd ≠ 1%nat →
  (∀ t, Trace_init grids gb nd ≠ Ok t) ∧
  (∀ grid_list,
     _grid_list grids gb = Ok grid_list → grid_list ≠ [] →
     Forall (indexable nd) grid_list →
     Trace_init grids gb nd = Raise NotImplementedError).
Proof.
  intros Hnd. rewrite Trace_init_unfold.
  destruct (Nat.eqb_spec nd 1) as [? | _]; [done |]. split.
  - intros t. destruct (_grid_list grids gb) as [grid_list|]; [| done].
    cbn [mbind result_bind bind].
    destruct (_subgrid_projections grid_list nd) as [proj|]; [| done].
    cbn [mbind result_bind bind]. rewrite for_each_trace_step_vector.
    by destruct grid_list.
  - intros grid_list -> Hne Hall. cbn [mbind result_bind bind].
    destruct (subgrid_projections_indexable grid_list nd Hall) as [proj ->].
    cbn [mbind result_bind bind]. rewrite for_each_trace_step_vector.
    by destruct grid_list.
Qed.

Lemma trace_step_scalar proj acc g oc ofs tc tf :
  cell_projection proj !! g = Some (embedding oc (num_cells g) tc) →
  face_projection proj !! g = Some (embedding ofs (num_faces g) tf) →
  cells_by_faces scalar_divergence g →
  ∃ t it,
    trace_step proj true acc g = Ok (acc.1 ++ [t], acc.2 ++ [it]) ∧
    (nrows t = num_faces g ∧ ncols t = tc) ∧
    (nrows it = num_cells g ∧ ncols it = tf).
Proof.
  intros HMc HMf [Hrows Hcols].
  unfold GridOperatorsMerged.trace_step, dict_get.
  rewrite HMc, HMf. cbn [mbind result_bind bind].
  unfold matmul. cbn [transpose map_data embedding nrows ncols].
  rewrite Hrows, Hcols, !Nat.eqb_refl.
  cbn [negb mbind result_bind bind fst snd]. by eexists _, _.
Qed.

Lemma for_each_trace_step_scalar proj tc tf l : ∀ acc,
  embeddings_of (cell_size 1) tc (cell_projection proj) →
  embeddings_of (face_size 1) tf (face_projection proj) →
  (∀ g, g ∈ l → is_Some (cell_projection proj !! g) ∧
               is_Some (face_projection proj !! g) ∧
               cells_by_faces scalar_divergence g) →
  ∃ ts its,
    for_each (trace_step proj true) acc l = Ok (acc.1 ++ ts, acc.2 ++ its) ∧
    Forall2 (λ g B, nrows B = num_faces g ∧ ncols B = tc) l ts ∧
    Forall2 (λ g B, nrows B = num_cells g ∧ ncols B = tf) l its.
Proof.
  intros acc Hc Hf. revert acc. induction l as [|g l IH]; intros acc Hl.
  - exists [], []. rewrite !app_nil_r. by destruct acc.
  - destruct (Hl g) as ([Mc HMc] & [Mf HMf] & Hdiv); [left |].
    destruct (Hc g Mc HMc) as [oc ->]. destruct (Hf g Mf HMf) as [ofs ->].
    unfold cell_size, face_size in HMc, HMf. rewrite Nat.mul_1_r in HMc, HMf.
    destruct (trace_step_scalar proj acc g oc ofs tc tf HMc HMf Hdiv)
      as (t & it & Hstep & Ht & Hit).
    destruct (IH (acc.1 ++ [t], acc.2 ++ [it])) as (ts & its & Hrun & Hts & Hits);
      [intros; apply Hl; by right |].
    exists (t :: ts), (it :: its).
    cbn [for_each]. rewrite Hstep. cbn [mbind result_bind bind]. rewrite Hrun.
    cbn [fst snd]. rewrite <- !app_assoc. cbn [app].
    split; [done |]. split; by constructor.
Qed.

(** X13.  For scalar quantities, a non-empty grid sequence in which every
    grid has a cell (and a face, when its dimension is positive), and a
    divergence with one row per cell and one column per face, the
    constructor of [Trace] returns.  The trace matrix has one row for each
    face and one column for each cell of the sequence; the inverse trace has
    one row for each cell and one column for each face. *)
Theorem Trace_scalar_shapes grids gb grid_list :
  _grid_list grids gb = Ok grid_list → grid_list ≠ [] →
  Forall (indexable 1) grid_list →
  Forall (cells_by_faces scalar_divergence) grid_list →
  ∃ t,
    Trace_init grids gb 1 = Ok t ∧
    GridOperatorsMerged.tr_num_grids t = length grid_list ∧
    nrows (mat (GridOperatorsMerged.trace t)) = sum_nat (num_faces <$> grid_list) ∧
    ncols (mat (GridOperatorsMerged.trace t)) = sum_nat (num_cells <$> grid_list) ∧
    nrows (mat (GridOperatorsMerged.inv_trace t)) = sum_nat (num_cells <$> grid_list) ∧
    ncols (mat (GridOperatorsMerged.inv_trace t)) = sum_nat (num_faces <$> grid_list).
Proof.
  intros Hgl Hne Hall Hdiv. rewrite Trace_init_unfold, Hgl.
  cbn [mbind result_bind bind].
  destruct (subgrid_projections_indexable grid_list 1 Hall) as [proj Hproj].
  rewrite Hproj. cbn [mbind result_bind bind Nat.eqb].
  apply subgrid_projections_embeddings in Hproj as (Hc & Hf & Hkc & Hkf).
  rewrite !Nat.mul_1_r in Hc, Hf.
  destruct (for_each_trace_step_scalar proj _ _ grid_list ([], []) Hc Hf)
    as (ts & its & -> & Hts & Hits).
  { intros g Hg. split; [by apply Hkc |]. split; [by apply Hkf |].
    by apply (proj1 (Forall_forall _ _) Hdiv). }
  cbn [mbind result_bind bind fst snd app].
  destruct (bmat_col_shape (sum_nat (num_cells <$> grid_list)) ts)
    as (T & -> & HTc & HTr).
  { intros ->. apply Forall2_length in Hts. by destruct grid_list. }
  { apply (Forall2_Forall_snd _ _ _ _ Hts). by intros ? ? [_ ?]. }
  destruct (bmat_col_shape (sum_nat (num_faces <$> grid_list)) its)
    as (IT & -> & HITc & HITr).
  { intros ->. apply Forall2_length in Hits. by destruct grid_list. }
  { apply (Forall2_Forall_snd _ _ _ _ Hits). by intros ? ? [_ ?]. }
  cbn [mbind result_bind bind]. eexists. split; [done |].
  cbn [GridOperatorsMerged.tr_num_grids GridOperatorsMerged.trace
       GridOperatorsMerged.inv_trace mat tocsr].
  unfold tocsr. split; [done |].
  assert (nrows <$> ts = num_faces <$> grid_list) as Hrt.
  { apply (Forall2_fmap_eq _ _ _ _ _ Hts). by intros ? ? [? _]. }
  assert (nrows <$> its = num_cells <$> grid_list) as Hrit.
  { apply (Forall2_fmap_eq _ _ _ _ _ Hits). by intros ? ? [? _]. }
  by rewrite HTr, HTc, HITr, HITc, Hrt, Hrit.
Qed.

End trace_proofs.

Lemma Trace_vector_not_implemented_witness :
  (∀ t, GridOperatorsMerged.Trace_init (λ g, SpMatrix (num_cells g) (num_faces g) [])
          (Some [segment; point]) None 2 ≠ Ok t) ∧
  (∀ grid_list,
     _grid_list (Some [segment; point]) None = Ok grid_list → grid_list ≠ [] →
     Forall (indexable 2) grid_list →
     GridOperatorsMerged.Trace_init (λ g, SpMatrix (num_cells g) (num_faces g) [])
       (Some [segment; point]) None 2 = Raise NotImplementedError).
Proof. apply Trace_vector_not_implemented. lia. Defined.

Lemma Trace_scalar_shapes_witness :
  ∃ t,
    GridOperatorsMerged.Trace_init (λ g, SpMatrix (num_cells g) (num_faces g) [])
      (Some [segment; point]) None 1 = Ok t ∧
    GridOperatorsMerged.tr_num_grids t = length [segment; point] ∧
    nrows (mat (GridOperatorsMerged.trace t)) = sum_nat (num_faces <$> [segment; point]) ∧
    ncols (mat (GridOperatorsMerged.trace t)) = sum_nat (num_cells <$> [segment; point]) ∧
    nrows (mat (GridOperatorsMerged.inv_trace t)) = sum_nat (num_cells <$> [segment; point]) ∧
    ncols (mat (GridOperatorsMerged.inv_trace t)) = sum_nat (num_faces <$> [segment; point]).
Proof.
  apply Trace_scalar_shapes.
  - reflexivity.
  - discriminate.
  - repeat constructor; cbn; lia.
  - repeat constructor.
Defined.

(** ** Divergence *)

Lemma sumZ_app l1 l2 : sumZ (l1 ++ l2) = sumZ l1 + sumZ l2.
Proof. unfold sumZ. induction l1 as [|x l1 IH]; cbn; lia. Qed.

Lemma entry_app n m ts1 ts2 r c :
  entry (SpMatrix n m (ts1 ++ ts2)) r c
  = entry (SpMatrix n m ts1) r c + entry (SpMatrix n m ts2) r c.
Proof.
  unfold entry, stored. cbn [triples].
  by rewrite List.filter_app, fmap_app, sumZ_app.
Qed.

Lemma entry_outside n m ts r c :
  Forall (λ t, t_row t ≠ r ∨ t_col t ≠ c) ts → entry (SpMatrix n m ts) r c = 0.
Proof.
  unfold entry, stored. cbn [triples].
  induction 1 as [|t ts Ht _ IH]; [done |]. cbn [List.filter].
  destruct (Nat.eqb_spec (t_row t) r), (Nat.eqb_spec (t_col t) c);
    cbn [andb]; try done. by destruct Ht.
Qed.

Lemma entry_shifted n m n' m' ro co ts r c :
  entry (SpMatrix n m ((λ t, ((ro + t_row t)%nat, (co + t_col t)%nat, t_val t)) <$> ts))
    (ro + r) (co + c)
  = entry (SpMatrix n' m' ts) r c.
Proof.
  unfold entry, stored. cbn [triples]. f_equal.
  induction ts as [|t ts IH]; [done |].
  rewrite fmap_cons. cbn [List.filter].
  assert ((t_row ((ro + t_row t)%nat, (co + t_col t)%nat, t_val t) =? ro + r)%nat
          && (t_col ((ro + t_row t)%nat, (co + t_col t)%nat, t_val t) =? co + c)%nat
          = (t_row t =? r)%nat && (t_col t =? c)%nat) as ->.
  { unfold t_row at 1. cbn [fst snd]. unfold t_col at 1. cbn [fst snd].
    destruct (Nat.eqb_spec (ro + t_row t) (ro + r)), (Nat.eqb_spec (t_row t) r),
      (Nat.eqb_spec (co + t_col t) (co + c)), (Nat.eqb_spec (t_col t) c);
      try done; exfalso; lia. }
  destruct ((t_row t =? r)%nat && (t_col t =? c)%nat); [| exact IH].
  rewrite !fmap_cons, IH. done.
Qed.

Lemma block_diag_from_shape mats : ∀ ro co,
  (block_diag_from ro co mats).2
  = ((ro + sum_nat (nrows <$> mats))%nat, (co + sum_nat (ncols <$> mats))%nat).
Proof.
  induction mats as [|B mats IH]; intros ro co.
  - cbn. by rewrite !Nat.add_0_r.
  - cbn [block_diag_from snd fmap list_fmap sum_nat foldr]. rewrite IH.
    unfold sum_nat. f_equal; lia.
Qed.

Lemma block_diag_from_bounds mats : ∀ ro co,
  Forall in_shape mats →
  Forall (λ t, (ro ≤ t_row t)%nat ∧ (co ≤ t_col t)%nat) (block_diag_from ro co mats).1.
Proof.
  induction mats as [|B mats IH]; intros ro co Hall; [constructor |].
  apply Forall_cons in Hall as [HB Hall].
  cbn [block_diag_from fst]. apply Forall_app. split.
  - apply Forall_fmap. apply Forall_forall. intros t _. cbn. lia.
  - apply (Forall_impl _ _ _ (IH _ _ Hall)). intros t. cbn beta. lia.
Qed.

(** The entries of a block-diagonal matrix at the offsets of two layouts:
    the block of the grid on the diagonal, zero elsewhere. *)
Lemma block_diag_from_entry (div : Grid → spmatrix) n m l : ∀ ro co g oc c g' ofs f,
  NoDup l →
  Forall (λ g, in_shape (div g)) l →
  (g, oc) ∈ layout (nrows ∘ div) ro l →
  (g', ofs) ∈ layout (ncols ∘ div) co l →
  (c < nrows (div g))%nat → (f < ncols (div g'))%nat →
  entry (SpMatrix n m (block_diag_from ro co (div <$> l)).1) (oc + c) (ofs + f)
  = if decide (g = g') then entry (div g) c f else 0.
Proof.
  induction l as [|g0 l IH]; intros ro co g oc c g' ofs f Hnd Hshape Hg Hg' Hc Hf;
    [by apply elem_of_nil in Hg |].
  apply NoDup_cons in Hnd as [Hg0 Hnd].
  apply Forall_cons in Hshape as [Hshape0 Hshape].
  cbn [layout] in Hg, Hg'. cbn [fmap list_fmap block_diag_from fst].
  change (list_fmap ?A ?B ?f ?l) with (f <$> l).
  rewrite entry_app.
  assert (∀ h o, (h, o) ∈ layout (nrows ∘ div) (ro + (nrows ∘ div) g0) l →
    h ∈ l ∧ (ro + nrows (div g0) ≤ o)%nat) as Hrows.
  { intros h o Ho. split.
    - rewrite <- (layout_fst (nrows ∘ div) (ro + (nrows ∘ div) g0) l).
      apply list_elem_of_fmap. by exists (h, o).
    - by apply (layout_bounds _ (nrows ∘ div)) in Ho as [? _]. }
  assert (∀ h o, (h, o) ∈ layout (ncols ∘ div) (co + (ncols ∘ div) g0) l →
    h ∈ l ∧ (co + ncols (div g0) ≤ o)%nat) as Hcols.
  { intros h o Ho. split.
    - rewrite <- (layout_fst (ncols ∘ div) (co + (ncols ∘ div) g0) l).
      apply list_elem_of_fmap. by exists (h, o).
    - by apply (layout_bounds _ (ncols ∘ div)) in Ho as [? _]. }
  pose proof (block_diag_from_bounds (div <$> l) (ro + nrows (div g0))
                (co + ncols (div g0))) as Hrest.
  specialize (Hrest ltac:(by apply Forall_fmap)).
  assert (∀ r k, (r < ro + nrows (div g0))%nat ∨ (k < co + ncols (div g0))%nat →
    entry (SpMatrix n m (block_diag_from (ro + nrows (div g0)) (co + ncols (div g0))
                           (div <$> l)).1) r k = 0) as Hrest0.
  { intros r k Hrk. apply entry_outside.
    apply (Forall_impl _ _ _ Hrest). intros t. cbn beta. lia. }
  assert (∀ r k, (ro + nrows (div g0) ≤ r)%nat ∨ (co + ncols (div g0) ≤ k)%nat →
    entry (SpMatrix n m ((λ t, ((ro + t_row t)%nat, (co + t_col t)%nat, t_val t))
                           <$> triples (div g0))) r k = 0) as Hhead0.
  { intros r k Hrk. apply entry_outside. apply Forall_fmap.
    apply (Forall_impl _ _ _ Hshape0). intros t. unfold t_row, t_col. cbn. lia. }
  apply elem_of_cons in Hg as [[= -> ->] | Hg];
    apply elem_of_cons in Hg' as [[= -> ->] | Hg'].
  - rewrite decide_True by done.
    rewrite (entry_shifted _ _ (nrows (div g0)) (ncols (div g0))).
    rewrite Hrest0 by lia. destruct (div g0). cbn. lia.
  - destruct (Hcols _ _ Hg') as [Hin Hle].
    rewrite decide_False by (by intros ->).
    rewrite Hhead0, Hrest0 by lia. done.
  - destruct (Hrows _ _ Hg) as [Hin Hle].
    rewrite decide_False by (by intros ->).
    rewrite Hhead0, Hrest0 by lia. done.
  - destruct (Hrows _ _ Hg) as [_ Hle].
    rewrite Hhead0 by lia. rewrite (IH _ _ g oc c g' ofs f); done.
Qed.

Lemma layout_ext (adv1 adv2 : Grid → nat) l : ∀ o,
  (∀ g, g ∈ l → adv1 g = adv2 g) → layout adv1 o l = layout adv2 o l.
Proof.
  induction l as [|g l IH]; intros o H; [done |].
  cbn [layout]. rewrite (H g) by left. f_equal. apply IH. intros; apply H; by right.
Qed.

Lemma prolongation_of_layout tot sz adv l g P :
  NoDup l →
  prolongation_of (place tot sz ∅ (layout adv 0 l)) (OneGrid g) = Ok P →
  ∃ o, (g, o) ∈ layout adv 0 l ∧ mat P = embedding o (sz g) tot.
Proof.
  intros Hnd. unfold prolongation_of, dict_get.
  destruct (place _ _ _ _ !! g) as [M|] eqn:HM; [| done].
  cbn [mbind result_bind bind]. intros [= <-]. cbn [mat].
  destruct (decide (g ∈ l)) as [Hg | Hg].
  - destruct (place_lookup_elem tot sz (layout adv 0 l) ∅ g) as (o & Ho & Hlook);
      [by rewrite layout_fst |].
    exists o. split; [done | congruence].
  - rewrite place_lookup_other in HM by (by rewrite layout_fst). done.
Qed.

Section divergence_proofs.
Variables scalar_divergence vector_divergence : Grid → spmatrix.

Local Abbreviation Divergence_init :=
  (GridOperatorsMerged.Divergence_init).
Local Abbreviation Divergence_parse :=
  (GridOperatorsMerged.Divergence_parse scalar_divergence vector_divergence).


End divergence_proofs.

(** ** MortarProjections on admissible edges *)

Lemma snoc_shaped (Q : spmatrix → Prop) (l : list spmatrix) B n :
  length l = n ∧ Forall Q l → Q B → length (l ++ [B]) = S n ∧ Forall Q (l ++ [B]).
Proof.
  intros [Hlen Hall] HB. split.
  - rewrite length_app. cbn. lia.
  - apply Forall_app. split; [done |]. by constructor.
Qed.

Lemma mortar_step_shaped gb proj nd tf tc grid_list acc e n :
  embeddings_of (cell_size nd) tc (cell_projection proj) →
  embeddings_of (face_size nd) tf (face_projection proj) →
  (∀ g, g ∈ grid_list → is_Some (cell_projection proj !! g)) →
  (∀ g, g ∈ grid_list → is_Some (face_projection proj !! g)) →
  admissible gb grid_list nd e →
  blocks_shaped tf tc n acc →
  ∃ b, mortar_step gb proj nd acc e = Ok b ∧ blocks_shaped tf tc (S n) b.
Proof.
  intros Hc Hf Hkc Hkf (mg & Hmg & Hstd & Hp & Hs & Hfit) Hacc.
  destruct e as [gp gs]. cbn [fst snd] in Hp, Hs, Hfit.
  destruct (Hkf gp Hp) as [Mf HMf]. destruct (Hf gp Mf HMf) as [ofs ->].
  destruct (Hkc gs Hs) as [Mc HMc]. destruct (Hc gs Mc HMc) as [oc ->].
  destruct Hfit as (H1 & H2 & H3 & H4 & H5 & H6 & H7 & H8).
  unfold mortar_step. rewrite Hmg. cbn [mbind result_bind bind]. rewrite Hstd.
  unfold dict_get. rewrite HMf, HMc. cbn [mbind result_bind bind].
  unfold matmul. cbn [transpose embedding nrows ncols].
  rewrite H1, H2, H3, H4, H5, H6, H7, H8, !Nat.eqb_refl.
  cbn [negb mbind result_bind bind].
  eexists. split; [done |].
  destruct Hacc as (A1 & A2 & A3 & A4 & A5 & A6 & A7 & A8).
  unfold blocks_shaped.
  cbn [b_mortar_to_primary_int b_mortar_to_primary_avg b_primary_to_mortar_int
       b_primary_to_mortar_avg b_mortar_to_secondary_int b_mortar_to_secondary_avg
       b_secondary_to_mortar_int b_secondary_to_mortar_avg].
  repeat (split; [by apply snoc_shaped |]). by apply snoc_shaped.
Qed.

Lemma for_each_mortar_step_shaped gb proj nd tf tc grid_list l : ∀ acc n,
  embeddings_of (cell_size nd) tc (cell_projection proj) →
  embeddings_of (face_size nd) tf (face_projection proj) →
  (∀ g, g ∈ grid_list → is_Some (cell_projection proj !! g)) →
  (∀ g, g ∈ grid_list → is_Some (face_projection proj !! g)) →
  Forall (admissible gb grid_list nd) l →
  blocks_shaped tf tc n acc →
  ∃ b, for_each (mortar_step gb proj nd) acc l = Ok b ∧
       blocks_shaped tf tc (n + length l) b.
Proof.
  induction l as [|e l IH]; intros acc n Hc Hf Hkc Hkf Hall Hacc.
  - exists acc. split; [done |]. by rewrite Nat.add_0_r.
  - apply Forall_cons in Hall as [He Hall].
    destruct (mortar_step_shaped gb proj nd tf tc grid_list acc e n)
      as (b1 & Hstep & Hb1); try done.
    destruct (IH b1 (S n)) as (b & Hrun & Hb); try done.
    exists b. cbn [for_each length]. rewrite Hstep. cbn [mbind result_bind bind].
    split; [done |]. by replace (n + S (length l))%nat with (S n + length l)%nat by lia.
Qed.

Lemma traverse_sign_Ok gb grid_list nd l :
  Forall (admissible gb grid_list nd) l →
  ∃ mats,
    traverse (λ e, mg ← mortar_grid_of gb e; Ok (sign_of_mortar_sides mg nd)) l = Ok mats ∧
    length mats = length l.
Proof.
  induction 1 as [|e l (mg & Hmg & _) _ (mats & IH & Hlen)]; [by exists [] |].
  exists (sign_of_mortar_sides mg nd :: mats). cbn [traverse].
  rewrite Hmg. cbn [mbind result_bind bind]. rewrite IH. cbn. by rewrite Hlen.
Qed.

(** X15.  The constructor of [MortarProjections] returns when the grid
    sequence consists of grids with cells (and faces, in positive
    dimension), the list of edges is not empty, and every edge is
    admissible: it has a mortar grid of the standard dimensions, its two
    grids belong to the grid sequence, and the projections of its mortar
    grid fit the faces of the primary and the cells of the secondary grid.
    The object counts the edges; the projections from the mortar grids have
    one row for each global face (primary) or cell (secondary) index, and
    the projections onto the mortar grids have as many columns. *)
Theorem MortarProjections_shapes grids gb edges nd grid_list edge_list :
  _grid_list grids gb = Ok grid_list →
  edge_list_of edges gb = Ok edge_list → edge_list ≠ [] →
  Forall (indexable nd) grid_list →
  Forall (admissible gb grid_list nd) edge_list →
  let tf := (sum_nat (num_faces <$> grid_list) * nd)%nat in
  let tc := (sum_nat (num_cells <$> grid_list) * nd)%nat in
  ∃ mp,
    MortarProjections_init grids gb edges nd = Ok mp ∧
    mp_num_edges mp = length edge_list ∧
    (nrows (mat (mp_mortar_to_primary_int mp)) = tf ∧
     nrows (mat (mp_mortar_to_primary_avg mp)) = tf ∧
     ncols (mat (mp_primary_to_mortar_int mp)) = tf ∧
     ncols (mat (mp_primary_to_mortar_avg mp)) = tf) ∧
    (nrows (mat (mp_mortar_to_secondary_int mp)) = tc ∧
     nrows (mat (mp_mortar_to_secondary_avg mp)) = tc ∧
     ncols (mat (mp_secondary_to_mortar_int mp)) = tc ∧
     ncols (mat (mp_secondary_to_mortar_avg mp)) = tc).
Proof.
  intros Hgl Hel Hne Hall Hadm tf tc.
  rewrite MortarProjections_init_unfold, Hgl, Hel. cbn [mbind result_bind bind].
  destruct (subgrid_projections_indexable grid_list nd Hall) as [proj Hproj].
  rewrite Hproj. cbn [mbind result_bind bind].
  apply subgrid_projections_embeddings in Hproj as (Hc & Hf & Hkc & Hkf).
  destruct (for_each_mortar_step_shaped gb proj nd tf tc grid_list edge_list no_blocks 0)
    as (b & -> & Hb); try done.
  cbn [mbind result_bind bind]. cbn [Nat.add] in Hb.
  destruct Hb as ((L1 & A1) & (L2 & A2) & (L3 & A3) & (L4 & A4) &
                  (L5 & A5) & (L6 & A6) & (L7 & A7) & (L8 & A8)).
  assert (∀ l : list spmatrix, length l = length edge_list → l ≠ []) as Hnil.
  { intros l Hl ->. by destruct edge_list. }
  destruct (bmat_row_shape tf (b_mortar_to_primary_int b) (Hnil _ L1) A1)
    as (a1 & -> & R1 & _).
  destruct (bmat_row_shape tf (b_mortar_to_primary_avg b) (Hnil _ L2) A2)
    as (a2 & -> & R2 & _).
  destruct (bmat_row_shape tc (b_mortar_to_secondary_int b) (Hnil _ L5) A5)
    as (a3 & -> & R3 & _).
  destruct (bmat_row_shape tc (b_mortar_to_secondary_avg b) (Hnil _ L6) A6)
    as (a4 & -> & R4 & _).
  destruct (bmat_col_shape tf (b_primary_to_mortar_int b) (Hnil _ L3) A3)
    as (a5 & -> & R5 & _).
  destruct (bmat_col_shape tf (b_primary_to_mortar_avg b) (Hnil _ L4) A4)
    as (a6 & -> & R6 & _).
  destruct (bmat_col_shape tc (b_secondary_to_mortar_int b) (Hnil _ L7) A7)
    as (a7 & -> & R7 & _).
  destruct (bmat_col_shape tc (b_secondary_to_mortar_avg b) (Hnil _ L8) A8)
    as (a8 & -> & R8 & _).
  cbn [mbind result_bind bind].
  destruct (traverse_sign_Ok gb grid_list nd edge_list Hadm) as (mats & -> & Hlen).
  cbn [mbind result_bind bind].
  destruct mats as [|S0 mats]; [by destruct edge_list |].
  cbn [block_diag mbind result_bind bind].
  eexists. split; [done |]. unfold tocsr. cbn. done.
Qed.

Lemma MortarProjections_shapes_witness :
  ∃ mp,
    MortarProjections_init None (Some fitted_bucket) None 1 = Ok mp ∧
    mp_num_edges mp = length [standard_edge] ∧
    (nrows (mat (mp_mortar_to_primary_int mp)) = 14%nat ∧
     nrows (mat (mp_mortar_to_primary_avg mp)) = 14%nat ∧
     ncols (mat (mp_primary_to_mortar_int mp)) = 14%nat ∧
     ncols (mat (mp_primary_to_mortar_avg mp)) = 14%nat) ∧
    (nrows (mat (mp_mortar_to_secondary_int mp)) = 5%nat ∧
     nrows (mat (mp_mortar_to_secondary_avg mp)) = 5%nat ∧
     ncols (mat (mp_secondary_to_mortar_int mp)) = 5%nat ∧
     ncols (mat (mp_secondary_to_mortar_avg mp)) = 5%nat).
Proof.
  apply (MortarProjections_shapes None (Some fitted_bucket) None 1
           [plane; segment] [standard_edge]).
  - reflexivity.
  - reflexivity.
  - discriminate.
  - repeat constructor; cbn; lia.
  - constructor; [| constructor].
    exists fitted_mortar. split; [reflexivity |]. split; [reflexivity |].
    split; [left |]. split; [right; left |]. repeat split.
Defined.

(** ** BoundaryCondition *)

Lemma concat_layout_lookup {A} (vals : Grid → list A) l : ∀ o0 g o f,
  NoDup l → (g, o) ∈ layout (length ∘ vals) o0 l → (f < length (vals g))%nat →
  (o0 ≤ o)%nat ∧ concat (vals <$> l) !! (o - o0 + f)%nat = vals g !! f.
Proof.
  induction l as [|g0 l IH]; intros o0 g o f Hnd Hg Hf; [by apply elem_of_nil in Hg |].
  apply NoDup_cons in Hnd as [Hg0 Hnd]. cbn [layout] in Hg.
  cbn [fmap list_fmap concat]. change (list_fmap ?A ?B ?f ?l) with (f <$> l).
  apply elem_of_cons in Hg as [[= -> ->] | Hg].
  - split; [done |]. rewrite Nat.sub_diag. cbn [Nat.add]. by rewrite lookup_app_l.
  - destruct (IH _ _ _ f Hnd Hg Hf) as [Hle Hlook]. unfold compose in *.
    split; [lia |]. rewrite lookup_app_r by lia. rewrite <- Hlook. f_equal. lia.
Qed.

Lemma traverse_fmap_Ok {A B} (f : A → result B) (h : A → B) (l : list A) :
  (∀ a, a ∈ l → f a = Ok (h a)) → traverse f l = Ok (h <$> l).
Proof.
  induction l as [|a l IH]; intros H; [done |].
  cbn [traverse]. rewrite (H a) by left. cbn [mbind result_bind bind].
  rewrite IH by (intros; apply H; by right). done.
Qed.

Section boundary_proofs.
Context {A : Type}.
Variable PARAMETERS : string.
Variable node_props : Grid → result (@GridOperatorsMerged.node_data A).

Local Abbreviation bc_values := (GridOperatorsMerged.bc_values PARAMETERS node_props).
Local Abbreviation BoundaryCondition_parse :=
  (GridOperatorsMerged.BoundaryCondition_parse PARAMETERS node_props).

(** X16.  The boundary values of [BoundaryCondition.parse] are ordered as the
    faces of [SubdomainProjections].  For a non-empty sequence of distinct
    grids whose point grids have no faces, each with one boundary value per
    face under the keyword, [parse] returns one value for each face of the
    sequence; if [k] is the global index of the local face [f] of a grid
    [g], the value at position [k] is the value of [g] at [f]. *)
Theorem BoundaryCondition_parse_matches_projections
    keyword grids gb grid_list sp bc (vals : Grid → list A) :
  _grid_list grids gb = Ok grid_list →
  NoDup grid_list → grid_list ≠ [] → faceless_points grid_list →
  SubdomainProjections_init grids gb 1 = Ok sp →
  GridOperatorsMerged.BoundaryCondition_init keyword grids gb = Ok bc →
  (∀ g, g ∈ grid_list →
     bc_values bc g = Ok (vals g) ∧ length (vals g) = num_faces g) →
  ∃ v,
    BoundaryCondition_parse bc = Ok v ∧
    length v = sum_nat (num_faces <$> grid_list) ∧
    ∀ g Pf k f,
      face_prolongation sp (OneGrid g) = Ok Pf →
      entry (mat Pf) k f = 1 →
      v !! k = vals g !! f.
Proof.
  intros Hgl Hnd Hne Hpts Hinit Hbc Hvals.
  unfold GridOperatorsMerged.BoundaryCondition_init in Hbc. rewrite Hgl in Hbc.
  injection Hbc as <-.
  unfold GridOperatorsMerged.BoundaryCondition_parse.
  cbn [GridOperatorsMerged.bc_g].
  rewrite (traverse_fmap_Ok _ vals) by (intros g Hg; by destruct (Hvals g Hg)).
  cbn [mbind result_bind bind]. unfold GridOperatorsMerged.hstack.
  destruct (vals <$> grid_list) as [|v0 vs] eqn:Hv; [by destruct grid_list |].
  rewrite <- Hv. clear v0 vs Hv.
  eexists. split; [done |]. split.
  - clear -Hvals. induction grid_list as [|g l IH]; [done |].
    cbn [fmap list_fmap concat sum_nat foldr]. rewrite length_app.
    destruct (Hvals g) as [_ ->]; [left |].
    f_equal. apply IH. intros; apply Hvals; by right.
  - intros g Pf k f HPf Hkf.
    destruct (SubdomainProjections_init_Ok _ _ _ _ _ Hgl Hinit) as (proj & Hproj & _ & Hf).
    apply subgrid_projections_layout in Hproj as [_ Hfp].
    unfold face_prolongation in HPf. rewrite Hf, Hfp in HPf.
    apply prolongation_of_layout in HPf as (o & Ho & HM); [| done].
    rewrite HM, entry_embedding in Hkf.
    destruct (Nat.ltb_spec f (face_size 1 g)) as [Hflt |]; [| done].
    destruct (Nat.eqb_spec k (o + f)) as [-> |]; [| done].
    assert (g ∈ grid_list) as Hg.
    { rewrite <- (layout_fst (face_advance 1) 0 grid_list).
      apply list_elem_of_fmap. by exists (g, o). }
    destruct (Hvals g Hg) as [_ Hlen].
    rewrite (layout_ext _ (length ∘ vals)) in Ho.
    + destruct (concat_layout_lookup vals grid_list 0 g o f Hnd Ho) as [_ Hlook].
      { unfold face_size in Hflt. lia. }
      by rewrite Nat.sub_0_r in Hlook.
    + intros h Hh. rewrite (face_advance_faceless 1 grid_list Hpts h Hh).
      destruct (Hvals h Hh) as [_ Hl]. unfold face_size. cbn. lia.
Qed.

End boundary_proofs.


Lemma BoundaryCondition_parse_matches_projections_witness :
  let grid_list := [plane; segment; point] in
  let v := [300; 301; 302; 303; 304; 305; 306; 307; 308; 309; 310; 311; 0; 1] in
  ∃ sp,
    SubdomainProjections_init (Some grid_list) None 1 = Ok sp ∧
    GridOperatorsMerged.BoundaryCondition_parse "parameters" numbered_flow
      {| GridOperatorsMerged.bc_keyword := "flow";
         GridOperatorsMerged.bc_g := grid_list |} = Ok v ∧
    length v = sum_nat (num_faces <$> grid_list) ∧
    ∀ g Pf k f,
      face_prolongation sp (OneGrid g) = Ok Pf →
      entry (mat Pf) k f = 1 →
      v !! k = numbered_values g !! f.
Proof.
  intros grid_list v.
  destruct (SubdomainProjections_init (Some grid_list) None 1) as [sp|e] eqn:Hinit;
    [| vm_compute in Hinit; discriminate Hinit].
  destruct (BoundaryCondition_parse_matches_projections "parameters" numbered_flow
              "flow" (Some grid_list) None grid_list sp
              {| GridOperatorsMerged.bc_keyword := "flow";
                 GridOperatorsMerged.bc_g := grid_list |}
              numbered_values)
    as (v' & Hv & Hrest).
  - reflexivity.
  - apply (bool_decide_unpack _). vm_compute. exact I.
  - discriminate.
  - repeat constructor; cbn; intros; (reflexivity || discriminate).
  - exact Hinit.
  - reflexivity.
  - intros g Hg. split; [reflexivity |].
    unfold numbered_values. by rewrite length_fmap, length_seq.
  - assert (v' = v) as -> by (vm_compute in Hv; by injection Hv).
    exists sp. auto.
Defined.

(** ** What the constructor of MortarProjections requires *)

Lemma place_key tot sz adv l g M :
  place tot sz ∅ (layout adv 0 l) !! g = Some M → g ∈ l.
Proof.
  intros HM. destruct (decide (g ∈ l)) as [? | Hg]; [done |].
  rewrite place_lookup_other in HM by (by rewrite layout_fst). done.
Qed.

Lemma matmul_Ok A B M : matmul A B = Ok M → ncols A = nrows B.
Proof. unfold matmul. by destruct (Nat.eqb_spec (ncols A) (nrows B)). Qed.

Lemma mortar_step_Ok_admissible gb grid_list nd proj acc e b :
  _subgrid_projections grid_list nd = Ok proj →
  mortar_step gb proj nd acc e = Ok b →
  admissible gb grid_list nd e.
Proof.
  intros Hproj Hstep.
  destruct (subgrid_projections_layout _ _ _ Hproj) as [Hcp Hfp].
  apply subgrid_projections_embeddings in Hproj as (Hc & Hf & _ & _).
  destruct e as [gp gs]. unfold mortar_step in Hstep.
  destruct (mortar_grid_of gb (gp, gs)) as [mg|] eqn:Hmg; [| done].
  cbn [mbind result_bind bind] in Hstep.
  destruct (non_standard (gp, gs) mg) eqn:Hstd; [done |].
  unfold dict_get in Hstep.
  destruct (face_projection proj !! gp) as [Mf|] eqn:HMf; [| done].
  cbn [mbind result_bind bind] in Hstep.
  destruct (Hf gp Mf HMf) as [ofs ->].
  destruct (matmul _ (mortar_to_primary_int mg nd)) as [m1|] eqn:H1; [| done].
  cbn [mbind result_bind bind] in Hstep.
  destruct (matmul _ (mortar_to_primary_avg mg nd)) as [m2|] eqn:H2; [| done].
  cbn [mbind result_bind bind] in Hstep.
  destruct (matmul (primary_to_mortar_int mg nd) _) as [m3|] eqn:H3; [| done].
  cbn [mbind result_bind bind] in Hstep.
  destruct (matmul (primary_to_mortar_avg mg nd) _) as [m4|] eqn:H4; [| done].
  cbn [mbind result_bind bind] in Hstep.
  destruct (cell_projection proj !! gs) as [Mc|] eqn:HMc; [| done].
  cbn [mbind result_bind bind] in Hstep.
  destruct (Hc gs Mc HMc) as [oc ->].
  destruct (matmul _ (mortar_to_secondary_int mg nd)) as [m5|] eqn:H5; [| done].
  cbn [mbind result_bind bind] in Hstep.
  destruct (matmul _ (mortar_to_secondary_avg mg nd)) as [m6|] eqn:H6; [| done].
  cbn [mbind result_bind bind] in Hstep.
  destruct (matmul (secondary_to_mortar_int mg nd) _) as [m7|] eqn:H7; [| done].
  cbn [mbind result_bind bind] in Hstep.
  destruct (matmul (secondary_to_mortar_avg mg nd) _) as [m8|] eqn:H8; [| done].
  apply matmul_Ok in H1, H2, H3, H4, H5, H6, H7, H8.
  cbn [transpose embedding nrows ncols] in *.
  exists mg. split; [done |]. split; [done |]. cbn [fst snd].
  split; [rewrite Hfp in HMf; by eapply place_key |].
  split; [rewrite Hcp in HMc; by eapply place_key |].
  unfold fits. cbn [fst snd]. by repeat split.
Qed.

(** X18.  The constructor of [MortarProjections] returns only under the
    conditions under which it is sure to return: the grid sequence and the
    list of edges can be read from the arguments, every grid has a cell (and
    a face, in positive dimension), the list of edges is not empty, and
    every edge is admissible, that is, the bucket holds a mortar grid for
    it, the dimensions are the standard ones, its two grids belong to the
    grid sequence, and the shapes of the mortar projections fit.  The
    object then counts the edges. *)
Theorem MortarProjections_requirements grids gb edges nd mp :
  MortarProjections_init grids gb edges nd = Ok mp →
  ∃ grid_list edge_list,
    _grid_list grids gb = Ok grid_list ∧
    edge_list_of edges gb = Ok edge_list ∧
    Forall (indexable nd) grid_list ∧
    edge_list ≠ [] ∧
    Forall (admissible gb grid_list nd) edge_list ∧
    mp_num_edges mp = length edge_list.
Proof.
  rewrite MortarProjections_init_unfold. intros Hinit.
  destruct (_grid_list grids gb) as [grid_list|]; [| done].
  destruct (edge_list_of edges gb) as [edge_list|]; [| done].
  cbn [mbind result_bind bind] in Hinit.
  destruct (_subgrid_projections grid_list nd) as [proj|] eqn:Hproj; [| done].
  cbn [mbind result_bind bind] in Hinit.
  destruct (for_each _ no_blocks edge_list) as [b|] eqn:Hrun; [| done].
  cbn [mbind result_bind bind] in Hinit.
  exists grid_list, edge_list. split; [done |]. split; [done |].
  split; [| split; [| split]].
  - destruct (decide (Forall (indexable nd) grid_list)) as [? | Hbad]; [done |].
    unfold _subgrid_projections in Hproj.
    rewrite for_each_subgrid_step_IndexError in Hproj; try done.
    + cbn. by rewrite sum_cell_size.
    + cbn. by rewrite sum_face_size.
  - intros ->. cbn in Hrun. injection Hrun as <-. done.
  - apply Forall_forall. intros e He.
    destruct (for_each_Ok_elem _ _ _ _ e Hrun He) as (s & s' & Hstep).
    by eapply mortar_step_Ok_admissible.
  - repeat (match type of Hinit with
            | context [?m ≫= _] =>
                destruct m; [cbn [mbind result_bind bind] in Hinit | done]
            end).
    by injection Hinit as <-.
Qed.

Lemma MortarProjections_requirements_witness :
  ∃ mp grid_list edge_list,
    MortarProjections_init None (Some fitted_bucket) None 1 = Ok mp ∧
    _grid_list None (Some fitted_bucket) = Ok grid_list ∧
    edge_list_of None (Some fitted_bucket) = Ok edge_list ∧
    Forall (indexable 1) grid_list ∧
    edge_list ≠ [] ∧
    Forall (admissible (Some fitted_bucket) grid_list 1) edge_list ∧
    mp_num_edges mp = length edge_list.
Proof.
  destruct (MortarProjections_init None (Some fitted_bucket) None 1) as [mp|e] eqn:Hinit;
    [| vm_compute in Hinit; discriminate Hinit].
  destruct (MortarProjections_requirements None (Some fitted_bucket) None 1 mp Hinit)
    as (grid_list & edge_list & H).
  exists mp, grid_list, edge_list. auto.
Defined.

(** ** Entries of products and of stacked blocks *)

Lemma filter_bind {A B} (P : B → bool) (f : A → list B) (l : list A) :
  List.filter P (l ≫= f) = l ≫= (λ x, List.filter P (f x)).
Proof.
  induction l as [|x l IH]; [done |].
  by rewrite !bind_cons, List.filter_app, IH.
Qed.

Lemma bind_seq_select {A} (f : nat → list A) (X : list A) i a n :
  (∀ j, f j = if (j =? i)%nat then X else []) →
  seq a n ≫= f = if ((a <=? i) && (i <? a + n))%nat then X else [].
Proof.
  intros Hf. revert a. induction n as [|n IH]; intros a.
  - change (seq a 0 ≫= f) with (@nil A).
    destruct (Nat.leb_spec a i), (Nat.ltb_spec i (a + 0)); cbn; try done; exfalso; lia.
  - cbn [seq]. rewrite bind_cons, Hf, IH.
    destruct (Nat.eqb_spec a i) as [-> | Hne].
    + replace ((S i <=? i)%nat && (i <? S i + n)%nat) with false by nat_cases.
      replace ((i <=? i)%nat && (i <? i + S n)%nat) with true by nat_cases.
      apply app_nil_r.
    + cbn [app].
      replace ((S a <=? i)%nat && (i <? S a + n)%nat)
        with ((a <=? i)%nat && (i <? a + S n)%nat); [done |].
      destruct (Nat.leb_spec (S a) i), (Nat.leb_spec a i),
        (Nat.ltb_spec i (S a + n)), (Nat.ltb_spec i (a + S n));
        try done; exfalso; lia.
Qed.

Lemma cell_triples A B i k t :
  t ∈ cell A B i k → t_row t = i ∧ t_col t = k.
Proof.
  unfold cell. destruct (terms A B i k); [by intros ?%elem_of_nil |].
  by intros ->%list_elem_of_singleton.
Qed.

Lemma filter_none_elem {A} (P : A → bool) (l : list A) :
  (∀ t, t ∈ l → P t = false) → List.filter P l = [].
Proof.
  induction l as [|t l IH]; intros H; [done |].
  cbn [List.filter]. rewrite (H t) by left. apply IH. intros; apply H; by right.
Qed.

Lemma filter_all_elem {A} (P : A → bool) (l : list A) :
  (∀ t, t ∈ l → P t = true) → List.filter P l = l.
Proof.
  induction l as [|t l IH]; intros H; [done |].
  cbn [List.filter]. rewrite (H t) by left. f_equal. apply IH. intros; apply H; by right.
Qed.

Lemma sumZ_cell A B i k : sumZ (t_val <$> cell A B i k) = sumZ (terms A B i k).
Proof. unfold cell. destruct (terms A B i k); [done |]. cbn. lia. Qed.

(** An entry of a product is the sum of the products of the stored entries
    that meet. *)
Lemma entry_product A B i k :
  (i < nrows A)%nat → (k < ncols B)%nat →
  entry (product A B) i k = sumZ (terms A B i k).
Proof.
  intros Hi Hk. unfold entry, stored, product. cbn [triples].
  rewrite <- sumZ_cell. do 2 f_equal.
  set (P := λ t : nat * nat * Z, (t_row t =? i)%nat && (t_col t =? k)%nat).
  rewrite filter_bind.
  rewrite (bind_seq_select _ (cell A B i k) i).
  { by replace ((0 <=? i)%nat && (i <? 0 + nrows A)%nat) with true by nat_cases. }
  intros i'. rewrite filter_bind.
  destruct (Nat.eqb_spec i' i) as [-> | Hne].
  - rewrite (bind_seq_select _ (cell A B i k) k).
    { by replace ((0 <=? k)%nat && (k <? 0 + ncols B)%nat) with true by nat_cases. }
    intros k'. destruct (Nat.eqb_spec k' k) as [-> | Hnk].
    + apply filter_all_elem. intros t [Hr Hc]%cell_triples. unfold P.
      rewrite Hr, Hc, !Nat.eqb_refl. done.
    + apply filter_none_elem. intros t [Hr Hc]%cell_triples. unfold P.
      rewrite Hc. apply andb_false_iff. right. by apply Nat.eqb_neq.
  - transitivity (seq 0 (ncols B) ≫= λ _ : nat, @nil (nat * nat * Z)).
    + apply bind_ext_in. intros k' _.
      apply filter_none_elem. intros t [Hr Hc]%cell_triples. unfold P.
      rewrite Hr. apply andb_false_iff. left. by apply Nat.eqb_neq.
    + generalize (seq 0 (ncols B)). intros l. induction l as [|x l IH]; [done |].
      by rewrite bind_cons, IH.
Qed.

Lemma matmul_product A B : ncols A = nrows B → matmul A B = Ok (product A B).
Proof. intros H. unfold matmul, product. by rewrite H, Nat.eqb_refl. Qed.

Lemma entry_transpose M r c : entry (transpose M) r c = entry M c r.
Proof.
  unfold entry, stored, transpose. cbn [triples]. f_equal.
  induction (triples M) as [|t ts IH]; [done |].
  rewrite fmap_cons. cbn [List.filter].
  assert ((t_row (t_col t, t_row t, t_val t) =? r)%nat
          && (t_col (t_col t, t_row t, t_val t) =? c)%nat
          = (t_row t =? c)%nat && (t_col t =? r)%nat) as ->.
  { unfold t_row at 1. cbn [fst snd]. unfold t_col at 2. cbn [fst snd].
    apply andb_comm. }
  destruct ((t_row t =? c)%nat && (t_col t =? r)%nat); [| exact IH].
  rewrite !fmap_cons, IH. done.
Qed.

(** The terms of a product whose right factor is a transposed embedding. *)
Lemma terms_transposed_embedding A o sz tot i K :
  terms A (transpose (embedding o sz tot)) i K
  = t_val <$> List.filter
      (λ t, (t_row t =? i)%nat && ((t_col t <? sz)%nat && (o + t_col t =? K)%nat))
      (triples A).
Proof.
  unfold terms. induction (triples A) as [|ta ts IH]; [done |].
  cbn [List.filter].
  destruct (Nat.eqb_spec (t_row ta) i) as [Hrow | Hrow]; cbn [andb]; [| exact IH].
  rewrite bind_cons, IH. clear IH.
  unfold transpose, embedding. cbn [triples]. rewrite <- list_fmap_compose.
  destruct ((t_col ta <? sz)%nat && (o + t_col ta =? K)%nat) eqn:Hsel.
  - apply andb_true_iff in Hsel as [Hlt%Nat.ltb_lt Heq%Nat.eqb_eq].
    rewrite (filter_fmap_seq_unique_in _ _ (t_col ta)).
    + replace ((0 <=? t_col ta)%nat && (t_col ta <? 0 + sz)%nat) with true by nat_cases.
      rewrite bind_cons. change ([] ≫= ?f) with (@nil Z).
      cbn [compose t_val snd app fmap list_fmap]. f_equal. lia.
    + intros j _. cbn [compose]. unfold t_row at 1, t_col at 1. cbn [fst snd].
      unfold t_row at 1, t_col at 1 2. cbn [fst snd].
      destruct (Nat.eqb_spec j (t_col ta)) as [-> | Hne].
      * rewrite Nat.eqb_refl. cbn. apply Nat.eqb_eq. lia.
      * apply andb_false_iff. left. by apply Nat.eqb_neq.
  - rewrite filter_fmap_none_in; [done |].
    intros j Hj%elem_of_seq.
    change ((j =? t_col ta)%nat && (o + j =? K)%nat = false).
    destruct (Nat.eqb_spec j (t_col ta)) as [-> | Hne]; [| done].
    cbn [andb]. destruct (Nat.ltb_spec (t_col ta) sz); [| lia].
    by rewrite andb_true_l in Hsel.
Qed.

(** A product with a transposed embedding moves the columns of the left
    factor to the offset of the embedding. *)
Lemma entry_product_embedding A o sz tot i K :
  (i < nrows A)%nat → (K < tot)%nat →
  entry (product A (transpose (embedding o sz tot))) i K
  = if ((o <=? K) && (K <? o + sz))%nat then entry A i (K - o) else 0.
Proof.
  intros Hi HK. rewrite entry_product by done.
  rewrite terms_transposed_embedding. unfold entry, stored.
  destruct ((o <=? K)%nat && (K <? o + sz)%nat) eqn:Hin.
  - apply andb_true_iff in Hin as [Hle%Nat.leb_le Hlt%Nat.ltb_lt].
    do 2 f_equal. apply filter_ext. intros t. f_equal.
    destruct (Nat.ltb_spec (t_col t) sz), (Nat.eqb_spec (o + t_col t) K),
      (Nat.eqb_spec (t_col t) (K - o)); try done; exfalso; lia.
  - rewrite filter_none_elem; [done |]. intros t _.
    apply andb_false_iff. right.
    destruct (Nat.ltb_spec (t_col t) sz), (Nat.eqb_spec (o + t_col t) K); try done.
    exfalso. apply andb_false_iff in Hin as [?%Nat.leb_gt | ?%Nat.ltb_ge]; lia.
Qed.

Lemma product_in_shape A B : in_shape (product A B).
Proof.
  unfold in_shape, product. cbn [triples nrows ncols]. apply Forall_forall.
  intros t (i & Ht & Hi%elem_of_seq)%list_elem_of_bind.
  apply list_elem_of_bind in Ht as (k & Ht & Hk%elem_of_seq).
  apply cell_triples in Ht as [-> ->]. lia.
Qed.

Lemma transpose_in_shape M : in_shape M → in_shape (transpose M).
Proof.
  unfold in_shape, transpose. cbn [triples nrows ncols]. intros H.
  apply Forall_fmap. apply (Forall_impl _ _ _ H). intros t. unfold t_row, t_col. cbn. lia.
Qed.

Lemma entry_col_shifted n m n' m' off ts r c :
  entry (SpMatrix n m ((λ t, (t_row t, (off + t_col t)%nat, t_val t)) <$> ts)) r (off + c)
  = entry (SpMatrix n' m' ts) r c.
Proof.
  unfold entry, stored. cbn [triples]. f_equal.
  induction ts as [|t ts IH]; [done |].
  rewrite fmap_cons. cbn [List.filter].
  assert ((t_row (t_row t, (off + t_col t)%nat, t_val t) =? r)%nat
          && (t_col (t_row t, (off + t_col t)%nat, t_val t) =? off + c)%nat
          = (t_row t =? r)%nat && (t_col t =? c)%nat) as ->.
  { unfold t_row at 1. cbn [fst snd]. unfold t_col at 1. cbn [fst snd]. f_equal.
    destruct (Nat.eqb_spec (off + t_col t) (off + c)), (Nat.eqb_spec (t_col t) c);
      try done; exfalso; lia. }
  destruct ((t_row t =? r)%nat && (t_col t =? c)%nat); [| exact IH].
  rewrite !fmap_cons, IH. done.
Qed.

Lemma hstack_from_bounds n blocks : ∀ off r,
  hstack_from n off blocks = Ok r → Forall (λ t, (off ≤ t_col t)%nat) r.1.
Proof.
  induction blocks as [|B blocks IH]; intros off r; cbn [hstack_from].
  - intros [= <-]. constructor.
  - destruct (negb (nrows B =? n)%nat); [done |].
    destruct (hstack_from n (off + ncols B) blocks) as [r'|] eqn:Hr'; [| done].
    cbn [mbind result_bind bind]. intros [= <-]. cbn [fst].
    apply Forall_app. split.
    + apply Forall_fmap, Forall_forall. intros t _. unfold t_col. cbn. lia.
    + apply (Forall_impl _ _ _ (IH _ _ Hr')). intros t. cbn beta. lia.
Qed.

(** The entries of blocks set side by side, at the offsets of a layout. *)
Lemma hstack_from_entry (F : Grid → spmatrix) n n' m' l : ∀ off res g o r j,
  Forall (λ g, in_shape (F g)) l →
  hstack_from n off (F <$> l) = Ok res →
  (g, o) ∈ layout (ncols ∘ F) off l → (j < ncols (F g))%nat →
  entry (SpMatrix n' m' res.1) r (o + j) = entry (F g) r j.
Proof.
  induction l as [|g0 l IH]; intros off res g o r j Hshape Hres Hg Hj;
    [by apply elem_of_nil in Hg |].
  apply Forall_cons in Hshape as [Hshape0 Hshape].
  cbn [fmap list_fmap hstack_from] in Hres.
  change (list_fmap ?A ?B ?f ?l) with (f <$> l) in Hres.
  destruct (negb (nrows (F g0) =? n)%nat); [done |].
  destruct (hstack_from n (off + ncols (F g0)) (F <$> l)) as [res'|] eqn:Hres'; [| done].
  cbn [mbind result_bind bind] in Hres. injection Hres as <-. cbn [fst].
  rewrite entry_app. cbn [layout] in Hg.
  pose proof (hstack_from_bounds _ _ _ _ Hres') as Hrest.
  apply elem_of_cons in Hg as [[= -> ->] | Hg].
  - rewrite (entry_col_shifted _ _ (nrows (F g0)) (ncols (F g0))).
    rewrite (entry_outside _ _ res'.1).
    + destruct (F g0). cbn. lia.
    + apply (Forall_impl _ _ _ Hrest). intros t. cbn beta. lia.
  - rewrite entry_outside.
    + by apply (IH _ _ _ _ _ _ Hshape Hres').
    + apply (layout_bounds _ (ncols ∘ F)) in Hg as [Hle _]; [| done].
      apply Forall_fmap. apply (Forall_impl _ _ _ Hshape0).
      intros t [_ Ht]. unfold t_col at 1. cbn [fst snd compose] in *. lia.
Qed.

(** The entries of blocks set on top of each other. *)
Lemma bmat_col_entry (F : Grid → spmatrix) l M g o j c :
  Forall (λ g, in_shape (F g)) l →
  bmat_col (F <$> l) = Ok M →
  (g, o) ∈ layout (nrows ∘ F) 0 l → (j < nrows (F g))%nat →
  entry M (o + j) c = entry (F g) j c.
Proof.
  intros Hshape HM Hg Hj.
  rewrite bmat_col_nonempty in HM by (intros Hnil; by rewrite Hnil in HM).
  unfold bmat_row in HM.
  rewrite <- list_fmap_compose in HM.
  destruct ((transpose ∘ F) <$> l) as [|B0 rest] eqn:Hblocks; [done |].
  destruct (hstack_from (nrows B0) 0 (B0 :: rest)) as [res|] eqn:Hres; [| done].
  cbn [mbind result_bind bind] in HM. injection HM as <-.
  rewrite entry_transpose. rewrite <- Hblocks in Hres.
  rewrite (hstack_from_entry (transpose ∘ F) (nrows B0) _ _ l 0 res g o c j); try done.
  - cbn [compose]. apply entry_transpose.
  - apply (Forall_impl _ _ _ Hshape). intros h. apply transpose_in_shape.
Qed.

Lemma layout_elem adv o0 l g o : (g, o) ∈ layout adv o0 l → g ∈ l.
Proof.
  intros H. rewrite <- (layout_fst adv o0 l). apply list_elem_of_fmap. by exists (g, o).
Qed.

Lemma layout_offset_unique adv l : ∀ o0 g o o',
  NoDup l → (g, o) ∈ layout adv o0 l → (g, o') ∈ layout adv o0 l → o = o'.
Proof.
  induction l as [|g0 l IH]; intros o0 g o o' Hnd Ho Ho'; [by apply elem_of_nil in Ho |].
  apply NoDup_cons in Hnd as [Hg0 Hnd]. cbn [layout] in Ho, Ho'.
  apply elem_of_cons in Ho as [Ho | Ho];
    apply elem_of_cons in Ho' as [Ho' | Ho']; simplify_eq; try done.
  - by apply layout_elem in Ho'.
  - by apply layout_elem in Ho.
  - by eapply IH.
Qed.

Section trace_entries.
Variable scalar_divergence : Grid → spmatrix.

Local Abbreviation Trace_init := (GridOperatorsMerged.Trace_init scalar_divergence).
Local Abbreviation trace_step := (GridOperatorsMerged.trace_step scalar_divergence).
Local Abbreviation absdiv := (λ g, map_data Z.abs (scalar_divergence g)).

Lemma for_each_trace_step_blocks proj tc tf l : ∀ acc,
  embeddings_of (cell_size 1) tc (cell_projection proj) →
  embeddings_of (face_size 1) tf (face_projection proj) →
  (∀ g, g ∈ l → is_Some (cell_projection proj !! g) ∧
               is_Some (face_projection proj !! g) ∧
               cells_by_faces scalar_divergence g) →
  for_each (trace_step proj true) acc l
  = Ok (acc.1 ++ (trace_block scalar_divergence proj <$> l),
        acc.2 ++ (inv_trace_block scalar_divergence proj <$> l)).
Proof.
  intros acc Hc Hf. revert acc. induction l as [|g l IH]; intros acc Hl.
  - cbn. rewrite !app_nil_r. by destruct acc.
  - destruct (Hl g) as ([Mc HMc] & [Mf HMf] & Hrows & Hcols); [left |].
    assert (trace_step proj true acc g
            = Ok (acc.1 ++ [trace_block scalar_divergence proj g],
                  acc.2 ++ [inv_trace_block scalar_divergence proj g])) as Hstep.
    { unfold GridOperatorsMerged.trace_step, trace_block, inv_trace_block, dict_get.
      rewrite (lookup_total_correct _ _ _ HMc), (lookup_total_correct _ _ _ HMf).
      rewrite HMc, HMf. cbn [mbind result_bind bind].
      destruct (Hc g Mc HMc) as [oc ->]. destruct (Hf g Mf HMf) as [ofs ->].
      rewrite !matmul_product; [done | |];
        cbn [transpose map_data embedding nrows ncols]; unfold cell_size, face_size; lia. }
    cbn [for_each]. rewrite Hstep. cbn [mbind result_bind bind].
    rewrite IH by (intros; apply Hl; by right).
    cbn [fst snd fmap list_fmap]. by rewrite <- !app_assoc.
Qed.


End trace_entries.


(** ** The entries of MortarProjections *)

Lemma terms_embedding_left B o sz tot R k :
  terms (embedding o sz tot) B R k
  = if ((o <=? R) && (R <? o + sz))%nat then stored B (R - o) k else [].
Proof.
  unfold terms, embedding. cbn [triples].
  destruct ((o <=? R)%nat && (R <? o + sz)%nat) eqn:Hin.
  - apply andb_true_iff in Hin as [Hle%Nat.leb_le Hlt%Nat.ltb_lt].
    rewrite (filter_fmap_seq_unique_in _ _ (R - o)).
    + replace ((0 <=? R - o)%nat && (R - o <? 0 + sz)%nat) with true by nat_cases.
      rewrite bind_cons. change ([] ≫= ?f) with (@nil Z). rewrite app_nil_r.
      unfold stored. unfold t_col at 1, t_val at 1. cbn [fst snd].
      induction (triples B) as [|tb ts IH]; [done |].
      cbn [List.filter]. destruct (_ && _); [| exact IH].
      rewrite bind_cons, fmap_cons, IH. cbn [app]. f_equal. lia.
    + intros j _. unfold t_row. cbn [fst snd].
      destruct (Nat.eqb_spec (o + j) R), (Nat.eqb_spec j (R - o)); try done; exfalso; lia.
  - rewrite filter_fmap_none_in; [done |].
    intros j Hj%elem_of_seq. unfold t_row. cbn [fst snd].
    apply Nat.eqb_neq. intros <-.
    apply andb_false_iff in Hin as [?%Nat.leb_gt | ?%Nat.ltb_ge]; lia.
Qed.

(** A product with an embedding on the left moves the rows of the right
    factor to the offset of the embedding. *)
Lemma entry_embedding_product B o sz tot R k :
  (R < tot)%nat → (k < ncols B)%nat →
  entry (product (embedding o sz tot) B) R k
  = if ((o <=? R) && (R <? o + sz))%nat then entry B (R - o) k else 0.
Proof.
  intros HR Hk. rewrite entry_product by done.
  rewrite terms_embedding_left. by destruct (_ && _).
Qed.

(** The entries of blocks set side by side, by position. *)
Lemma hstack_from_entry_at n n' m' blocks : ∀ off res i B r j,
  Forall in_shape blocks →
  hstack_from n off blocks = Ok res →
  blocks !! i = Some B → (j < ncols B)%nat →
  entry (SpMatrix n' m' res.1) r (off + sum_nat (ncols <$> take i blocks) + j)
  = entry B r j.
Proof.
  induction blocks as [|B0 blocks IH]; intros off res i B r j Hshape Hres HB Hj; [done |].
  apply Forall_cons in Hshape as [Hshape0 Hshape].
  cbn [hstack_from] in Hres.
  destruct (negb (nrows B0 =? n)%nat); [done |].
  destruct (hstack_from n (off + ncols B0) blocks) as [res'|] eqn:Hres'; [| done].
  cbn [mbind result_bind bind] in Hres. injection Hres as <-. cbn [fst].
  rewrite entry_app.
  pose proof (hstack_from_bounds _ _ _ _ Hres') as Hrest.
  destruct i as [|i].
  - injection HB as ->. cbn [take fmap list_fmap sum_nat foldr]. rewrite Nat.add_0_r.
    rewrite (entry_col_shifted _ _ (nrows B) (ncols B)).
    rewrite (entry_outside _ _ res'.1).
    + destruct B. cbn. lia.
    + apply (Forall_impl _ _ _ Hrest). intros t. cbn beta. lia.
  - cbn [lookup list_lookup] in HB.
    cbn [take fmap list_fmap sum_nat foldr].
    change (foldr Nat.add 0%nat ?x) with (sum_nat x).
    change (list_fmap ?A ?B ?f ?l) with (f <$> l).
    rewrite entry_outside.
    + replace (off + (ncols B0 + sum_nat (ncols <$> take i blocks)) + j)%nat
        with (off + ncols B0 + sum_nat (ncols <$> take i blocks) + j)%nat by lia.
      by apply IH.
    + apply Forall_fmap. apply (Forall_impl _ _ _ Hshape0).
      intros t [_ Ht]. right. unfold t_col at 1. cbn [fst snd].
      change (foldr Nat.add 0%nat ?x) with (sum_nat x). lia.
Qed.

Lemma bmat_row_entry_at blocks M i B r j :
  Forall in_shape blocks →
  bmat_row blocks = Ok M → blocks !! i = Some B → (j < ncols B)%nat →
  entry M r (sum_nat (ncols <$> take i blocks) + j) = entry B r j.
Proof.
  intros Hshape HM HB Hj. unfold bmat_row in HM.
  destruct blocks as [|B0 rest] eqn:Hblocks; [done |]. rewrite <- Hblocks in *.
  destruct (hstack_from (nrows B0) 0 blocks) as [res|] eqn:Hres; [| done].
  cbn [mbind result_bind bind] in HM. injection HM as <-.
  by rewrite <- (hstack_from_entry_at _ (nrows B0) res.2 _ 0 res i B r j Hshape Hres HB Hj).
Qed.

Lemma bmat_col_entry_at blocks M i B j c :
  Forall in_shape blocks →
  bmat_col blocks = Ok M → blocks !! i = Some B → (j < nrows B)%nat →
  entry M (sum_nat (nrows <$> take i blocks) + j) c = entry B j c.
Proof.
  intros Hshape HM HB Hj.
  rewrite bmat_col_nonempty in HM by (intros Hnil; by rewrite Hnil in HM).
  destruct (bmat_row (transpose <$> blocks)) as [M'|] eqn:HM'; [| done].
  cbn [mbind result_bind bind] in HM. injection HM as <-.
  rewrite entry_transpose.
  replace (nrows <$> take i blocks) with (ncols <$> take i (transpose <$> blocks))
    by (by rewrite <- fmap_take, <- list_fmap_compose).
  assert (Forall in_shape (transpose <$> blocks)) as Hshape'.
  { apply Forall_fmap. apply (Forall_impl _ _ _ Hshape). intros ?.
    apply transpose_in_shape. }
  rewrite (bmat_row_entry_at _ _ i (transpose B) c j Hshape' HM').
  - apply entry_transpose.
  - by rewrite list_lookup_fmap, HB.
  - done.
Qed.

Lemma matmul_Ok_product A B M : matmul A B = Ok M → M = product A B.
Proof.
  unfold matmul, product. destruct (negb (ncols A =? nrows B)%nat); [done |].
  by intros [= <-].
Qed.

Lemma mortar_step_blocks gb proj nd acc e b :
  mortar_step gb proj nd acc e = Ok b → appended gb proj nd [e] acc b.
Proof.
  intros Hstep. destruct e as [gp gs]. unfold mortar_step in Hstep.
  destruct (mortar_grid_of gb (gp, gs)) as [mg|] eqn:Hmg; [| done].
  cbn [mbind result_bind bind] in Hstep.
  destruct (non_standard (gp, gs) mg); [done |].
  unfold dict_get in Hstep.
  destruct (face_projection proj !! gp) as [Mf|] eqn:HMf; [| done].
  cbn [mbind result_bind bind] in Hstep.
  destruct (matmul _ (mortar_to_primary_int mg nd)) as [m1|] eqn:H1; [| done].
  cbn [mbind result_bind bind] in Hstep.
  destruct (matmul _ (mortar_to_primary_avg mg nd)) as [m2|] eqn:H2; [| done].
  cbn [mbind result_bind bind] in Hstep.
  destruct (matmul (primary_to_mortar_int mg nd) _) as [m3|] eqn:H3; [| done].
  cbn [mbind result_bind bind] in Hstep.
  destruct (matmul (primary_to_mortar_avg mg nd) _) as [m4|] eqn:H4; [| done].
  cbn [mbind result_bind bind] in Hstep.
  destruct (cell_projection proj !! gs) as [Mc|] eqn:HMc; [| done].
  cbn [mbind result_bind bind] in Hstep.
  destruct (matmul _ (mortar_to_secondary_int mg nd)) as [m5|] eqn:H5; [| done].
  cbn [mbind result_bind bind] in Hstep.
  destruct (matmul _ (mortar_to_secondary_avg mg nd)) as [m6|] eqn:H6; [| done].
  cbn [mbind result_bind bind] in Hstep.
  destruct (matmul (secondary_to_mortar_int mg nd) _) as [m7|] eqn:H7; [| done].
  cbn [mbind result_bind bind] in Hstep.
  destruct (matmul (secondary_to_mortar_avg mg nd) _) as [m8|] eqn:H8; [| done].
  cbn [mbind result_bind bind] in Hstep. injection Hstep as <-.
  apply matmul_Ok_product in H1, H2, H3, H4, H5, H6, H7, H8. subst.
  unfold appended. cbn [fmap list_fmap].
  unfold from_block, to_block, mg_of. rewrite Hmg. cbn [fst snd].
  rewrite (lookup_total_correct _ _ _ HMf), (lookup_total_correct _ _ _ HMc).
  done.
Qed.

Lemma for_each_mortar_step_blocks gb proj nd l : ∀ acc b,
  for_each (mortar_step gb proj nd) acc l = Ok b → appended gb proj nd l acc b.
Proof.
  induction l as [|e l IH]; intros acc b Hrun.
  - injection Hrun as <-. unfold appended. cbn. by rewrite !app_nil_r.
  - cbn [for_each] in Hrun.
    destruct (mortar_step gb proj nd acc e) as [b1|] eqn:Hstep; [| done].
    cbn [mbind result_bind bind] in Hrun.
    apply mortar_step_blocks in Hstep. apply IH in Hrun.
    destruct Hstep as (S1 & S2 & S3 & S4 & S5 & S6 & S7 & S8).
    destruct Hrun as (R1 & R2 & R3 & R4 & R5 & R6 & R7 & R8).
    unfold appended. cbn zeta in *.
    rewrite R1, R2, R3, R4, R5, R6, R7, R8, S1, S2, S3, S4, S5, S6, S7, S8.
    rewrite <- !app_assoc. done.
Qed.

Section laid_out.
Variables (tot : nat) (sz adv : Grid → nat) (grid_list : list Grid).
Variables (side : edge → Grid) (X : MortarGrid → nat → spmatrix).
Variables (gb : option GridBucket) (nd : nat) (edges : list edge).
Hypothesis Hnd : NoDup grid_list.
Hypothesis Hadv : ∀ g, g ∈ grid_list → adv g = sz g.
Hypothesis Htot : tot = sum_nat (sz <$> grid_list).
Hypothesis Hside : ∀ e, e ∈ edges → side e ∈ grid_list.

Local Abbreviation d := (place tot sz ∅ (layout adv 0 grid_list)).

Lemma side_embedding e :
  e ∈ edges →
  ∃ o, (side e, o) ∈ layout adv 0 grid_list ∧
       d !!! side e = embedding o (sz (side e)) tot.
Proof.
  intros He.
  destruct (place_lookup_elem tot sz (layout adv 0 grid_list) ∅ (side e))
    as (o & Ho & Hlook); [rewrite layout_fst; by apply Hside |].
  exists o. split; [done |]. by apply lookup_total_correct.
Qed.

Lemma placed_index g P R f (prolong := prolongation_of d) :
  prolong (OneGrid g) = Ok P → entry (mat P) R f = 1 →
  ∃ o, (g, o) ∈ layout adv 0 grid_list ∧ (f < sz g)%nat ∧ R = (o + f)%nat ∧
       (o + sz g ≤ tot)%nat.
Proof.
  intros HP HRf. apply prolongation_of_layout in HP as (o & Ho & HM); [| done].
  rewrite HM, entry_embedding in HRf.
  destruct (Nat.ltb_spec f (sz g)) as [Hf |]; [| done].
  destruct (Nat.eqb_spec R (o + f)) as [-> |]; [| done].
  exists o. repeat split; try done.
  apply (layout_bounds adv sz grid_list 0 g o Hadv) in Ho as [_ Hb]. lia.
Qed.

Lemma selected_entry (V : nat → Z) g o e f :
  e ∈ edges → (g, o) ∈ layout adv 0 grid_list → (f < sz g)%nat →
  ∀ o', (side e, o') ∈ layout adv 0 grid_list →
  (if ((o' <=? o + f) && (o + f <? o' + sz (side e)))%nat then V (o + f - o')%nat else 0)
  = if decide (g = side e) then V f else 0.
Proof.
  intros He Ho Hf o' Ho'.
  destruct (decide (g = side e)) as [-> | Hne].
  - assert (o' = o) as -> by (by eapply layout_offset_unique).
    replace ((o <=? o + f)%nat && (o + f <? o + sz (side e))%nat) with true by nat_cases.
    by replace (o + f - o)%nat with f by lia.
  - destruct ((o' <=? o + f)%nat && (o + f <? o' + sz (side e))%nat) eqn:Hin; [| done].
    apply andb_true_iff in Hin as [Hle%Nat.leb_le Hlt%Nat.ltb_lt]. exfalso.
    destruct (layout_disjoint adv sz grid_list 0 (o + f)%nat g o (side e) o')
      as [? _]; try done; lia.
Qed.

Lemma from_block_laid_out M :
  bmat_row (from_block d side X gb nd <$> edges) = Ok M →
  from_mortar_laid_out gb nd (prolongation_of d) side X edges M.
Proof.
  intros HM i e g P R f j He HP HRf Hj.
  destruct (placed_index g P R f HP HRf) as (o & Ho & Hf & -> & Hb).
  pose proof (list_elem_of_lookup_2 _ _ _ He) as Hin.
  destruct (side_embedding e Hin) as (o' & Ho' & Hemb).
  unfold mortar_offset.
  replace ((λ e0, ncols (X (mg_of gb e0) nd)) <$> take i edges)
    with (ncols <$> take i (from_block d side X gb nd <$> edges))
    by (by rewrite <- fmap_take, <- list_fmap_compose).
  rewrite (bmat_row_entry_at _ M i (from_block d side X gb nd e)); try done.
  - unfold from_block. rewrite Hemb.
    rewrite entry_embedding_product by (done || lia).
    by apply (selected_entry (λ r, entry (X (mg_of gb e) nd) r j)).
  - apply Forall_fmap, Forall_forall. intros ? _. apply product_in_shape.
  - by rewrite list_lookup_fmap, He.
Qed.

Lemma to_block_laid_out M :
  bmat_col (to_block d side X gb nd <$> edges) = Ok M →
  to_mortar_laid_out gb nd (prolongation_of d) side X edges M.
Proof.
  intros HM i e g P R f j He HP HRf Hj.
  destruct (placed_index g P R f HP HRf) as (o & Ho & Hf & -> & Hb).
  pose proof (list_elem_of_lookup_2 _ _ _ He) as Hin.
  destruct (side_embedding e Hin) as (o' & Ho' & Hemb).
  unfold mortar_offset.
  replace ((λ e0, nrows (X (mg_of gb e0) nd)) <$> take i edges)
    with (nrows <$> take i (to_block d side X gb nd <$> edges))
    by (by rewrite <- fmap_take, <- list_fmap_compose).
  rewrite (bmat_col_entry_at _ M i (to_block d side X gb nd e)); try done.
  - unfold to_block. rewrite Hemb.
    rewrite entry_product_embedding by (done || lia).
    by apply (selected_entry (λ c, entry (X (mg_of gb e) nd) j c)).
  - apply Forall_fmap, Forall_forall. intros ? _. apply product_in_shape.
  - by rewrite list_lookup_fmap, He.
Qed.

End laid_out.

(** X21.  The eight projections of [MortarProjections] hold the projections
    of the mortar grids of the edges, edge after edge, at the global face
    and cell indices of [SubdomainProjections].  For distinct grids whose
    point grids have no faces: in each projection from the mortar grids the
    block of columns of an edge holds the matrix of its mortar grid in the
    rows of the faces of its primary grid (or the cells of its secondary
    grid) and zero in the rows of every other grid; the projections onto the
    mortar grids hold it likewise, with rows and columns exchanged. *)
Theorem MortarProjections_entries grids gb edges nd grid_list edge_list sp mp :
  _grid_list grids gb = Ok grid_list →
  edge_list_of edges gb = Ok edge_list →
  NoDup grid_list → faceless_points grid_list →
  SubdomainProjections_init grids gb nd = Ok sp →
  MortarProjections_init grids gb edges nd = Ok mp →
  (from_mortar_laid_out gb nd (face_prolongation sp) fst mortar_to_primary_int
     edge_list (mat (mp_mortar_to_primary_int mp)) ∧
   from_mortar_laid_out gb nd (face_prolongation sp) fst mortar_to_primary_avg
     edge_list (mat (mp_mortar_to_primary_avg mp)) ∧
   to_mortar_laid_out gb nd (face_prolongation sp) fst primary_to_mortar_int
     edge_list (mat (mp_primary_to_mortar_int mp)) ∧
   to_mortar_laid_out gb nd (face_prolongation sp) fst primary_to_mortar_avg
     edge_list (mat (mp_primary_to_mortar_avg mp))) ∧
  (from_mortar_laid_out gb nd (cell_prolongation sp) snd mortar_to_secondary_int
     edge_list (mat (mp_mortar_to_secondary_int mp)) ∧
   from_mortar_laid_out gb nd (cell_prolongation sp) snd mortar_to_secondary_avg
     edge_list (mat (mp_mortar_to_secondary_avg mp)) ∧
   to_mortar_laid_out gb nd (cell_prolongation sp) snd secondary_to_mortar_int
     edge_list (mat (mp_secondary_to_mortar_int mp)) ∧
   to_mortar_laid_out gb nd (cell_prolongation sp) snd secondary_to_mortar_avg
     edge_list (mat (mp_secondary_to_mortar_avg mp))).
Proof.
  intros Hgl Hel Hnd Hpts Hsp Hinit.
  destruct (SubdomainProjections_init_Ok _ _ _ _ _ Hgl Hsp) as (proj & Hproj & Hc & Hf).
  rewrite MortarProjections_init_unfold, Hgl, Hel in Hinit.
  cbn [mbind result_bind bind] in Hinit. rewrite Hproj in Hinit.
  cbn [mbind result_bind bind] in Hinit.
  destruct (for_each _ no_blocks edge_list) as [b|] eqn:Hrun; [| done].
  cbn [mbind result_bind bind] in Hinit.
  assert (∀ e, e ∈ edge_list → e.1 ∈ grid_list ∧ e.2 ∈ grid_list) as Hsides.
  { intros e He. destruct (for_each_Ok_elem _ _ _ _ e Hrun He) as (s & s' & Hstep).
    destruct (mortar_step_Ok_admissible gb grid_list nd proj s e s' Hproj Hstep)
      as (mg & _ & _ & ? & ? & _). done. }
  apply for_each_mortar_step_blocks in Hrun.
  destruct Hrun as (B1 & B2 & B3 & B4 & B5 & B6 & B7 & B8). cbn [no_blocks] in *.
  unfold no_blocks in B1, B2, B3, B4, B5, B6, B7, B8.
  cbn [b_mortar_to_primary_int b_mortar_to_primary_avg b_primary_to_mortar_int
       b_primary_to_mortar_avg b_mortar_to_secondary_int b_mortar_to_secondary_avg
       b_secondary_to_mortar_int b_secondary_to_mortar_avg app] in *.
  rewrite B1, B2, B3, B4, B5, B6, B7, B8 in Hinit.
  destruct (bmat_row (from_block _ fst mortar_to_primary_int gb nd <$> edge_list))
    as [a1|] eqn:A1; [| done]. cbn [mbind result_bind bind] in Hinit.
  destruct (bmat_row (from_block _ fst mortar_to_primary_avg gb nd <$> edge_list))
    as [a2|] eqn:A2; [| done]. cbn [mbind result_bind bind] in Hinit.
  destruct (bmat_row (from_block _ snd mortar_to_secondary_int gb nd <$> edge_list))
    as [a3|] eqn:A3; [| done]. cbn [mbind result_bind bind] in Hinit.
  destruct (bmat_row (from_block _ snd mortar_to_secondary_avg gb nd <$> edge_list))
    as [a4|] eqn:A4; [| done]. cbn [mbind result_bind bind] in Hinit.
  destruct (bmat_col (to_block _ fst primary_to_mortar_int gb nd <$> edge_list))
    as [a5|] eqn:A5; [| done]. cbn [mbind result_bind bind] in Hinit.
  destruct (bmat_col (to_block _ fst primary_to_mortar_avg gb nd <$> edge_list))
    as [a6|] eqn:A6; [| done]. cbn [mbind result_bind bind] in Hinit.
  destruct (bmat_col (to_block _ snd secondary_to_mortar_int gb nd <$> edge_list))
    as [a7|] eqn:A7; [| done]. cbn [mbind result_bind bind] in Hinit.
  destruct (bmat_col (to_block _ snd secondary_to_mortar_avg gb nd <$> edge_list))
    as [a8|] eqn:A8; [| done]. cbn [mbind result_bind bind] in Hinit.
  destruct (traverse _ edge_list) as [mats|]; [| done].
  cbn [mbind result_bind bind] in Hinit.
  destruct (block_diag mats) as [s|]; [| done].
  cbn [mbind result_bind bind] in Hinit. injection Hinit as <-.
  cbn [mp_mortar_to_primary_int mp_mortar_to_primary_avg mp_primary_to_mortar_int
       mp_primary_to_mortar_avg mp_mortar_to_secondary_int mp_mortar_to_secondary_avg
       mp_secondary_to_mortar_int mp_secondary_to_mortar_avg mat].
  unfold tocsr, face_prolongation, cell_prolongation. rewrite Hc, Hf.
  apply subgrid_projections_layout in Hproj as [Hcp Hfp].
  rewrite Hcp in A3, A4, A7, A8 |- *. rewrite Hfp in A1, A2, A5, A6 |- *.
  pose proof (face_advance_faceless nd grid_list Hpts) as Hadv.
  pose proof (eq_sym (sum_face_size nd grid_list)) as Htf.
  pose proof (eq_sym (sum_cell_size nd grid_list)) as Htc.
  split.
  - split; [| split; [| split]].
    + apply (from_block_laid_out _ (face_size nd) (face_advance nd)); try done;
        intros; by apply Hsides.
    + apply (from_block_laid_out _ (face_size nd) (face_advance nd)); try done;
        intros; by apply Hsides.
    + apply (to_block_laid_out _ (face_size nd) (face_advance nd)); try done;
        intros; by apply Hsides.
    + apply (to_block_laid_out _ (face_size nd) (face_advance nd)); try done;
        intros; by apply Hsides.
  - split; [| split; [| split]].
    + apply (from_block_laid_out _ (cell_size nd) (cell_size nd)); try done;
        intros; by apply Hsides.
    + apply (from_block_laid_out _ (cell_size nd) (cell_size nd)); try done;
        intros; by apply Hsides.
    + apply (to_block_laid_out _ (cell_size nd) (cell_size nd)); try done;
        intros; by apply Hsides.
    + apply (to_block_laid_out _ (cell_size nd) (cell_size nd)); try done;
        intros; by apply Hsides.
Qed.

Lemma MortarProjections_entries_witness :
  let gb := Some chain_bucket in
  let edge_list := [(plane, segment); (segment, point)] in
  ∃ sp mp,
    SubdomainProjections_init None gb 1 = Ok sp ∧
    MortarProjections_init None gb None 1 = Ok mp ∧
    ((from_mortar_laid_out gb 1 (face_prolongation sp) fst mortar_to_primary_int
        edge_list (mat (mp_mortar_to_primary_int mp)) ∧
      from_mortar_laid_out gb 1 (face_prolongation sp) fst mortar_to_primary_avg
        edge_list (mat (mp_mortar_to_primary_avg mp)) ∧
      to_mortar_laid_out gb 1 (face_prolongation sp) fst primary_to_mortar_int
        edge_list (mat (mp_primary_to_mortar_int mp)) ∧
      to_mortar_laid_out gb 1 (face_prolongation sp) fst primary_to_mortar_avg
        edge_list (mat (mp_primary_to_mortar_avg mp))) ∧
     (from_mortar_laid_out gb 1 (cell_prolongation sp) snd mortar_to_secondary_int
        edge_list (mat (mp_mortar_to_secondary_int mp)) ∧
      from_mortar_laid_out gb 1 (cell_prolongation sp) snd mortar_to_secondary_avg
        edge_list (mat (mp_mortar_to_secondary_avg mp)) ∧
      to_mortar_laid_out gb 1 (cell_prolongation sp) snd secondary_to_mortar_int
        edge_list (mat (mp_secondary_to_mortar_int mp)) ∧
      to_mortar_laid_out gb 1 (cell_prolongation sp) snd secondary_to_mortar_avg
        edge_list (mat (mp_secondary_to_mortar_avg mp)))) ∧
    entry (mat (mp_mortar_to_primary_int mp)) 3 0 = 1 ∧
    entry (mat (mp_mortar_to_primary_int mp)) 13 2 = 11 ∧
    entry (mat (mp_mortar_to_primary_int mp)) 13 0 = 0 ∧
    entry (mat (mp_secondary_to_mortar_int mp)) 2 5 = 17.
Proof.
  intros gb edge_list.
  destruct (SubdomainProjections_init None gb 1) as [sp|e] eqn:Hsp;
    [| vm_compute in Hsp; discriminate Hsp].
  destruct (MortarProjections_init None gb None 1) as [mp|e] eqn:Hmp;
    [| vm_compute in Hmp; discriminate Hmp].
  pose proof (MortarProjections_entries None gb None 1 [plane; segment; point]
                edge_list sp mp) as Hlaid.
  destruct Hlaid as [(H1 & H2 & H3 & H4) (H5 & H6 & H7 & H8)].
  - reflexivity.
  - reflexivity.
  - apply (bool_decide_unpack _). vm_compute. exact I.
  - repeat constructor; cbn; intros; (reflexivity || discriminate).
  - exact Hsp.
  - exact Hmp.
  - assert (face_prolongation sp (OneGrid plane)
            = Ok (AdMatrix (embedding 0 12 14))) as Hplane.
    { assert ((sp' ← SubdomainProjections_init None gb 1;
               face_prolongation sp' (OneGrid plane))
              = Ok (AdMatrix (embedding 0 12 14))) as H by (vm_compute; reflexivity).
      rewrite Hsp in H. exact H. }
    assert (face_prolongation sp (OneGrid segment)
            = Ok (AdMatrix (embedding 12 2 14))) as Hsegment.
    { assert ((sp' ← SubdomainProjections_init None gb 1;
               face_prolongation sp' (OneGrid segment))
              = Ok (AdMatrix (embedding 12 2 14))) as H by (vm_compute; reflexivity).
      rewrite Hsp in H. exact H. }
    assert (cell_prolongation sp (OneGrid point)
            = Ok (AdMatrix (embedding 5 1 6))) as Hpoint.
    { assert ((sp' ← SubdomainProjections_init None gb 1;
               cell_prolongation sp' (OneGrid point))
              = Ok (AdMatrix (embedding 5 1 6))) as H by (vm_compute; reflexivity).
      rewrite Hsp in H. exact H. }
    exists sp, mp. split; [reflexivity |]. split; [reflexivity |].
    split; [by repeat split |].
    split; [| split; [| split]].
    + apply (H1 0%nat (plane, segment) plane _ 3%nat 3%nat 0%nat eq_refl Hplane);
        [reflexivity | vm_compute; lia].
    + apply (H1 1%nat (segment, point) segment _ 13%nat 1%nat 0%nat eq_refl Hsegment);
        [reflexivity | vm_compute; lia].
    + apply (H1 0%nat (plane, segment) segment _ 13%nat 1%nat 0%nat eq_refl Hsegment);
        [reflexivity | vm_compute; lia].
    + apply (H7 1%nat (segment, point) point _ 5%nat 0%nat 0%nat eq_refl Hpoint);
        [reflexivity | vm_compute; lia].
Defined.

End GridOperatorsExtras.
